(** * Splendor solvability estimator: a shallow embedding of [splendor.cc]

    The development follows the source file top to bottom: the Mersenne
    twister ([Twister]), the card and deck model ([Card], [Deck]), the replay
    of a move sequence ([State::play_out]), the mutation operators
    ([State::mutate]) and the annealing driver ([play_randomly],
    [play_single_setting], [play_randomized_deck]).

    Conventions.
    - [int], [unsigned int] and [char] values are integers of [Z]; where the
      source relies on 32-bit wrap-around the wrap is written out ([wrap32],
      [to_int32]).
    - A fixed-size C array is a [list] together with its declared capacity;
      every indexed access goes through [arr_get] / [arr_set], which report
      an index outside the capacity as [OutOfRange] (undefined behaviour in
      C++) instead of inventing a value.
    - The rejection and retry loops of the source have no iteration bound;
      they take a fuel argument and report its exhaustion as [OutOfFuel].
    - [FATAL] and [exit(1)] end the process; a function that can reach them
      returns an [option], [None] standing for the exit.
    - The standard input is the list of the lines that [fgets] delivers;
      the extractions of [std::istringstream] are written out on the
      characters of a line ([extract_int], [extract_word]).  The catalogue
      that [parse_full_deck] builds from [splendor_cards.h] is a parameter
      of the driver. *)

From Stdlib Require Import ZArith Lia List Bool QArith Btauto Ascii.
From Stdlib Require Import Floats.SpecFloat.
From stdpp Require Import base tactics option list numbers strings pretty.

Local Open Scope Z_scope.

(** ** Outcomes of a modelled call *)

Inductive buffer : Type :=
| BufTable      (* Deck::table, 4 cards *)
| BufBacklog    (* Deck::q, 30 cards *)
| BufBonus      (* the 5-entry bonus vector *)
| BufMoves      (* State::move_sequence, 40 tokens *)
| BufCards      (* State::card_sequence, 40 cards *)
| BufPool.      (* the vector of remaining cards *)

Inductive result (A : Type) : Type :=
| Ok (a : A)
| OutOfRange (b : buffer)
| OutOfFuel.

Arguments Ok {A} a.
Arguments OutOfRange {A} b.
Arguments OutOfFuel {A}.

Definition result_bind {A B : Type} (f : A → result B) (m : result A) : result B :=
  match m with
  | Ok a => f a
  | OutOfRange b => OutOfRange b
  | OutOfFuel => OutOfFuel
  end.

#[global] Instance result_ret : MRet result := λ A a, Ok a.
#[global] Instance result_mbind : MBind result := λ A B f m, result_bind f m.

(** [arr_get cap b dflt a i] is the read [a[i]] of an array declared with
    [cap] entries; [arr_set] is the write [a[i] = x]. *)
Definition arr_get {A : Type} (cap : Z) (b : buffer) (dflt : A)
    (a : list A) (i : Z) : result A :=
  if (0 <=? i) && (i <? cap) then Ok (nth (Z.to_nat i) a dflt) else OutOfRange b.

Definition arr_set {A : Type} (cap : Z) (b : buffer)
    (a : list A) (i : Z) (x : A) : result (list A) :=
  if (0 <=? i) && (i <? cap) then Ok (<[Z.to_nat i := x]> a) else OutOfRange b.

(** ** 32-bit arithmetic *)

Definition wrap32 (x : Z) : Z := x mod 2 ^ 32.

(** Conversion of an [unsigned int] to [int] (two's complement). *)
Definition to_int32 (x : Z) : Z :=
  let y := wrap32 x in if y <? 2 ^ 31 then y else y - 2 ^ 32.

(** ** The generator: [struct Twister] *)

Module Twister.

Definition N : Z := 624.
Definition M : Z := 397.

Record t : Type := mk { tab_ : list Z; ptr_ : Z }.

Definition tab_at (tab : list Z) (i : Z) : Z := nth (Z.to_nat i) tab 0.

(** One assignment of [generate_numbers]:
    [tab_[i] = val ^ (y >> 1) ^ (-(s1 & 1) & 0x9908B0DF)] with
    [val = tab_[iv]], [s1 = tab_[is1]] and
    [y = (tab_[i] & 0x80000000) | (s1 & 0x7FFFFFFF)]. *)
Definition twist (tab : list Z) (i iv is1 : Z) : list Z :=
  let val := tab_at tab iv in
  let s1 := tab_at tab is1 in
  let y := Z.lor (Z.land (tab_at tab i) 0x80000000) (Z.land s1 0x7FFFFFFF) in
  let mag := Z.land (wrap32 (- Z.land s1 1)) 0x9908B0DF in
  <[Z.to_nat i := Z.lxor (Z.lxor val (Z.shiftr y 1)) mag]> tab.

(** [for (i = from; i < from + n; ++i) tab_[i] = ...] with the partner
    index at distance [off]. *)
Fixpoint twist_loop (n : nat) (i off : Z) (tab : list Z) : list Z :=
  match n with
  | O => tab
  | S n' => twist_loop n' (i + 1) off (twist tab i (i + off) (i + 1))
  end.

Definition generate_numbers (tw : t) : t :=
  let tab1 := twist_loop (Z.to_nat (N - M)) 0 M (tab_ tw) in
  let tab2 := twist_loop (Z.to_nat (M - 1)) (N - M) (M - N) tab1 in
  let tab3 := twist tab2 (N - 1) (M - 1) 0 in
  mk tab3 0.

(** [tab_[i] = 1812433253UL * (tab_[i - 1] ^ (tab_[i - 1] >> 30)) + i],
    stored into an [unsigned int]. *)
Fixpoint init_loop (n : nat) (i : Z) (prev : Z) : list Z :=
  match n with
  | O => []
  | S n' =>
      let x := wrap32 (1812433253 * Z.lxor prev (Z.shiftr prev 30) + i) in
      x :: init_loop n' (i + 1) x
  end.

Definition init (seed : Z) : t :=
  let t0 := wrap32 seed in
  generate_numbers (mk (t0 :: init_loop (Z.to_nat (N - 1)) 1 t0) N).

(** The default constructor only sets [ptr_ = N]; the table is not
    initialised, any content may be there. *)
Definition fresh (tab : list Z) : t := mk tab N.

Definition extract_number (tw : t) (i : Z) : Z :=
  let y := tab_at (tab_ tw) i in
  let y := Z.lxor y (Z.shiftr y 11) in
  let y := Z.lxor y (Z.land (wrap32 (Z.shiftl y 7)) 0x9D2C5680) in
  let y := Z.lxor y (Z.land (wrap32 (Z.shiftl y 15)) 0xEFC60000) in
  let y := Z.lxor y (Z.shiftr y 18) in
  to_int32 y.

(** [int next_int()]: the next tempered word, as an [int]. *)
Definition next_int (tw : t) : Z * t :=
  let tw1 := if N <=? ptr_ tw then generate_numbers tw else tw in
  (extract_number tw1 (ptr_ tw1), mk (tab_ tw1) (ptr_ tw1 + 1)).

(** The local [unsigned int a] of [next_float]: the tempered word masked
    with [0x7FFFFFFF]. *)
Definition next_float_bits (tw : t) : Z * t :=
  let tw1 := if N <=? ptr_ tw then generate_numbers tw else tw in
  (Z.land (extract_number tw1 (ptr_ tw1)) 0x7FFFFFFF,
   mk (tab_ tw1) (ptr_ tw1 + 1)).

(** [float next_float()]: [return a * 4.656612873077392578125e-10;].  The
    constant is [2^-31]; the product of the 31-bit [a] with it is exact in
    double precision, and the [return] narrows it to [float], IEEE-754
    binary32 with round to nearest even. *)
Definition next_float (tw : t) : spec_float * t :=
  let '(a, tw1) := next_float_bits tw in
  (binary_normalize 24 128 a (-31) false, tw1).

(** The mask of [next_int(int max)]: [max - 1] with its highest set bit
    smeared over all lower positions. *)
Definition smear (used : Z) : Z :=
  let used := Z.lor used (Z.shiftr used 1) in
  let used := Z.lor used (Z.shiftr used 2) in
  let used := Z.lor used (Z.shiftr used 4) in
  let used := Z.lor used (Z.shiftr used 8) in
  let used := Z.lor used (Z.shiftr used 16) in
  used.

Definition used_mask (max : Z) : Z := smear (wrap32 (max - 1)).

(** [do { a = next_int() & used; } while (a >= max);]  The conjunction is
    taken on [unsigned int] and stored back into the [int a]. *)
Fixpoint next_int_loop (fuel : nat) (used max : Z) (tw : t) : result (Z * t) :=
  match fuel with
  | O => OutOfFuel
  | S fuel' =>
      let '(r, tw1) := next_int tw in
      let a := to_int32 (Z.land (wrap32 r) used) in
      if max <=? a then next_int_loop fuel' used max tw1 else Ok (a, tw1)
  end.

(** [int next_int(int max)]. *)
Definition next_int_max (fuel : nat) (max : Z) (tw : t) : result (Z * t) :=
  next_int_loop fuel (used_mask max) max tw.

End Twister.

(** ** Colour names *)

(** [color_to_string]; the fall-through is [FATAL]. *)
Definition color_to_string (c : Z) : option string :=
  if c =? 0 then Some "black"
  else if c =? 1 then Some "red"
  else if c =? 2 then Some "green"
  else if c =? 3 then Some "blue"
  else if c =? 4 then Some "white"
  else None.

(** ** Cards: [struct Card] *)

(** ** Formatted input: [std::istringstream]

    A stream is the text still to be read.  [iss >> x] and [iss >> buff]
    skip leading white space first.  An extraction that fails sets the fail
    bit, which [read_from_string] tests after every extraction; a failed
    extraction is [None]. *)

(** [isspace] in the C locale: the space and the characters 9 to 13. *)
Definition is_space (c : ascii) : bool :=
  let n := Z.of_nat (nat_of_ascii c) in
  (n =? 32) || ((9 <=? n) && (n <=? 13)).

Fixpoint skip_ws (s : string) : string :=
  match s with
  | String c rest => if is_space c then skip_ws rest else s
  | EmptyString => s
  end.

Definition digit_value (c : ascii) : option Z :=
  let n := Z.of_nat (nat_of_ascii c) in
  if (48 <=? n) && (n <=? 57) then Some (n - 48) else None.

(** The decimal digits at the front of [s]: how many there are on top of
    [count], the number they continue from [acc], and the text behind
    them. *)
Fixpoint read_digits (s : string) (count : nat) (acc : Z) : nat * Z * string :=
  match s with
  | String c rest =>
      match digit_value c with
      | Some k => read_digits rest (S count) (10 * acc + k)
      | None => (count, acc, s)
      end
  | EmptyString => (count, acc, s)
  end.

(** [iss >> x] for an [int x]: an optional sign and decimal digits.  The
    extraction fails without a digit and for a number that is no [int]. *)
Definition extract_int (s : string) : option (Z * string) :=
  let s1 := skip_ws s in
  let '(negative, s2) :=
    match s1 with
    | String "-"%char rest => (true, rest)
    | String "+"%char rest => (false, rest)
    | _ => (false, s1)
    end in
  let '(count, magnitude, s3) := read_digits s2 0 0 in
  let x := if (negative : bool) then - magnitude else magnitude in
  if (count =? 0)%nat then None
  else if (- 2 ^ 31 <=? x) && (x <? 2 ^ 31) then Some (x, s3)
  else None.

(** The characters up to the next white space, and the text behind them. *)
Fixpoint read_word (s : string) : string * string :=
  match s with
  | String c rest =>
      if is_space c then (EmptyString, s)
      else let '(w, r) := read_word rest in (String c w, r)
  | EmptyString => (EmptyString, s)
  end.

(** [iss >> buff] for a [string buff]; it fails when no character is left. *)
Definition extract_word (s : string) : option (string * string) :=
  let '(w, rest) := read_word (skip_ws s) in
  match w with
  | EmptyString => None
  | _ => Some (w, rest)
  end.

(** The conversion of an [int] to the [char] of a card field; plain [char]
    is taken as signed and eight bits wide, as on x86-64. *)
Definition to_char (x : Z) : Z := (x + 128) `mod` 256 - 128.

Module Card.

Record t : Type := mk { cost : list Z; type : Z; value : Z }.

(** [Card() {type = -1;}]: an empty slot.  The constructor leaves [cost]
    and [value] indeterminate; no path of the program reads them while
    [type] is [-1], and the model fills them with zeros. *)
Definition empty : t := mk [0; 0; 0; 0; 0] (-1) 0.

Definition with_type (c : t) (ty : Z) : t := mk (cost c) ty (value c).

(** [for (int i = 0; i < 5; ++i)] of [get_cost], entered at index [i] with
    [n] iterations left and the running sum [res]. *)
Fixpoint get_cost_loop (n : nat) (i : Z) (c : t) (bonuses : list Z) (res : Z) : Z :=
  match n with
  | O => if 12 <? res then -1 else res
  | S n' =>
      let b := nth (Z.to_nat i) bonuses 0 in
      let k := nth (Z.to_nat i) (cost c) 0 in
      if k <=? b then get_cost_loop n' (i + 1) c bonuses res
      else if b + 4 <? k then -1
      else get_cost_loop n' (i + 1) c bonuses (res + (k - b))
  end.

Definition get_cost (c : t) (bonuses : list Z) : Z := get_cost_loop 5 0 c bonuses 0.

(** [operator==]. *)
Definition eqb (a b : t) : bool :=
  (nth 0 (cost a) 0 =? nth 0 (cost b) 0) &&
  (nth 1 (cost a) 0 =? nth 1 (cost b) 0) &&
  (nth 2 (cost a) 0 =? nth 2 (cost b) 0) &&
  (nth 3 (cost a) 0 =? nth 3 (cost b) 0) &&
  (nth 4 (cost a) 0 =? nth 4 (cost b) 0) &&
  (type a =? type b) && (value a =? value b).

(** [operator<], the order of [set<Card>]. *)
Definition ltb (a b : t) : bool :=
  if negb (nth 0 (cost a) 0 =? nth 0 (cost b) 0) then nth 0 (cost a) 0 <? nth 0 (cost b) 0
  else if negb (nth 1 (cost a) 0 =? nth 1 (cost b) 0) then nth 1 (cost a) 0 <? nth 1 (cost b) 0
  else if negb (nth 2 (cost a) 0 =? nth 2 (cost b) 0) then nth 2 (cost a) 0 <? nth 2 (cost b) 0
  else if negb (nth 3 (cost a) 0 =? nth 3 (cost b) 0) then nth 3 (cost a) 0 <? nth 3 (cost b) 0
  else if negb (nth 4 (cost a) 0 =? nth 4 (cost b) 0) then nth 4 (cost a) 0 <? nth 4 (cost b) 0
  else if negb (type a =? type b) then type a <? type b
  else value a <? value b.

(** [color_str_to_int]; the last branch is [FATAL]. *)
Definition color_str_to_int (str : string) : option Z :=
  if String.eqb str "black" then Some 0
  else if String.eqb str "red" then Some 1
  else if String.eqb str "green" then Some 2
  else if String.eqb str "blue" then Some 3
  else if String.eqb str "white" then Some 4
  else None.

(** [for (int i = 0; i < 5; ++i)] of [read_from_string], entered at index
    [i] with [n] iterations left: the card with the costs stored so far, and
    the stream unless an extraction failed. *)
Fixpoint read_costs (n : nat) (i : Z) (c : t) (iss : string) : t * option string :=
  match n with
  | O => (c, Some iss)
  | S n' =>
      match extract_int iss with
      | None => (c, None)
      | Some (x, iss') =>
          read_costs n' (i + 1)
            (mk (<[Z.to_nat i := to_char x]> (cost c)) (type c) (value c)) iss'
      end
  end.

(** [read_from_string] on the card [c]: whether it returned [true], and the
    card with the fields stored up to the return.  [None] is the [FATAL] of
    [color_str_to_int]. *)
Definition read_from_string (c : t) (str : string) : option (bool * t) :=
  match read_costs 5 0 c str with
  | (c1, None) => Some (false, c1)
  | (c1, Some iss1) =>
      match extract_word iss1 with
      | None => Some (false, c1)
      | Some (buff, iss2) =>
          match color_str_to_int buff with
          | None => None
          | Some ty =>
              match extract_int iss2 with
              | None => Some (false, mk (cost c1) ty (value c1))
              | Some (y, _) => Some (true, mk (cost c1) ty (to_char y))
              end
          end
      end
  end.

(** [read] on the card [c].  The input is the list of the lines [fgets]
    has yet to deliver, each one the C string it leaves in [line] (at most 99
    characters); an empty list is the end of the input.  The result is
    whether [read] returned [true], the card and the lines left; [None] is
    [FATAL]. *)
Fixpoint read (c : t) (stdin : list string) : option (bool * t * list string) :=
  match stdin with
  | [] => Some (false, c, [])
  | line :: rest =>
      match read_from_string c line with
      | None => None
      | Some (true, c') => Some (true, c', rest)
      | Some (false, c') => read c' rest
      end
  end.

(** [for (int j = 0; j < 5; ++j)] of [ToString], entered at colour [j]
    with [n] iterations left. *)
Fixpoint cost_items (n : nat) (j : Z) (c : t) : option string :=
  match n with
  | O => Some ""
  | S n' =>
      let k := nth (Z.to_nat j) (cost c) 0 in
      if 0 <? k then
        name ← color_to_string j;
        rest ← cost_items n' (j + 1) c;
        Some (name +:+ " " +:+ pretty k +:+ ", " +:+ rest)
      else cost_items n' (j + 1) c
  end.

(** [ToString]: the text streamed into the [ostringstream]. *)
Definition ToString (c : t) : option string :=
  name ← color_to_string (type c);
  items ← cost_items 5 0 c;
  Some (name +:+ " (" +:+ pretty (value c) +:+ ") " +:+ items).

End Card.

(** ** Decks: [struct Deck] *)

Module Deck.

Record t : Type := mk {
  table : list Card.t;     (* Card table[4] *)
  table_sz : Z;
  q : list Card.t;         (* Card q[30] *)
  q_sz : Z
}.

Definition new : t := mk (replicate 4 Card.empty) 0 (replicate 30 Card.empty) 0.

Definition table_get (d : t) (idx : Z) : result Card.t :=
  arr_get 4 BufTable Card.empty (table d) idx.

Definition add_card (d : t) (c : Card.t) : result t :=
  if table_sz d <? 4 then
    tbl ← arr_set 4 BufTable (table d) (table_sz d) c;
    Ok (mk tbl (table_sz d + 1) (q d) (q_sz d))
  else
    q' ← arr_set 30 BufBacklog (q d) (q_sz d) c;
    Ok (mk (table d) (table_sz d) q' (q_sz d + 1)).

Definition can_peak_card (d : t) (idx : Z) : result bool :=
  if table_sz d <? idx then Ok false
  else
    c ← table_get d idx;
    if Card.type c =? -1 then Ok false else Ok true.

Definition pop_card (d : t) (idx : Z) : result t :=
  c ← table_get d idx;
  tbl ← arr_set 4 BufTable (table d) idx (Card.with_type c (-1));
  if 0 <? q_sz d then
    let q_sz' := q_sz d - 1 in
    c' ← arr_get 30 BufBacklog Card.empty (q d) q_sz';
    tbl' ← arr_set 4 BufTable tbl idx c';
    Ok (mk tbl' (table_sz d) (q d) q_sz')
  else Ok (mk tbl (table_sz d) (q d) (q_sz d)).

(** The cards that [to_set] inserts into its result, in the order of the
    insertions: [table[0..table_sz)] and then [q[0..q_sz)].  The
    [std::set] of the source keeps one card of every class of [operator<]
    and iterates in the order of [operator<]; the program never iterates
    over it and only searches it, with [find] in [play_randomized_deck],
    which is the search [card_in] of this list.  Its order and its
    repetitions are those of the deck, not of the [std::set]. *)
Definition table_cards (d : t) : list Card.t := take (Z.to_nat (table_sz d)) (table d).
Definition q_cards (d : t) : list Card.t := take (Z.to_nat (q_sz d)) (q d).
Definition to_set (d : t) : list Card.t := table_cards d ++ q_cards d.

End Deck.

(** ** Search states: [struct State] *)

Module State.

Record t : Type := mk {
  move_sequence : list Z;          (* char move_sequence[40] *)
  move_sequence_sz : Z;
  points : Z;
  tokens_cost : Z;
  rounds : Z;
  card_sequence : list Card.t;     (* Card card_sequence[40] *)
  card_sequence_sz : Z
}.

(** [State()]; the move buffer is not initialised by the constructor and
    is modelled as zeros. *)
Definition new : t :=
  mk (replicate 40 0) 0 0 0 0 (replicate 40 Card.empty) 0.

(** [State(const State &st)]: the card buffer is default-constructed and
    [card_sequence_sz] is left indeterminate ([indet]). *)
Definition copy (indet : Z) (st : t) : t :=
  mk (move_sequence st) (move_sequence_sz st) (points st) (tokens_cost st)
     (rounds st) (replicate 40 Card.empty) indet.

Definition set_card_sequence_sz (st : t) (n : Z) : t :=
  mk (move_sequence st) (move_sequence_sz st) (points st) (tokens_cost st)
     (rounds st) (card_sequence st) n.

(** [DeepCopy] and the implicit assignment both copy every member. *)
Definition DeepCopy (_this st : t) : t := st.

Definition moves_get (st : t) (i : Z) : result Z :=
  arr_get 40 BufMoves 0 (move_sequence st) i.

Definition moves_set (st : t) (i : Z) (x : Z) : result t :=
  ms ← arr_set 40 BufMoves (move_sequence st) i x;
  Ok (mk ms (move_sequence_sz st) (points st) (tokens_cost st) (rounds st)
        (card_sequence st) (card_sequence_sz st)).

(** What [print] hands to [printf]: the four numbers of the summary line
    and, for every resolved move, the token and the text of its card. *)
Record printout : Type := Printout {
  po_points : Z;
  po_rounds : Z;
  po_tokens_cost : Z;
  po_cc : Z;
  po_lines : list (Z * string)
}.

(** [for (int i = 0; i < move_sequence_sz; ++i)] of [print], entered at
    index [i] with [n] iterations left. *)
Fixpoint print_lines (n : nat) (i : Z) (st : t) : result (option (list (Z * string))) :=
  match n with
  | O => Ok (Some [])
  | S n' =>
      m ← moves_get st i;
      c ← arr_get 40 BufCards Card.empty (card_sequence st) i;
      match Card.ToString c with
      | None => Ok None
      | Some s =>
          rest ← print_lines n' (i + 1) st;
          Ok (ls ← rest; Some ((m, s) :: ls))
      end
  end.

(** [print]; [Ok None] is [FATAL]. *)
Definition print (st : t) : result (option printout) :=
  if negb (card_sequence_sz st =? move_sequence_sz st) then Ok None else
  lines ← print_lines (Z.to_nat (move_sequence_sz st)) 0 st;
  Ok (ls ← lines;
      Some (Printout (points st) (rounds st) (tokens_cost st)
              (rounds st + (tokens_cost st + 3) `quot` 4) ls)).

End State.

(** ** Replay: [Deck::process_move] and [State::play_out] *)

(** [process_move] receives pointers to [points], [tokens_cost] and
    [rounds] of the state being built, to the bonus vector, and to the slot
    [card_sequence + card_sequence_sz] of that state; the model passes the
    state and the vector and returns them updated. *)
Definition process_move (d : Deck.t) (x : Z) (st : State.t) (bonus : list Z)
    : result (bool * Deck.t * State.t * list Z) :=
  ok ← Deck.can_peak_card d x;
  if negb ok then Ok (false, d, st, bonus) else
  c ← Deck.table_get d x;
  let cost := Card.get_cost c bonus in
  if cost =? -1 then Ok (false, d, st, bonus) else
  if 28 <? State.rounds st + 1 + (State.tokens_cost st + 3 + cost) `quot` 4
  then Ok (false, d, st, bonus) else
  let nb := Z.of_nat (length bonus) in
  b ← arr_get nb BufBonus 0 bonus (Card.type c);
  bonus' ← arr_set nb BufBonus bonus (Card.type c) (b + 1);
  cs ← arr_set 40 BufCards (State.card_sequence st) (State.card_sequence_sz st) c;
  d' ← Deck.pop_card d x;
  Ok (true, d',
      State.mk (State.move_sequence st) (State.move_sequence_sz st)
        (State.points st + Card.value c) (State.tokens_cost st + cost)
        (State.rounds st + 1) cs (State.card_sequence_sz st),
      bonus').

(** The locals of [play_out] together with the state under construction. *)
Record replay : Type := Replay {
  r_d1 : Deck.t; r_d2 : Deck.t; r_d3 : Deck.t;
  r_bonus : list Z;
  r_st : State.t
}.

(** The condition of the [if] in [play_out], with its short-circuit
    evaluation: at most one deck is consulted. *)
Definition try_move (r : replay) (x : Z) : result (bool * replay) :=
  '(ok1, r1) ←
     (if x <? 4 then
        '(ok, d, st, bonus) ← process_move (r_d1 r) x (r_st r) (r_bonus r);
        Ok (ok, Replay d (r_d2 r) (r_d3 r) bonus st)
      else Ok (false, r));
  if (ok1 : bool) then Ok (true, r1) else
  '(ok2, r2) ←
     (if (4 <=? x) && (x <? 8) then
        '(ok, d, st, bonus) ← process_move (r_d2 r1) (x - 4) (r_st r1) (r_bonus r1);
        Ok (ok, Replay (r_d1 r1) d (r_d3 r1) bonus st)
      else Ok (false, r1));
  if (ok2 : bool) then Ok (true, r2) else
  if 8 <=? x then
    '(ok, d, st, bonus) ← process_move (r_d3 r2) (x - 8) (r_st r2) (r_bonus r2);
    Ok (ok, Replay (r_d1 r2) (r_d2 r2) d bonus st)
  else Ok (false, r2).

(** One iteration of the [while] of [play_out] for the token [move]; the
    boolean tells whether the token was committed. *)
Definition play_move (r : replay) (move : Z) : result (bool * replay) :=
  let x := Z.rem move 16 in
  '(ok, r') ← try_move r x;
  if (ok : bool) then
    st ← State.moves_set (r_st r') (State.move_sequence_sz (r_st r')) x;
    let st' :=
      State.mk (State.move_sequence st) (State.move_sequence_sz st + 1)
        (State.points st) (State.tokens_cost st) (State.rounds st)
        (State.card_sequence st) (State.card_sequence_sz st + 1) in
    Ok (true, Replay (r_d1 r') (r_d2 r') (r_d3 r') (r_bonus r') st')
  else Ok (false, r').

Fixpoint play_out_loop (n : nat) (ptr : Z) (cand : State.t) (r : replay)
    : result replay :=
  match n with
  | O => Ok r
  | S n' =>
      move ← State.moves_get cand ptr;
      '(_, r') ← play_move r move;
      play_out_loop n' (ptr + 1) cand r'
  end.

Definition play_start (d1 d2 d3 : Deck.t) (this : State.t) : replay :=
  Replay d1 d2 d3 (replicate 5 0) this.

(** [this->play_out(d1, d2, d3, cand)]. *)
Definition play_out (this : State.t) (d1 d2 d3 : Deck.t) (cand : State.t)
    : result State.t :=
  r ← play_out_loop (Z.to_nat (State.move_sequence_sz cand)) 0 cand
        (play_start d1 d2 d3 this);
  Ok (r_st r).

(** ** Random completion of a deck: [Deck::fill_up_randomly] *)

(** [swap(v[x], v.back()); v.pop_back();] on the pool vector. *)
Definition swap_remove (v : list Card.t) (x : Z) : result (list Card.t) :=
  let n := Z.of_nat (length v) in
  vx ← arr_get n BufPool Card.empty v x;
  back ← arr_get n BufPool Card.empty v (n - 1);
  v1 ← arr_set n BufPool v x back;
  v2 ← arr_set n BufPool v1 (n - 1) vx;
  Ok (take (Z.to_nat (n - 1)) v2).

(** Locals of [fill_up_randomly] between iterations. *)
Record filling : Type := Filling {
  f_deck : Deck.t;
  f_pool : list Card.t;      (* the by-value parameter [v] *)
  f_twister : Twister.t
}.

Definition pool_empty (v : list Card.t) : bool :=
  match v with [] => true | _ => false end.

(** [while (table_sz < 4 && !v.empty())]; [n] bounds the iterations and
    [fuel] the rejection loop of every draw. *)
Fixpoint fill_table_loop (n fuel : nat) (s : filling) : result filling :=
  match n with
  | O => OutOfFuel
  | S n' =>
      let d := f_deck s in
      let v := f_pool s in
      if (Deck.table_sz d <? 4) && negb (pool_empty v) then
        '(x, tw) ← Twister.next_int_max fuel (Z.of_nat (length v)) (f_twister s);
        c ← arr_get (Z.of_nat (length v)) BufPool Card.empty v x;
        tbl ← arr_set 4 BufTable (Deck.table d) (Deck.table_sz d) c;
        v' ← swap_remove v x;
        fill_table_loop n' fuel
          (Filling (Deck.mk tbl (Deck.table_sz d + 1) (Deck.q d) (Deck.q_sz d)) v' tw)
      else Ok s
  end.

(** [while (q_sz < desired_size && !v.empty())]. *)
Fixpoint fill_backlog_loop (n fuel : nat) (desired_size : Z) (s : filling)
    : result filling :=
  match n with
  | O => OutOfFuel
  | S n' =>
      let d := f_deck s in
      let v := f_pool s in
      if (Deck.q_sz d <? desired_size) && negb (pool_empty v) then
        '(x, tw) ← Twister.next_int_max fuel (Z.of_nat (length v)) (f_twister s);
        c ← arr_get (Z.of_nat (length v)) BufPool Card.empty v x;
        q' ← arr_set 30 BufBacklog (Deck.q d) (Deck.q_sz d) c;
        v' ← swap_remove v x;
        fill_backlog_loop n' fuel desired_size
          (Filling (Deck.mk (Deck.table d) (Deck.table_sz d) q' (Deck.q_sz d + 1)) v' tw)
      else Ok s
  end.

(** Both loops of [fill_up_randomly]; every iteration removes one card
    from the pool, so [length v + 1] iterations suffice for each loop. *)
Definition fill_up_run (fuel : nat) (desired_size : Z) (v : list Card.t)
    (setup_twister : Twister.t) (d : Deck.t) : result filling :=
  s1 ← fill_table_loop (S (length v)) fuel (Filling d v setup_twister);
  fill_backlog_loop (S (length (f_pool s1))) fuel desired_size s1.

(** [d.fill_up_randomly(desired_size, v, setup_twister)]: the deck and the
    generator as the call leaves them. *)
Definition fill_up_randomly (fuel : nat) (desired_size : Z) (v : list Card.t)
    (setup_twister : Twister.t) (d : Deck.t) : result (Deck.t * Twister.t) :=
  s ← fill_up_run fuel desired_size v setup_twister d;
  Ok (f_deck s, f_twister s).

(** ** Mutation: [State::mutate] *)

(** [while (true) { next = next_int(10); if (next == old) continue; ... }] *)
Fixpoint change_loop (n fuel : nat) (old : Z) (tw : Twister.t)
    : result (Z * Twister.t) :=
  match n with
  | O => OutOfFuel
  | S n' =>
      '(next, tw1) ← Twister.next_int_max fuel 10 tw;
      if next =? old then change_loop n' fuel old tw1 else Ok (next, tw1)
  end.

(** [for (int i = move_sequence_sz; i > pos; --i)
       move_sequence[i] = move_sequence[i - 1];] *)
Fixpoint shift_loop (n : nat) (i : Z) (st : State.t) : result State.t :=
  match n with
  | O => Ok st
  | S n' =>
      v ← State.moves_get st (i - 1);
      st1 ← State.moves_set st i v;
      shift_loop n' (i - 1) st1
  end.

Definition set_move_sequence_sz (st : State.t) (n : Z) : State.t :=
  State.mk (State.move_sequence st) n (State.points st) (State.tokens_cost st)
    (State.rounds st) (State.card_sequence st) (State.card_sequence_sz st).

Definition mutate (fuel : nat) (st : State.t) (twister : Twister.t)
    : result (bool * State.t * Twister.t) :=
  let sz := State.move_sequence_sz st in
  '(mod_, tw1) ← Twister.next_int_max fuel 3 twister;
  if mod_ =? 0 then
    (* CHANGE *)
    if sz =? 0 then Ok (false, st, tw1) else
    '(pos, tw2) ← Twister.next_int_max fuel sz tw1;
    old ← State.moves_get st pos;
    '(next, tw3) ← change_loop fuel fuel old tw2;
    st1 ← State.moves_set st pos next;
    Ok (true, st1, tw3)
  else if mod_ =? 1 then
    (* INSERT *)
    if 30 <? sz then Ok (false, st, tw1) else
    '(pos, tw2) ← Twister.next_int_max fuel (sz + 1) tw1;
    st1 ← shift_loop (Z.to_nat (sz - pos)) sz st;
    '(tok, tw3) ← Twister.next_int_max fuel 10 tw2;
    st2 ← State.moves_set st1 pos tok;
    Ok (true, set_move_sequence_sz st2 (sz + 1), tw3)
  else if mod_ =? 2 then
    (* SWAP *)
    if sz <? 3 then Ok (false, st, tw1) else
    '(px, tw2) ← Twister.next_int_max fuel sz tw1;
    '(py, tw3) ← Twister.next_int_max fuel sz tw2;
    if px =? py then Ok (false, st, tw3) else
    a ← State.moves_get st px;
    b ← State.moves_get st py;
    if a =? b then Ok (false, st, tw3) else
    st1 ← State.moves_set st px b;
    st2 ← State.moves_set st1 py a;
    Ok (true, st2, tw3)
  else Ok (true, st, tw1).

(** [while (!cand.mutate(annealing_twister)) {}] *)
Fixpoint mutate_retry (n fuel : nat) (cand : State.t) (tw : Twister.t)
    : result (State.t * Twister.t) :=
  match n with
  | O => OutOfFuel
  | S n' =>
      '(ok, cand1, tw1) ← mutate fuel cand tw;
      if (ok : bool) then Ok (cand1, tw1) else mutate_retry n' fuel cand1 tw1
  end.

(** ** The annealing search and its drivers *)

(** The temperature schedule and the acceptance test are computed in
    floating point.  They are kept abstract: any type of temperatures, any
    loop test [temp > final_temp], any cooling step [temp *= temp_cooldown]
    and any decision [exp((refined.points - st.points) / temp) > u]
    (a function of the point difference, the temperature and the value [u]
    drawn by [next_float]).  The process-wide [best_state] is
    passed in and returned. *)
Section Anneal.

Context {temperature : Type}.
Variable start_temp : temperature.
Variable above_final : temperature → bool.
Variable cool : temperature → temperature.
Variable accept : Z → temperature → spec_float → bool.
(** The value the copy constructor leaves in [card_sequence_sz]. *)
Variable indet : Z.
(** The catalogue [full_deck_set], in the iteration order of the set. *)
Variable full_deck_set : list Card.t.

(** What one iteration of the [while] of [play_randomly] leaves behind,
    with the candidate and the refined state it went through. *)
Record anneal_step_out : Type := StepOut {
  so_cand : State.t;
  so_refined : State.t;
  so_st : State.t;
  so_best : State.t;
  so_twister : Twister.t
}.

Definition anneal_step (fuel : nat) (d1 d2 d3 : Deck.t) (st best_state : State.t)
    (tw : Twister.t) (temp : temperature) : result anneal_step_out :=
  let cand := State.set_card_sequence_sz (State.copy indet st) 0 in
  '(cand, tw1) ← mutate_retry fuel fuel cand tw;
  refined ← play_out State.new d1 d2 d3 cand;
  let best_state' :=
    if State.points best_state <? State.points refined
    then State.DeepCopy best_state refined else best_state in
  let '(u, tw2) := Twister.next_float tw1 in
  let st' :=
    if accept (State.points refined - State.points st) temp u
    then refined else st in
  Ok (StepOut cand refined st' best_state' tw2).

(** [while (temp > final_temp)]: the incumbent, the best state and the
    generator after the loop. *)
Fixpoint anneal_loop (n fuel : nat) (d1 d2 d3 : Deck.t) (st best_state : State.t)
    (tw : Twister.t) (temp : temperature)
    : result (State.t * State.t * Twister.t) :=
  match n with
  | O => OutOfFuel
  | S n' =>
      if above_final temp then
        o ← anneal_step fuel d1 d2 d3 st best_state tw temp;
        anneal_loop n' fuel d1 d2 d3 (so_st o) (so_best o) (so_twister o) (cool temp)
      else Ok (st, best_state, tw)
  end.

Definition play_randomly (fuel : nat) (d1 d2 d3 : Deck.t) (best_state : State.t)
    (annealing_twister : Twister.t) : result (State.t * Twister.t) :=
  '(_, best_state', tw) ←
     anneal_loop fuel fuel d1 d2 d3 State.new best_state annealing_twister start_temp;
  Ok (best_state', tw).

(** [reverse(d.q, d.q + d.q_sz)]. *)
Definition reverse_backlog (d : Deck.t) : Deck.t :=
  let k := Z.to_nat (Deck.q_sz d) in
  Deck.mk (Deck.table d) (Deck.table_sz d)
    (rev (take k (Deck.q d)) ++ drop k (Deck.q d)) (Deck.q_sz d).

(** [for (int i = 0; i < 10; ++i) play_randomly(...)], [k] runs to go. *)
Fixpoint play_runs (k fuel : nat) (d1 d2 d3 : Deck.t) (best_state : State.t)
    (tw : Twister.t) : result (State.t * Twister.t) :=
  match k with
  | O => Ok (best_state, tw)
  | S k' =>
      '(best_state', tw') ← play_randomly fuel d1 d2 d3 best_state tw;
      play_runs k' fuel d1 d2 d3 best_state' tw'
  end.

Definition play_single_setting (fuel : nat) (d1 d2 d3 : Deck.t)
    (best_state : State.t) (annealing_twister : Twister.t)
    : result (State.t * Twister.t) :=
  play_runs 10 fuel (reverse_backlog d1) (reverse_backlog d2) d3
    best_state annealing_twister.

Definition card_in (c : Card.t) (s : list Card.t) : bool := existsb (Card.eqb c) s.

Definition remaining1 (d1s : list Card.t) : list Card.t :=
  List.filter (λ c, (Card.value c =? 0) && negb (card_in c d1s)) full_deck_set.

Definition remaining2 (d2s : list Card.t) : list Card.t :=
  List.filter (λ c, negb (Card.value c =? 0) && negb (Card.value c =? 10)
                    && negb (card_in c d2s)) full_deck_set.

(** [play_randomized_deck]: returns the new [best_state] and both
    generators. *)
Definition play_randomized_deck (fuel : nat) (d1 d2 d3 : Deck.t)
    (best_state : State.t) (setup_twister annealing_twister : Twister.t)
    : result (State.t * Twister.t * Twister.t) :=
  let d1s := Deck.to_set d1 in
  let d2s := Deck.to_set d2 in
  '(d1', setup1) ← fill_up_randomly fuel 25 (remaining1 d1s) setup_twister d1;
  '(d2', setup2) ← fill_up_randomly fuel 25 (remaining2 d2s) setup1 d2;
  let best_state := State.new in
  '(best_state', annealing') ← play_single_setting fuel d1' d2' d3 best_state annealing_twister;
  Ok (best_state', setup2, annealing').

End Anneal.

(** ** The driver: [main] *)

Section Main.

Context {temperature : Type}.
Variable start_temp : temperature.
Variable above_final : temperature → bool.
Variable cool : temperature → temperature.
Variable accept : Z → temperature → spec_float → bool.
Variable indet : Z.
Variable full_deck_set : list Card.t.

(** The [while (true)] loop of [main] on the lines of the input, with a
    fresh [Card c] in every iteration.  An iteration that does not leave the
    loop takes at least one line, so [n] iterations suffice for fewer than
    [n] lines.  [Ok None] is an exit with status 1: the [FATAL] inside
    [read], or the [exit(1)] after "unrecognized card". *)
Fixpoint deal (n : nat) (stdin : list string) (d1 d2 d3 : Deck.t)
    : result (option (Deck.t * Deck.t * Deck.t)) :=
  match n with
  | O => OutOfFuel
  | S n' =>
      match Card.read Card.empty stdin with
      | None => Ok None
      | Some (false, _, _) => Ok (Some (d1, d2, d3))
      | Some (true, c, rest) =>
          if negb (card_in c full_deck_set) then Ok None
          else if Card.value c =? 0 then
            d1' ← Deck.add_card d1 c; deal n' rest d1' d2 d3
          else if Card.value c =? 10 then
            d3' ← Deck.add_card d3 c; deal n' rest d1 d2 d3'
          else
            d2' ← Deck.add_card d2 c; deal n' rest d1 d2' d3
      end
  end.

(** The counters of the trial loop, with the state it threads. *)
Record tally : Type := Tally {
  at_31 : Z;
  mx : Z;
  t_best : State.t;
  t_setup : Twister.t;
  t_annealing : Twister.t
}.

(** [for (int i = 0; i < 50; ++i)] of [main], [k] iterations to go.  The
    progress line of an iteration is printed from these counters. *)
Fixpoint trials (k fuel : nat) (d1 d2 d3 : Deck.t) (s : tally) : result tally :=
  match k with
  | O => Ok s
  | S k' =>
      '(best_state, setup', annealing') ←
         play_randomized_deck start_temp above_final cool accept indet
           full_deck_set fuel d1 d2 d3 (t_best s) (t_setup s) (t_annealing s);
      let at_31' :=
        if 31 <=? State.points best_state then at_31 s + 1 else at_31 s in
      let mx' :=
        if mx s <? State.points best_state then State.points best_state else mx s in
      trials k' fuel d1 d2 d3 (Tally at_31' mx' best_state setup' annealing')
  end.

(** [main] on the lines of the input; [Ok None] is an exit with status 1. *)
Definition main (fuel : nat) (stdin : list string) : result (option tally) :=
  dealt ← deal (S (length stdin)) stdin Deck.new Deck.new Deck.new;
  match dealt with
  | None => Ok None
  | Some (d1, d2, d3) =>
      s ← trials 50 fuel d1 d2 d3
             (Tally 0 0 State.new (Twister.init 23590421) (Twister.init 549120939));
      Ok (Some s)
  end.

End Main.

(** * Notions used in the statements *)

(** ** Cost *)

(** The deficit of colour [i]: the card's cost in that colour minus the
    bonus, when positive. *)
Definition deficit (c : Card.t) (bonus : list Z) (i : Z) : Z :=
  Z.max 0 (nth (Z.to_nat i) (Card.cost c) 0 - nth (Z.to_nat i) bonus 0).

Definition total_deficit (c : Card.t) (bonus : list Z) : Z :=
  deficit c bonus 0 + deficit c bonus 1 + deficit c bonus 2
  + deficit c bonus 3 + deficit c bonus 4.

(** The deficits of the [n] colours from [i] on, summed. *)
Fixpoint deficit_sum (n : nat) (i : Z) (c : Card.t) (bonus : list Z) : Z :=
  match n with
  | O => 0
  | S n' => deficit c bonus i + deficit_sum n' (i + 1) c bonus
  end.

(** [ceil (n / 4)]. *)
Definition ceil_quarter (n : Z) : Z := - ((- n) `div` 4).

(** ** The generator *)

(** The raw 32-bit output behind the next draw. *)
Definition next_uint32 (tw : Twister.t) : Z := wrap32 (Twister.next_int tw).1.

(** [k] draws in a row from a pool that loses one card with every draw:
    [next_int(n)], [next_int(n - 1)], ... on the same generator, each with
    [fuel] for its rejection loop; the generator they leave. *)
Fixpoint successive_draws (k fuel : nat) (n : Z) (tw : Twister.t) : result Twister.t :=
  match k with
  | O => Ok tw
  | S k' =>
      '(_, tw1) ← Twister.next_int_max fuel n tw;
      successive_draws k' fuel (n - 1) tw1
  end.

(** The number of cards the first loop of [fill_up_randomly] has to move
    to the table, and the second to the backlog. *)
Definition table_draws (v : list Card.t) (d : Deck.t) : nat :=
  Z.to_nat (Z.of_nat (length v) `min` (4 - Deck.table_sz d)).

Definition backlog_draws (desired_size : Z) (v : list Card.t) (d : Deck.t) : nat :=
  Z.to_nat ((Z.of_nat (length v) - Z.of_nat (table_draws v d))
              `min` (0 `max` (desired_size - Deck.q_sz d))).

(** ** The catalogue *)

(** Modelled from the spec: the catalogue [full_deck] of [splendor_cards.h]
    is not among the sources.  By the data model of the specification every
    card of it has five costs in 0..10, a colour 0..4 and a point value in
    0..10; [main] refuses any input card outside the catalogue and the random
    completion draws from it. *)
Definition catalogue_card (c : Card.t) : Prop :=
  length (Card.cost c) = 5%nat ∧ Forall (λ k, 0 ≤ k ≤ 10) (Card.cost c) ∧
  0 ≤ Card.type c ≤ 4 ∧ 0 ≤ Card.value c ≤ 10.

(** A table slot or backlog entry is empty or holds a catalogue card. *)
Definition slot_ok (c : Card.t) : Prop := Card.type c = -1 ∨ catalogue_card c.

Definition deck_from_catalogue (d : Deck.t) : Prop :=
  Forall slot_ok (Deck.table d) ∧ Forall slot_ok (Deck.q_cards d).

Definition decks_from_catalogue (r : replay) : Prop :=
  deck_from_catalogue (r_d1 r) ∧ deck_from_catalogue (r_d2 r) ∧
  deck_from_catalogue (r_d3 r).

(** The arrays of a deck have their declared sizes and the counters are in
    range. *)
Definition deck_shape (d : Deck.t) : Prop :=
  length (Deck.table d) = 4%nat ∧ length (Deck.q d) = 30%nat ∧
  0 ≤ Deck.table_sz d ≤ 4 ∧ 0 ≤ Deck.q_sz d ≤ 30.

(** A deck as [main] builds it and the random completion extends it. *)
Definition deck_ready (d : Deck.t) : Prop := deck_shape d ∧ deck_from_catalogue d.

(** ** Replay *)

(** Three such decks and the 5-entry bonus vector. *)
Definition replay_ready (r : replay) : Prop :=
  deck_ready (r_d1 r) ∧ deck_ready (r_d2 r) ∧ deck_ready (r_d3 r) ∧
  length (r_bonus r) = 5%nat.

(** The deck (0, 1 or 2) and the table slot the reduced token [x = m % 16]
    selects. *)
Definition addressed_deck (x : Z) : Z := if x <? 4 then 0 else if x <? 8 then 1 else 2.
Definition addressed_slot (x : Z) : Z := if x <? 4 then x else if x <? 8 then x - 4 else x - 8.

Definition nth_deck (r : replay) (k : Z) : Deck.t :=
  if k =? 0 then r_d1 r else if k =? 1 then r_d2 r else r_d3 r.

Definition set_nth_deck (r : replay) (k : Z) (d : Deck.t) (bonus : list Z)
    (st : State.t) : replay :=
  if k =? 0 then Replay d (r_d2 r) (r_d3 r) bonus st
  else if k =? 1 then Replay (r_d1 r) d (r_d3 r) bonus st
  else Replay (r_d1 r) (r_d2 r) d bonus st.

(** The candidate [cand] with every token [m] replaced by [m % 16]. *)
Definition reduce_tokens (cand : State.t) : State.t :=
  State.mk (map (λ m, Z.rem m 16) (State.move_sequence cand))
    (State.move_sequence_sz cand) (State.points cand) (State.tokens_cost cand)
    (State.rounds cand) (State.card_sequence cand) (State.card_sequence_sz cand).

(** [process_move] on table slot [slot] of deck number [k]. *)
Definition address (r : replay) (k slot : Z) : result (bool * replay) :=
  '(ok, d, st, bonus) ← process_move (nth_deck r k) slot (r_st r) (r_bonus r);
  Ok (ok, set_nth_deck r k d bonus st).

(** What a committed call of [process_move] has established and done. *)
Record committed (d : Deck.t) (x : Z) (st : State.t) (bonus : list Z)
    (d' : Deck.t) (st' : State.t) (bonus' : list Z) (c : Card.t) : Prop := {
  cm_card : Deck.table_get d x = Ok c;
  cm_shown : Card.type c ≠ -1;
  cm_feasible : Card.get_cost c bonus ≠ -1;
  cm_budget :
    State.rounds st + 1 + (State.tokens_cost st + 3 + Card.get_cost c bonus) `quot` 4 ≤ 28;
  cm_pop : Deck.pop_card d x = Ok d';
  cm_slot : 0 ≤ State.card_sequence_sz st < 40;
  cm_colour : 0 ≤ Card.type c < Z.of_nat (length bonus);
  cm_bonus :
    bonus' = <[Z.to_nat (Card.type c) := nth (Z.to_nat (Card.type c)) bonus 0 + 1]> bonus;
  cm_state :
    st' = State.mk (State.move_sequence st) (State.move_sequence_sz st)
            (State.points st + Card.value c)
            (State.tokens_cost st + Card.get_cost c bonus)
            (State.rounds st + 1)
            (<[Z.to_nat (State.card_sequence_sz st) := c]> (State.card_sequence st))
            (State.card_sequence_sz st)
}.

(** What a committed token does to the replay state. *)
Record commit_step (r : replay) (move : Z) (r' : replay) (c : Card.t) : Prop := {
  cs_card :
    Deck.table_get (nth_deck r (addressed_deck (Z.rem move 16)))
      (addressed_slot (Z.rem move 16)) = Ok c;
  cs_shown : Card.type c ≠ -1;
  cs_feasible : Card.get_cost c (r_bonus r) ≠ -1;
  cs_budget :
    State.rounds (r_st r) + 1 +
    (State.tokens_cost (r_st r) + 3 + Card.get_cost c (r_bonus r)) `quot` 4 ≤ 28;
  cs_pop :
    Deck.pop_card (nth_deck r (addressed_deck (Z.rem move 16)))
      (addressed_slot (Z.rem move 16))
    = Ok (nth_deck r' (addressed_deck (Z.rem move 16)));
  cs_others :
    ∀ j, 0 ≤ j ≤ 2 → j ≠ addressed_deck (Z.rem move 16) → nth_deck r' j = nth_deck r j;
  cs_colour : 0 ≤ Card.type c < Z.of_nat (length (r_bonus r));
  cs_bonus :
    r_bonus r' =
    <[Z.to_nat (Card.type c) := nth (Z.to_nat (Card.type c)) (r_bonus r) 0 + 1]> (r_bonus r);
  cs_points : State.points (r_st r') = State.points (r_st r) + Card.value c;
  cs_tokens :
    State.tokens_cost (r_st r') = State.tokens_cost (r_st r) + Card.get_cost c (r_bonus r);
  cs_rounds : State.rounds (r_st r') = State.rounds (r_st r) + 1;
  cs_moves_sz : State.move_sequence_sz (r_st r') = State.move_sequence_sz (r_st r) + 1;
  cs_cards_sz : State.card_sequence_sz (r_st r') = State.card_sequence_sz (r_st r) + 1;
  cs_moves_room : 0 ≤ State.move_sequence_sz (r_st r) < 40;
  cs_cards_room : 0 ≤ State.card_sequence_sz (r_st r) < 40;
  cs_moves :
    State.move_sequence (r_st r') =
    <[Z.to_nat (State.move_sequence_sz (r_st r)) := Z.rem move 16]> (State.move_sequence (r_st r));
  cs_cards :
    State.card_sequence (r_st r') =
    <[Z.to_nat (State.card_sequence_sz (r_st r)) := c]> (State.card_sequence (r_st r))
}.

(** Why the token [move] is turned down in the replay state [r]: the three
    checks of [process_move], in their order. *)
Inductive rejection_cause (r : replay) (move : Z) : Prop :=
| EmptySlot :
    Deck.can_peak_card (nth_deck r (addressed_deck (Z.rem move 16)))
      (addressed_slot (Z.rem move 16)) = Ok false →
    rejection_cause r move
| InfeasibleCost (c : Card.t) :
    Deck.can_peak_card (nth_deck r (addressed_deck (Z.rem move 16)))
      (addressed_slot (Z.rem move 16)) = Ok true →
    Deck.table_get (nth_deck r (addressed_deck (Z.rem move 16)))
      (addressed_slot (Z.rem move 16)) = Ok c →
    Card.get_cost c (r_bonus r) = -1 →
    rejection_cause r move
| BudgetOverflow (c : Card.t) :
    Deck.can_peak_card (nth_deck r (addressed_deck (Z.rem move 16)))
      (addressed_slot (Z.rem move 16)) = Ok true →
    Deck.table_get (nth_deck r (addressed_deck (Z.rem move 16)))
      (addressed_slot (Z.rem move 16)) = Ok c →
    28 < State.rounds (r_st r) + 1 +
         (State.tokens_cost (r_st r) + 3 + Card.get_cost c (r_bonus r)) `quot` 4 →
    rejection_cause r move.

(** The replay with its history: for every token, whether it was committed
    and the replay state after it. *)
Fixpoint play_out_trace (n : nat) (ptr : Z) (cand : State.t) (r : replay)
    : result (list (bool * replay)) :=
  match n with
  | O => Ok []
  | S n' =>
      move ← State.moves_get cand ptr;
      '(ok, r') ← play_move r move;
      rest ← play_out_trace n' (ptr + 1) cand r';
      Ok ((ok, r') :: rest)
  end.

(** The state a history ends in. *)
Definition last_state (r : replay) (tr : list (bool * replay)) : replay :=
  List.last (map snd tr) r.

(** The number of committed tokens of a history. *)
Definition committed_count (tr : list (bool * replay)) : Z :=
  Z.of_nat (length (List.filter fst tr)).

(** Points, token cost and rounds do not decrease from [r] to [r']. *)
Definition counters_le (r r' : replay) : Prop :=
  State.points (r_st r) ≤ State.points (r_st r') ∧
  State.tokens_cost (r_st r) ≤ State.tokens_cost (r_st r') ∧
  State.rounds (r_st r) ≤ State.rounds (r_st r').

(** They do not decrease from any state of the history to the next. *)
Fixpoint nondecreasing_from (r : replay) (tr : list (bool * replay)) : Prop :=
  match tr with
  | [] => True
  | (_, r') :: tl => counters_le r r' ∧ nondecreasing_from r' tl
  end.

(** ** Random completion *)

(** What a completed first loop of [fill_up_randomly] has done: [drawn]
    lists the cards it moved to the table, in order. *)
Record table_filled (s s' : filling) (drawn : list Card.t) : Prop := {
  tf_perm : f_pool s ≡ₚ drawn ++ f_pool s';
  tf_cards : Deck.table_cards (f_deck s') = Deck.table_cards (f_deck s) ++ drawn;
  tf_sz : Deck.table_sz (f_deck s') = Deck.table_sz (f_deck s) + Z.of_nat (length drawn);
  tf_q : Deck.q (f_deck s') = Deck.q (f_deck s) ∧ Deck.q_sz (f_deck s') = Deck.q_sz (f_deck s);
  tf_count :
    Z.of_nat (length drawn)
    = Z.of_nat (length (f_pool s)) `min` (4 - Deck.table_sz (f_deck s));
  tf_shape : deck_shape (f_deck s')
}.

(** The same for the second loop and the backlog. *)
Record backlog_filled (desired_size : Z) (s s' : filling) (drawn : list Card.t) : Prop := {
  bf_perm : f_pool s ≡ₚ drawn ++ f_pool s';
  bf_cards : Deck.q_cards (f_deck s') = Deck.q_cards (f_deck s) ++ drawn;
  bf_sz : Deck.q_sz (f_deck s') = Deck.q_sz (f_deck s) + Z.of_nat (length drawn);
  bf_table :
    Deck.table (f_deck s') = Deck.table (f_deck s) ∧
    Deck.table_sz (f_deck s') = Deck.table_sz (f_deck s);
  bf_count :
    Z.of_nat (length drawn)
    = Z.of_nat (length (f_pool s)) `min` (0 `max` (desired_size - Deck.q_sz (f_deck s)));
  bf_shape : deck_shape (f_deck s')
}.

(** ** Sequences of the search *)

(** The move sequence of a state as the search keeps it: a 40-entry buffer
    of which at most 31 entries are in use, every one a token in [0, 10). *)
Definition seq_ok (st : State.t) : Prop :=
  length (State.move_sequence st) = 40%nat ∧
  0 ≤ State.move_sequence_sz st ≤ 31 ∧
  ∀ i, 0 ≤ i < State.move_sequence_sz st →
       0 ≤ nth (Z.to_nat i) (State.move_sequence st) 0 < 10.

(** The state a replay is building: both sequences have the same length,
    at most the number [ptr] of tokens read so far, and hold tokens of
    [0, 10). *)
Definition building (ptr : Z) (st : State.t) : Prop :=
  length (State.move_sequence st) = 40%nat ∧
  State.card_sequence_sz st = State.move_sequence_sz st ∧
  0 ≤ State.move_sequence_sz st ≤ ptr ∧
  ∀ i, 0 ≤ i < State.move_sequence_sz st →
       0 ≤ nth (Z.to_nat i) (State.move_sequence st) 0 < 10.

(** The state [st] with its move buffer replaced. *)
Definition with_moves (st : State.t) (ms : list Z) : State.t :=
  State.mk ms (State.move_sequence_sz st) (State.points st) (State.tokens_cost st)
    (State.rounds st) (State.card_sequence st) (State.card_sequence_sz st).

(** The two 40-entry buffers of [State]. *)
Definition sequence_buffer (b : buffer) : Prop := b = BufMoves ∨ b = BufCards.

(** The arrays of a deck and the bonus vector. *)
Definition deck_buffer (b : buffer) : Prop :=
  b = BufTable ∨ b = BufBacklog ∨ b = BufBonus.

(** Every out-of-range access [m] can end in is on a buffer in [P]. *)
Definition faults_in {A : Type} (P : buffer → Prop) (m : result A) : Prop :=
  ∀ b, m = OutOfRange b → P b.

(** ** Example data *)

(** A candidate holding the tokens [l] (at most 40). *)
Definition state_of_moves (l : list Z) : State.t :=
  State.mk (l ++ replicate (40 - length l) 0) (Z.of_nat (length l))
    0 0 0 (replicate 40 Card.empty) 0.

(** A deck whose table shows [tbl] (at most 4 cards) above the backlog
    [backlog] (at most 30 cards, the last one is revealed first). *)
Definition deck_of (tbl backlog : list Card.t) : Deck.t :=
  Deck.mk (tbl ++ replicate (4 - length tbl) Card.empty) (Z.of_nat (length tbl))
    (backlog ++ replicate (30 - length backlog) Card.empty)
    (Z.of_nat (length backlog)).

(** Two cards of the sample board in the header of [splendor.cc],
    [0 2 0 2 0 green 0] and [3 2 0 3 0 red 1], and two cards that cost a
    single token. *)
Definition card_green : Card.t := Card.mk [0; 2; 0; 2; 0] 2 0.
Definition card_red1 : Card.t := Card.mk [3; 2; 0; 3; 0] 1 1.
Definition card_a : Card.t := Card.mk [1; 0; 0; 0; 0] 0 0.
Definition card_b : Card.t := Card.mk [0; 1; 0; 0; 0] 0 0.

(** Lines of an input as [fgets] delivers them, the line feed included:
    three that describe [card_red1], [card_a] and [card_green], an empty
    line, and a line with a word that names no colour. *)
Definition line_feed : string := String (ascii_of_nat 10) EmptyString.
Definition line_red1 : string := "3 2 0 3 0 red 1" +:+ line_feed.
Definition line_a : string := "1 0 0 0 0 black 0" +:+ line_feed.
Definition line_green : string := "0 2 0 2 0 green 0" +:+ line_feed.
Definition line_blank : string := line_feed.
Definition line_purple : string := "1 0 0 0 0 purple 0" +:+ line_feed.

Definition deck_green : Deck.t := deck_of [card_green] [].
Definition deck_red : Deck.t := deck_of [card_red1] [].

(** [card_a] on the table, 25 more of it in the backlog, and [card_b] as
    the last card to be revealed. *)
Definition deck_ab : Deck.t := deck_of [card_a] (card_b :: replicate 25 card_a).

Definition cand_27 : State.t := state_of_moves (replicate 27 0).
Definition cand_100 : State.t := state_of_moves [1; 0; 0].

Definition pool_6 : list Card.t :=
  [card_a; card_b; card_red1; card_a; card_b; card_green].

(** The generator of the search as [main] seeds it. *)
Definition annealing_twister : Twister.t := Twister.init 549120939.

(** A generator whose table is all zeros: every draw is 0. *)
Definition tw_zero : Twister.t := Twister.mk (replicate 624 0) 0.

(** A generator whose next tempered word is [0x7FFFFFFF]. *)
Definition tw_top : Twister.t := Twister.mk (2462955959 :: replicate 623 0) 0.

(** A generator whose next tempered words are 1, 0, 4, 0, 0, ...: the
    next mutation is an INSERT of the token 4 at position 0. *)
Definition tw_insert_4 : Twister.t :=
  Twister.mk (270681289 :: 0 :: 2165448768 :: replicate 621 0) 0.

(** A toy schedule: the temperature counts the remaining steps, and a
    refined state is accepted when it is not worse. *)
Definition toy_above_final (t : nat) : bool := negb (Nat.eqb t 0).
Definition toy_cool (t : nat) : nat := Nat.pred t.
Definition toy_accept (diff : Z) (_ : nat) (_ : spec_float) : bool := 0 <=? diff.

(** ** Decks, replays, mutations and the generator in the further properties *)

(** The cards [l] handed to [add_card] one after another. *)
Fixpoint add_cards (l : list Card.t) (d : Deck.t) : result Deck.t :=
  match l with
  | [] => Ok d
  | c :: l' => d' ← Deck.add_card d c; add_cards l' d'
  end.

(** The deck that shows the first four cards of [l] and keeps the others
    in its backlog, in the order of [l]. *)
Definition dealt (l : list Card.t) : Deck.t := deck_of (take 4 l) (drop 4 l).

(** [pop_card] on the slots [idxs], one after another. *)
Fixpoint pop_cards (idxs : list Z) (d : Deck.t) : result Deck.t :=
  match idxs with
  | [] => Ok d
  | idx :: rest => d' ← Deck.pop_card d idx; pop_cards rest d'
  end.

(** A card that occupies its slot. *)
Definition shown (c : Card.t) : bool := negb (Card.type c =? -1).

(** The number of occupied table slots. *)
Definition occupied (d : Deck.t) : Z :=
  Z.of_nat (length (List.filter shown (Deck.table d))).

(** The slots [idxs] visited the way [process_move] takes a card: a slot is
    popped when [can_peak_card] allows it and passed over otherwise.  The
    number of popped cards is returned with the deck. *)
Fixpoint take_cards (idxs : list Z) (d : Deck.t) : result (Z * Deck.t) :=
  match idxs with
  | [] => Ok (0, d)
  | idx :: rest =>
      ok ← Deck.can_peak_card d idx;
      if negb ok then take_cards rest d else
      d' ← Deck.pop_card d idx;
      '(k, d2) ← take_cards rest d';
      Ok (k + 1, d2)
  end.

(** A deck in play: the backlog holds cards only, and while it is not
    empty the table has no gap; [n] cards are left in it. *)
Definition refilled (n : Z) (d : Deck.t) : Prop :=
  deck_shape d ∧ Forall (λ c, shown c = true) (Deck.q_cards d) ∧
  occupied d + Deck.q_sz d = n ∧ (0 < Deck.q_sz d → occupied d = 4).

(** What a line of the input is to [read_from_string] on a fresh card. *)
Inductive line_kind : Type :=
| Malformed                  (* it returns false *)
| UnknownColour              (* it ends in the FATAL of [color_str_to_int] *)
| Describes (c : Card.t).    (* it returns true, with this card *)

Definition parse_line (line : string) : line_kind :=
  match Card.read_from_string Card.empty line with
  | None => UnknownColour
  | Some (false, _) => Malformed
  | Some (true, c) => Describes c
  end.

(** The cards that the lines of the input describe, in input order. *)
Fixpoint input_cards (stdin : list string) : list Card.t :=
  match stdin with
  | [] => []
  | line :: rest =>
      match parse_line line with
      | Describes c => c :: input_cards rest
      | _ => input_cards rest
      end
  end.

(** The input cards of the first, second and third tier, in input order. *)
Definition tier1 (cards : list Card.t) : list Card.t :=
  List.filter (λ c, Card.value c =? 0) cards.
Definition tier3 (cards : list Card.t) : list Card.t :=
  List.filter (λ c, Card.value c =? 10) cards.
Definition tier2 (cards : list Card.t) : list Card.t :=
  List.filter (λ c, negb (Card.value c =? 0) && negb (Card.value c =? 10)) cards.

(** What the next call of [read] finds in the input: the FATAL ([None]),
    the end of the input, or a card and the lines behind it. *)
Fixpoint next_card (stdin : list string) : option (option (Card.t * list string)) :=
  match stdin with
  | [] => Some None
  | line :: rest =>
      match parse_line line with
      | UnknownColour => None
      | Malformed => next_card rest
      | Describes c => Some (Some (c, rest))
      end
  end.

(** The input loop line by line. *)
Fixpoint dealing (full_deck_set : list Card.t) (stdin : list string) (d1 d2 d3 : Deck.t)
    : result (option (Deck.t * Deck.t * Deck.t)) :=
  match stdin with
  | [] => Ok (Some (d1, d2, d3))
  | line :: rest =>
      match parse_line line with
      | UnknownColour => Ok None
      | Malformed => dealing full_deck_set rest d1 d2 d3
      | Describes c =>
          if negb (card_in c full_deck_set) then Ok None
          else if Card.value c =? 0 then
            d1' ← Deck.add_card d1 c; dealing full_deck_set rest d1' d2 d3
          else if Card.value c =? 10 then
            d3' ← Deck.add_card d3 c; dealing full_deck_set rest d1 d2 d3'
          else
            d2' ← Deck.add_card d2 c; dealing full_deck_set rest d1 d2' d3
      end
  end.

(** The resolved cards and tokens of a state: the live parts of its two
    sequences. *)
Definition resolved_cards (st : State.t) : list Card.t :=
  take (Z.to_nat (State.card_sequence_sz st)) (State.card_sequence st).
Definition resolved_moves (st : State.t) : list Z :=
  take (Z.to_nat (State.move_sequence_sz st)) (State.move_sequence st).

Definition sum_values (l : list Card.t) : Z := foldr (λ c s, Card.value c + s) 0 l.

(** The number of cards of colour [j]. *)
Definition colour_count (j : Z) (l : list Card.t) : Z :=
  Z.of_nat (length (List.filter (λ c, Card.type c =? j) l)).

(** The books of a replay that started from a fresh state. *)
Record books (r : replay) : Prop := {
  bk_moves_len : length (State.move_sequence (r_st r)) = 40%nat;
  bk_cards_len : length (State.card_sequence (r_st r)) = 40%nat;
  bk_moves_sz : State.move_sequence_sz (r_st r) = State.rounds (r_st r);
  bk_cards_sz : State.card_sequence_sz (r_st r) = State.rounds (r_st r);
  bk_rounds : 0 ≤ State.rounds (r_st r);
  bk_tokens : 0 ≤ State.tokens_cost (r_st r) ≤ 12 * State.rounds (r_st r);
  bk_budget : State.rounds (r_st r) + (State.tokens_cost (r_st r) + 3) `div` 4 ≤ 28;
  bk_points : State.points (r_st r) = sum_values (resolved_cards (r_st r));
  bk_shown : Forall (λ c, Card.type c ≠ -1) (resolved_cards (r_st r));
  bk_bonus_len : length (r_bonus r) = 5%nat;
  bk_bonus :
    ∀ j, 0 ≤ j < 5 →
         nth (Z.to_nat j) (r_bonus r) 0 = colour_count j (resolved_cards (r_st r))
}.

(** The tokens [ms] replayed one after another. *)
Fixpoint play_list (ms : list Z) (r : replay) : result replay :=
  match ms with
  | [] => Ok r
  | m :: ms' => '(_, r') ← play_move r m; play_list ms' r'
  end.

(** The [n] tokens of a buffer from index [i] on. *)
Definition tokens_from (ms : list Z) (i n : nat) : list Z :=
  map (λ k, nth k ms 0) (seq i n).

(** The three edits of [mutate] on the live tokens of a sequence. *)
Inductive edit : list Z → list Z → Prop :=
| Change (l : list Z) (pos : nat) (next : Z) :
    (pos < length l)%nat → 0 ≤ next < 10 → next ≠ nth pos l 0 →
    edit l (<[pos := next]> l)
| Insert (l : list Z) (pos : nat) (tok : Z) :
    (pos ≤ length l)%nat → (length l ≤ 30)%nat → 0 ≤ tok < 10 →
    edit l (take pos l ++ tok :: drop pos l)
| Swap (l : list Z) (px py : nat) :
    (px < length l)%nat → (py < length l)%nat → (3 ≤ length l)%nat →
    nth px l 0 ≠ nth py l 0 →
    edit l (<[py := nth px l 0]> (<[px := nth py l 0]> l)).

(** A generator state as the code keeps it: 624 words of 32 bits and an
    index into them or one past them. *)
Definition twister_wf (tw : Twister.t) : Prop :=
  length (Twister.tab_ tw) = 624%nat ∧
  Forall (λ w, 0 ≤ w < 2 ^ 32) (Twister.tab_ tw) ∧
  0 ≤ Twister.ptr_ tw ≤ Twister.N.

(** The tempering of [extract_number] on the [unsigned int y], before the
    conversion of the return value to [int]. *)
Definition temper (y : Z) : Z :=
  let y := Z.lxor y (Z.shiftr y 11) in
  let y := Z.lxor y (Z.land (wrap32 (Z.shiftl y 7)) 0x9D2C5680) in
  let y := Z.lxor y (Z.land (wrap32 (Z.shiftl y 15)) 0xEFC60000) in
  let y := Z.lxor y (Z.shiftr y 18) in
  y.

(** The four steps undone, last step first. *)
Definition untemper (z : Z) : Z :=
  let z := Z.lxor z (Z.shiftr z 18) in
  let z := Z.lxor z (Z.land (wrap32 (Z.shiftl z 15)) 0xEFC60000) in
  let t := Z.lxor z (Z.land (wrap32 (Z.shiftl z 7)) 0x9D2C5680) in
  let t := Z.lxor z (Z.land (wrap32 (Z.shiftl t 7)) 0x9D2C5680) in
  let t := Z.lxor z (Z.land (wrap32 (Z.shiftl t 7)) 0x9D2C5680) in
  let t := Z.lxor z (Z.land (wrap32 (Z.shiftl t 7)) 0x9D2C5680) in
  Z.lxor (Z.lxor t (Z.shiftr t 11)) (Z.shiftr t 22).

(** Compatibility with exclusive or. *)
Definition xor_linear (f : Z → Z) : Prop := ∀ a b, f (Z.lxor a b) = Z.lxor (f a) (f b).

(** Every colour of [bonus'] is at least that of [bonus]. *)
Definition bonus_le (bonus bonus' : list Z) : Prop :=
  ∀ i, 0 ≤ i < 5 → nth (Z.to_nat i) bonus 0 ≤ nth (Z.to_nat i) bonus' 0.

(** A state that some candidate of the search replays to, or the fresh
    state. *)
Definition replay_result (d1 d2 d3 : Deck.t) (st : State.t) : Prop :=
  st = State.new ∨ ∃ cand, seq_ok cand ∧ play_out State.new d1 d2 d3 cand = Ok st.

(** * Properties *)

(** ** Bit-level facts *)

Lemma fits_lor k a b :
  0 ≤ k → 0 ≤ a < 2 ^ k → 0 ≤ b < 2 ^ k → 0 ≤ Z.lor a b < 2 ^ k.
Proof.
  intros Hk Ha Hb. split; [apply Z.lor_nonneg; lia|].
  destruct (Z.eq_dec a 0) as [->|Hna]; [rewrite Z.lor_0_l; lia|].
  destruct (Z.eq_dec b 0) as [->|Hnb]; [rewrite Z.lor_0_r; lia|].
  assert (0 < Z.lor a b).
  { assert (0 ≤ Z.lor a b) by (apply Z.lor_nonneg; lia).
    assert (Z.lor a b ≠ 0) by (rewrite Z.lor_eq_0_iff; lia). lia. }
  apply Z.log2_lt_pow2; [done|].
  rewrite Z.log2_lor by lia.
  assert (Z.log2 a < k) by (apply Z.log2_lt_pow2; lia).
  assert (Z.log2 b < k) by (apply Z.log2_lt_pow2; lia).
  lia.
Qed.

Lemma fits_shiftr k a j :
  0 ≤ j → 0 ≤ a < 2 ^ k → 0 ≤ Z.shiftr a j < 2 ^ k.
Proof.
  intros Hj Ha. rewrite Z.shiftr_div_pow2 by done.
  assert (0 < 2 ^ j) by (apply Z.pow_pos_nonneg; lia).
  split; [apply Z.div_pos; lia|].
  apply Z.le_lt_trans with a; [|lia].
  apply Z.div_le_upper_bound; [done|]. nia.
Qed.

Lemma fits_land k a b :
  0 ≤ a → 0 ≤ b < 2 ^ k → 0 ≤ Z.land a b < 2 ^ k.
Proof.
  intros Ha Hb. split; [apply Z.land_nonneg; lia|].
  destruct (Z.eq_dec (Z.land a b) 0) as [->|Hn]; [lia|].
  assert (0 ≤ Z.land a b) by (apply Z.land_nonneg; lia).
  destruct (Z.eq_dec b 0) as [->|Hnb]; [rewrite Z.land_0_r in Hn; done|].
  apply Z.log2_lt_pow2; [lia|].
  pose proof (Z.log2_land a b Ha (proj1 Hb)).
  assert (Z.log2 b < k) by (apply Z.log2_lt_pow2; lia).
  lia.
Qed.

Lemma wrap32_range x : 0 ≤ wrap32 x < 2 ^ 32.
Proof. unfold wrap32. apply Z.mod_pos_bound. lia. Qed.

Lemma wrap32_small x : 0 ≤ x < 2 ^ 32 → wrap32 x = x.
Proof. intros. unfold wrap32. apply Z.mod_small. done. Qed.

Lemma to_int32_small x : 0 ≤ x < 2 ^ 31 → to_int32 x = x.
Proof.
  intros H. unfold to_int32. rewrite wrap32_small by lia.
  destruct (Z.ltb_spec x (2 ^ 31)); lia.
Qed.

Lemma smear_fits k x : 0 ≤ x < 2 ^ k → 0 ≤ Twister.smear x < 2 ^ k.
Proof.
  intros Hx.
  assert (0 ≤ k).
  { destruct (Z.le_gt_cases 0 k); [done|]. rewrite Z.pow_neg_r in Hx; lia. }
  unfold Twister.smear.
  repeat (apply fits_lor; [done| |apply fits_shiftr; [lia|]]); done.
Qed.

Lemma lor_shiftr_ones k j : 0 ≤ k → 0 ≤ j → Z.lor (Z.ones k) (Z.shiftr (Z.ones k) j) = Z.ones k.
Proof.
  intros Hk Hj. apply Z.bits_inj'. intros n Hn.
  rewrite Z.lor_spec, Z.shiftr_spec by done.
  rewrite !Z.testbit_ones_nonneg by lia.
  destruct (Z.ltb_spec n k), (Z.ltb_spec (n + j) k); simpl; try done; lia.
Qed.

Lemma smear_ones k : 0 ≤ k → Twister.smear (Z.ones k) = Z.ones k.
Proof.
  intros Hk. unfold Twister.smear. rewrite !lor_shiftr_ones by lia. done.
Qed.

Lemma used_mask_fits max : 1 ≤ max < 2 ^ 31 → 0 ≤ Twister.used_mask max < 2 ^ 31.
Proof.
  intros H. unfold Twister.used_mask. apply smear_fits.
  rewrite wrap32_small; lia.
Qed.

Lemma used_mask_pow2 k : 0 ≤ k ≤ 30 → Twister.used_mask (2 ^ k) = 2 ^ k - 1.
Proof.
  intros H. unfold Twister.used_mask.
  assert (2 ^ k ≤ 2 ^ 30) by (apply Z.pow_le_mono_r; lia).
  assert (0 < 2 ^ k) by (apply Z.pow_pos_nonneg; lia).
  rewrite wrap32_small by lia.
  replace (2 ^ k - 1) with (Z.ones k) by (rewrite Z.ones_equiv; lia).
  apply smear_ones. lia.
Qed.

(** The value a draw of [next_int(int max)] is compared with. *)
Lemma masked_draw_range r used :
  0 ≤ used < 2 ^ 31 →
  0 ≤ to_int32 (Z.land (wrap32 r) used) < 2 ^ 31 ∧
  to_int32 (Z.land (wrap32 r) used) = Z.land (wrap32 r) used.
Proof.
  intros Hu.
  pose proof (wrap32_range r).
  pose proof (fits_land 31 (wrap32 r) used (proj1 H) Hu).
  rewrite to_int32_small by done. done.
Qed.

Lemma next_int_loop_S fuel used max tw :
  Twister.next_int_loop (S fuel) used max tw =
  let a := to_int32 (Z.land (wrap32 (Twister.next_int tw).1) used) in
  if max <=? a then Twister.next_int_loop fuel used max (Twister.next_int tw).2
  else Ok (a, (Twister.next_int tw).2).
Proof. reflexivity. Qed.

Lemma next_int_loop_range fuel used max tw a tw' :
  0 ≤ used < 2 ^ 31 →
  Twister.next_int_loop fuel used max tw = Ok (a, tw') → 0 ≤ a < max.
Proof.
  intros Hu. revert tw. induction fuel as [|fuel IH]; intros tw; [done|].
  rewrite next_int_loop_S.
  destruct (Twister.next_int tw) as [r tw1]. cbn [fst snd]. cbv zeta.
  destruct (masked_draw_range r used Hu) as [Hr _].
  destruct (Z.leb_spec max (to_int32 (Z.land (wrap32 r) used))).
  - apply IH.
  - intros [= <- <-]. lia.
Qed.

Lemma next_int_loop_no_fault fuel used max tw b :
  Twister.next_int_loop fuel used max tw ≠ OutOfRange b.
Proof.
  revert tw. induction fuel as [|fuel IH]; intros tw; [done|].
  rewrite next_int_loop_S.
  destruct (Twister.next_int tw) as [r tw1]. cbn [fst snd]. cbv zeta.
  destruct (_ <=? _); [apply IH|done].
Qed.

Lemma next_int_max_range fuel max tw a tw' :
  1 ≤ max < 2 ^ 31 →
  Twister.next_int_max fuel max tw = Ok (a, tw') → 0 ≤ a < max.
Proof.
  intros Hm. unfold Twister.next_int_max.
  apply next_int_loop_range, used_mask_fits, Hm.
Qed.

Lemma next_int_max_no_fault fuel max tw b :
  Twister.next_int_max fuel max tw ≠ OutOfRange b.
Proof. apply next_int_loop_no_fault. Qed.

Lemma next_int_max_pow2 fuel k tw :
  0 ≤ k ≤ 30 →
  Twister.next_int_max (S fuel) (2 ^ k) tw
  = Ok (wrap32 (Twister.next_int tw).1 `mod` 2 ^ k, (Twister.next_int tw).2).
Proof.
  intros Hk. unfold Twister.next_int_max. rewrite used_mask_pow2 by done.
  rewrite next_int_loop_S. cbv zeta.
  assert (2 ^ k ≤ 2 ^ 30) by (apply Z.pow_le_mono_r; lia).
  assert (0 < 2 ^ k) by (apply Z.pow_pos_nonneg; lia).
  destruct (masked_draw_range (Twister.next_int tw).1 (2 ^ k - 1)) as [_ ->]; [lia|].
  replace (2 ^ k - 1) with (Z.ones k) by (rewrite Z.ones_equiv; lia).
  rewrite Z.land_ones by lia.
  pose proof (Z.mod_pos_bound (wrap32 (Twister.next_int tw).1) (2 ^ k)).
  destruct (Z.leb_spec (2 ^ k) (wrap32 (Twister.next_int tw).1 `mod` 2 ^ k)); [lia|done].
Qed.

(** Each residue modulo [2^k] has exactly the [2^(32-k)] raw words
    [v + 2^k * j] as preimages. *)
Lemma low_bits_fibres k v w :
  0 ≤ k ≤ 32 → 0 ≤ v < 2 ^ k → 0 ≤ w < 2 ^ 32 →
  w `mod` 2 ^ k = v ↔ ∃ j, 0 ≤ j < 2 ^ (32 - k) ∧ w = v + 2 ^ k * j.
Proof.
  intros Hk Hv Hw.
  assert (0 < 2 ^ k) by (apply Z.pow_pos_nonneg; lia).
  assert (2 ^ 32 = 2 ^ k * 2 ^ (32 - k)) as E.
  { rewrite <- Z.pow_add_r by lia. f_equal. lia. }
  split.
  - intros <-. exists (w `div` 2 ^ k). split.
    + split; [apply Z.div_pos; lia|].
      apply Z.div_lt_upper_bound; lia.
    + pose proof (Z.div_mod w (2 ^ k)). lia.
  - intros (j & Hj & ->).
    replace (v + 2 ^ k * j) with (v + j * 2 ^ k) by lia.
    rewrite Z.mod_add by lia.
    apply Z.mod_small. done.
Qed.

(** C7.  For every bound [1 <= max < 2^31] and every generator state, a
    completed call [next_int(max)] returns a value in [0, max).  When [max]
    is a power of two, [2^k], the first draw is accepted: the result is the
    raw 32-bit output masked with [max - 1], its residue modulo [max], and
    every residue has exactly the [2^(32-k)] raw words [v + max * j] as
    preimages, so the result is uniform when the raw output is. *)
Theorem next_int_max_in_range_pow2_exact (fuel : nat) (max : Z) (tw : Twister.t) :
  1 ≤ max < 2 ^ 31 →
  (∀ a tw', Twister.next_int_max fuel max tw = Ok (a, tw') → 0 ≤ a < max) ∧
  (∀ k, 0 ≤ k → max = 2 ^ k →
     let raw := wrap32 (Twister.next_int tw).1 in
     Twister.next_int_max (S fuel) max tw
       = Ok (Z.land raw (max - 1), (Twister.next_int tw).2) ∧
     Z.land raw (max - 1) = raw `mod` max ∧
     ∀ v w, 0 ≤ v < max → 0 ≤ w < 2 ^ 32 →
       (w `mod` max = v ↔ ∃ j, 0 ≤ j < 2 ^ (32 - k) ∧ w = v + max * j)).
Proof.
  intros Hm. split.
  - intros a tw'. apply next_int_max_range, Hm.
  - intros k Hk -> raw.
    assert (k ≤ 30).
    { destruct (Z.le_gt_cases k 30); [done|].
      assert (2 ^ 31 ≤ 2 ^ k) by (apply Z.pow_le_mono_r; lia). lia. }
    assert (Z.land raw (2 ^ k - 1) = raw `mod` 2 ^ k) as E.
    { replace (2 ^ k - 1) with (Z.ones k) by (rewrite Z.ones_equiv; lia).
      apply Z.land_ones. lia. }
    split; [|split; [done|]].
    + rewrite E. apply next_int_max_pow2. lia.
    + intros v w Hv Hw. apply low_bits_fibres; lia.
Qed.

Lemma next_int_max_in_range_pow2_exact_witness :
  1 ≤ 8 < 2 ^ 31 ∧
  Twister.next_int_max 1 8 tw_zero = Ok (0, Twister.mk (replicate 624 0) 1) ∧
  0 ≤ 0 < 8.
Proof.
  assert (1 ≤ 8 < 2 ^ 31) as H by lia.
  assert (Twister.next_int_max 1 8 tw_zero = Ok (0, Twister.mk (replicate 624 0) 1)) as E
    by (vm_compute; reflexivity).
  split; [exact H|]. split; [exact E|].
  exact (proj1 (next_int_max_in_range_pow2_exact 1 8 tw_zero H) _ _ E).
Defined.

(** ** Cost of a card *)

Lemma deficit_nonneg c bonus i : 0 ≤ deficit c bonus i.
Proof. unfold deficit. lia. Qed.

Lemma deficit_sum_nonneg n i c bonus : 0 ≤ deficit_sum n i c bonus.
Proof.
  revert i. induction n as [|n IH]; intros i; simpl; [lia|].
  pose proof (deficit_nonneg c bonus i). pose proof (IH (i + 1)). lia.
Qed.

Lemma get_cost_loop_feasible n i c bonus res :
  (∀ j, i ≤ j < i + Z.of_nat n → deficit c bonus j ≤ 4) →
  res + deficit_sum n i c bonus ≤ 12 →
  Card.get_cost_loop n i c bonus res = res + deficit_sum n i c bonus.
Proof.
  revert i res. induction n as [|n IH]; intros i res Hall Hsum; cbn [Card.get_cost_loop deficit_sum] in *.
  - destruct (Z.ltb_spec 12 res); lia.
  - pose proof (Hall i ltac:(lia)) as Hi. unfold deficit in Hi, Hsum.
    pose proof (deficit_sum_nonneg n (i + 1) c bonus).
    destruct (Z.leb_spec (nth (Z.to_nat i) (Card.cost c) 0) (nth (Z.to_nat i) bonus 0)).
    + rewrite IH; [unfold deficit; lia| intros; apply Hall; lia | lia].
    + destruct (Z.ltb_spec (nth (Z.to_nat i) bonus 0 + 4) (nth (Z.to_nat i) (Card.cost c) 0)); [lia|].
      rewrite IH; [unfold deficit; lia| intros; apply Hall; lia | lia].
Qed.

Lemma get_cost_loop_over n i c bonus res :
  0 ≤ res →
  (∀ j, i ≤ j < i + Z.of_nat n → deficit c bonus j ≤ 4) →
  12 < res + deficit_sum n i c bonus →
  Card.get_cost_loop n i c bonus res = -1.
Proof.
  revert i res. induction n as [|n IH]; intros i res Hres Hall Hsum; cbn [Card.get_cost_loop deficit_sum] in *.
  - destruct (Z.ltb_spec 12 res); lia.
  - pose proof (Hall i ltac:(lia)) as Hi. unfold deficit in Hi, Hsum.
    destruct (Z.leb_spec (nth (Z.to_nat i) (Card.cost c) 0) (nth (Z.to_nat i) bonus 0)).
    + apply IH; [lia| intros; apply Hall; lia | lia].
    + destruct (Z.ltb_spec (nth (Z.to_nat i) bonus 0 + 4) (nth (Z.to_nat i) (Card.cost c) 0)); [lia|].
      apply IH; [lia| intros; apply Hall; lia | lia].
Qed.

Lemma get_cost_loop_deficit n i c bonus res j :
  i ≤ j < i + Z.of_nat n → 4 < deficit c bonus j →
  Card.get_cost_loop n i c bonus res = -1.
Proof.
  revert i res. induction n as [|n IH]; intros i res Hj Hd; cbn [Card.get_cost_loop deficit_sum] in *; [lia|].
  destruct (Z.eq_dec i j) as [->|Hne].
  - unfold deficit in Hd.
    destruct (Z.leb_spec (nth (Z.to_nat j) (Card.cost c) 0) (nth (Z.to_nat j) bonus 0)); [lia|].
    destruct (Z.ltb_spec (nth (Z.to_nat j) bonus 0 + 4) (nth (Z.to_nat j) (Card.cost c) 0)); [done|lia].
  - destruct (_ <=? _); [apply IH; [lia|done]|].
    destruct (_ <? _); [done|apply IH; [lia|done]].
Qed.

Lemma total_deficit_sum c bonus : total_deficit c bonus = deficit_sum 5 0 c bonus.
Proof.
  unfold total_deficit. cbn [deficit_sum].
  change (0 + 1) with 1. change (1 + 1) with 2.
  change (2 + 1) with 3. change (3 + 1) with 4. lia.
Qed.

Lemma some_deficit_over_dec c bonus :
  (∃ i, 0 ≤ i < 5 ∧ 4 < deficit c bonus i) ∨ (∀ i, 0 ≤ i < 5 → deficit c bonus i ≤ 4).
Proof.
  destruct (Z_lt_dec 4 (deficit c bonus 0)); [left; exists 0; lia|].
  destruct (Z_lt_dec 4 (deficit c bonus 1)); [left; exists 1; lia|].
  destruct (Z_lt_dec 4 (deficit c bonus 2)); [left; exists 2; lia|].
  destruct (Z_lt_dec 4 (deficit c bonus 3)); [left; exists 3; lia|].
  destruct (Z_lt_dec 4 (deficit c bonus 4)); [left; exists 4; lia|].
  right. intros i Hi.
  assert (i = 0 ∨ i = 1 ∨ i = 2 ∨ i = 3 ∨ i = 4) as [->|[->|[->|[->| ->]]]] by lia; lia.
Qed.

Lemma get_cost_cases c bonus :
  (Card.get_cost c bonus = -1 ∧
   ((∃ i, 0 ≤ i < 5 ∧ 4 < deficit c bonus i) ∨ 12 < total_deficit c bonus)) ∨
  (Card.get_cost c bonus = total_deficit c bonus ∧
   (∀ i, 0 ≤ i < 5 → deficit c bonus i ≤ 4) ∧ total_deficit c bonus ≤ 12).
Proof.
  unfold Card.get_cost. rewrite total_deficit_sum.
  destruct (some_deficit_over_dec c bonus) as [(i & Hi & Hd)|Hall].
  - left. split; [|left; eauto].
    apply get_cost_loop_deficit with i; [simpl; lia|done].
  - destruct (Z_lt_dec 12 (deficit_sum 5 0 c bonus)).
    + left. split; [|right; done].
      apply get_cost_loop_over; [lia| |lia]. intros j Hj. apply Hall. simpl in Hj. lia.
    + right. split; [|split; [done|lia]].
      rewrite get_cost_loop_feasible; [lia| |lia].
      intros j Hj. apply Hall. simpl in Hj. lia.
Qed.

Lemma get_cost_range c bonus :
  Card.get_cost c bonus = -1 ∨ 0 ≤ Card.get_cost c bonus ≤ 12.
Proof.
  destruct (get_cost_cases c bonus) as [[-> _]|(-> & _ & H)]; [left; done|right].
  rewrite total_deficit_sum in *. pose proof (deficit_sum_nonneg 5 0 c bonus). lia.
Qed.

(** C1.  For every card and every bonus vector, [get_cost] returns the
    infeasible marker [-1] exactly when some colour's deficit (the cost in
    that colour minus the bonus, when positive) exceeds 4 or the five
    deficits sum to more than 12; in every other case it returns exactly
    that sum. *)
Theorem get_cost_infeasible_iff (c : Card.t) (bonus : list Z) :
  (Card.get_cost c bonus = -1 ↔
     (∃ i, 0 ≤ i < 5 ∧ 4 < deficit c bonus i) ∨ 12 < total_deficit c bonus) ∧
  (Card.get_cost c bonus ≠ -1 → Card.get_cost c bonus = total_deficit c bonus).
Proof.
  pose proof (deficit_sum_nonneg 5 0 c bonus) as Hnn.
  rewrite <- total_deficit_sum in Hnn.
  destruct (get_cost_cases c bonus) as [[E H]|(E & Hall & Hle)].
  - split; [split; done|]. intros Hne. done.
  - split; [|done]. split.
    + intros E'. lia.
    + intros [(i & Hi & Hd)|Hgt]; [|lia]. specialize (Hall i Hi). lia.
Qed.

Lemma get_cost_infeasible_iff_witness :
  Card.get_cost card_green [0; 0; 0; 0; 0] = total_deficit card_green [0; 0; 0; 0; 0].
Proof.
  refine (proj2 (get_cost_infeasible_iff card_green [0; 0; 0; 0; 0]) _).
  vm_compute. discriminate.
Defined.

(** ** The outcome monad *)

Lemma bind_Ok {A B : Type} (f : A → result B) (m : result A) (b : B) :
  m ≫= f = Ok b ↔ ∃ a, m = Ok a ∧ f a = Ok b.
Proof.
  destruct m as [a| |]; cbn; split; try done.
  - intros H. by exists a.
  - by intros (a' & [= <-] & H).
  - by intros (a' & [=] & _).
  - by intros (a' & [=] & _).
Qed.

Lemma bind_eq_Ok {A B : Type} (f : A → result B) (m : result A) (a : A) :
  m = Ok a → m ≫= f = f a.
Proof. by intros ->. Qed.

(** Take apart a hypothesis [H : (x ← m; k) = Ok _]. *)
Ltac bind_inv H :=
  let a := fresh "a" in
  let E := fresh "E" in
  apply bind_Ok in H; destruct H as (a & E & H).

Lemma arr_get_Ok {A : Type} cap b (dflt : A) (a : list A) i x :
  arr_get cap b dflt a i = Ok x ↔ 0 ≤ i < cap ∧ x = nth (Z.to_nat i) a dflt.
Proof.
  unfold arr_get.
  destruct (Z.leb_spec 0 i), (Z.ltb_spec i cap); cbn; split;
    try (intros [= <-]); try (intros [? ->]); try done; try lia.
Qed.

Lemma arr_set_Ok {A : Type} cap b (a a' : list A) i (x : A) :
  arr_set cap b a i x = Ok a' ↔ 0 ≤ i < cap ∧ a' = <[Z.to_nat i := x]> a.
Proof.
  unfold arr_set.
  destruct (Z.leb_spec 0 i), (Z.ltb_spec i cap); cbn; split;
    try (intros [= <-]); try (intros [? ->]); try done; try lia.
Qed.

Lemma arr_get_in {A : Type} cap b (dflt : A) (a : list A) i :
  0 ≤ i < cap → arr_get cap b dflt a i = Ok (nth (Z.to_nat i) a dflt).
Proof. intros H. by apply arr_get_Ok. Qed.

Lemma arr_set_in {A : Type} cap b (a : list A) i (x : A) :
  0 ≤ i < cap → arr_set cap b a i x = Ok (<[Z.to_nat i := x]> a).
Proof. intros H. by apply arr_set_Ok. Qed.

(** ** [process_move] *)

Lemma process_move_inv d x st bonus ok d' st' bonus' :
  process_move d x st bonus = Ok (ok, d', st', bonus') →
  (ok = false ∧ d' = d ∧ st' = st ∧ bonus' = bonus) ∨
  (ok = true ∧ ∃ c, committed d x st bonus d' st' bonus' c).
Proof.
  unfold process_move. intros H.
  bind_inv H. destruct a; cbn [negb] in H; [|left; by inversion H].
  bind_inv H. rename a into c.
  destruct (Z.eqb_spec (Card.get_cost c bonus) (-1)); [left; by inversion H|].
  destruct (Z.ltb_spec 28 (State.rounds st + 1 +
              (State.tokens_cost st + 3 + Card.get_cost c bonus) `quot` 4));
    [left; by inversion H|].
  bind_inv H. apply arr_get_Ok in E1 as [Hty ->].
  bind_inv H. apply arr_set_Ok in E1 as [_ ->].
  bind_inv H. apply arr_set_Ok in E1 as [Hslot ->].
  bind_inv H. inversion H; subst. right. split; [done|]. exists c.
  split; try done.
  unfold Deck.can_peak_card in E.
  destruct (_ <? _); [done|]. rewrite E0 in E. cbn in E.
  destruct (Z.eqb_spec (Card.type c) (-1)); [done|done].
Qed.

(** The three ways a token is turned down. *)
Lemma process_move_empty d x st bonus :
  Deck.can_peak_card d x = Ok false →
  process_move d x st bonus = Ok (false, d, st, bonus).
Proof. unfold process_move. intros ->. by cbn [mbind result_mbind result_bind negb]. Qed.

Lemma process_move_infeasible d x st bonus c :
  Deck.can_peak_card d x = Ok true → Deck.table_get d x = Ok c →
  Card.get_cost c bonus = -1 →
  process_move d x st bonus = Ok (false, d, st, bonus).
Proof.
  unfold process_move. intros -> H1 H2.
  cbn [mbind result_mbind result_bind negb]. rewrite H1.
  cbn [mbind result_mbind result_bind negb]. by rewrite H2.
Qed.

Lemma process_move_over_budget d x st bonus c :
  Deck.can_peak_card d x = Ok true → Deck.table_get d x = Ok c →
  28 < State.rounds st + 1 + (State.tokens_cost st + 3 + Card.get_cost c bonus) `quot` 4 →
  process_move d x st bonus = Ok (false, d, st, bonus).
Proof.
  unfold process_move. intros -> H1 H.
  cbn [mbind result_mbind result_bind negb]. rewrite H1.
  cbn [mbind result_mbind result_bind negb].
  destruct (_ =? _); [done|].
  destruct (Z.ltb_spec 28 (State.rounds st + 1 +
              (State.tokens_cost st + 3 + Card.get_cost c bonus) `quot` 4)); [done|lia].
Qed.

Lemma address_inv r k slot ok r' :
  address r k slot = Ok (ok, r') →
  (ok = false ∧ r' = r) ∨
  (ok = true ∧ ∃ d' c,
     committed (nth_deck r k) slot (r_st r) (r_bonus r) d' (r_st r') (r_bonus r') c ∧
     r' = set_nth_deck r k d' (r_bonus r') (r_st r')).
Proof.
  unfold address. intros H. bind_inv H. destruct a as [[[ok0 d] st] bonus].
  inversion H; subst; clear H.
  apply process_move_inv in E as [(-> & -> & -> & ->)|(-> & c & Hc)].
  - left. split; [done|]. unfold set_nth_deck, nth_deck. destruct r.
    by destruct (k =? 0), (k =? 1).
  - right. split; [done|]. exists d, c.
    assert (r_st (set_nth_deck r k d bonus st) = st ∧
            r_bonus (set_nth_deck r k d bonus st) = bonus) as [-> ->].
    { unfold set_nth_deck. by destruct (k =? 0), (k =? 1). }
    done.
Qed.

Lemma try_move_address r x :
  try_move r x =
  address r (if x <? 4 then 0 else if x <? 8 then 1 else 2)
            (if x <? 4 then x else if x <? 8 then x - 4 else x - 8).
Proof.
  unfold try_move, address.
  destruct (Z.ltb_spec x 4) as [H4|H4].
  - change (nth_deck r 0) with (r_d1 r).
    destruct (process_move (r_d1 r) x (r_st r) (r_bonus r)) as [[[[ok d] st] bonus]| |] eqn:E;
      cbn; [|done|done].
    destruct ok; [done|].
    apply process_move_inv in E as [(_ & -> & -> & ->)|(? & _)]; [|done].
    destruct (Z.leb_spec 4 x); [lia|]. cbn.
    destruct (Z.leb_spec 8 x); [lia|]. done.
  - cbn. destruct (Z.leb_spec 4 x); [|lia]. cbn.
    destruct (Z.ltb_spec x 8) as [H8|H8].
    + change (nth_deck r 1) with (r_d2 r).
      destruct (process_move (r_d2 r) (x - 4) (r_st r) (r_bonus r)) as [[[[ok d] st] bonus]| |] eqn:E;
        cbn; [|done|done].
      destruct ok; [done|].
      apply process_move_inv in E as [(_ & -> & -> & ->)|(? & _)]; [|done].
      destruct (Z.leb_spec 8 x); [lia|]. done.
    + cbn. destruct (Z.leb_spec 8 x); [|lia].
      change (nth_deck r 2) with (r_d3 r). done.
Qed.

Lemma addressed_deck_cases x :
  addressed_deck x = 0 ∨ addressed_deck x = 1 ∨ addressed_deck x = 2.
Proof. unfold addressed_deck. destruct (x <? 4), (x <? 8); auto. Qed.

Lemma play_move_inv r move ok r' :
  play_move r move = Ok (ok, r') →
  (ok = false ∧ r' = r) ∨ (ok = true ∧ ∃ c, commit_step r move r' c).
Proof.
  unfold play_move. rewrite try_move_address.
  fold (addressed_deck (Z.rem move 16)) (addressed_slot (Z.rem move 16)).
  intros H. bind_inv H. destruct a as [ok0 r1].
  apply address_inv in E as [(-> & ->)|(-> & d' & c & Hc & Hr1)].
  - left. by inversion H.
  - right. apply bind_Ok in H as (st1 & E & H). unfold State.moves_set in E.
    apply bind_Ok in E as (ms & E0 & E).
    apply arr_set_Ok in E0 as [Hroom ->]. inversion E; subst st1; clear E.
    inversion H; subst; clear H. split; [done|]. exists c.
    destruct Hc as [cm_card0 cm_shown0 cm_feasible0 cm_budget0 cm_pop0 cm_slot0
                    cm_colour0 cm_bonus0 cm_state0].
    cbn [r_st r_bonus r_d1 r_d2 r_d3 State.move_sequence
      State.move_sequence_sz State.points State.tokens_cost State.rounds
      State.card_sequence State.card_sequence_sz].
    rewrite cm_state0 in *. cbn [State.move_sequence
      State.move_sequence_sz State.points State.tokens_cost State.rounds
      State.card_sequence State.card_sequence_sz] in *.
    assert (∀ k, nth_deck (Replay (r_d1 r1) (r_d2 r1) (r_d3 r1) (r_bonus r1)
                   (State.mk (<[Z.to_nat (State.move_sequence_sz (r_st r)) := Z.rem move 16]>
                                 (State.move_sequence (r_st r)))
                      (State.move_sequence_sz (r_st r) + 1)
                      (State.points (r_st r) + Card.value c)
                      (State.tokens_cost (r_st r) + Card.get_cost c (r_bonus r))
                      (State.rounds (r_st r) + 1)
                      (<[Z.to_nat (State.card_sequence_sz (r_st r)) := c]>
                         (State.card_sequence (r_st r)))
                      (State.card_sequence_sz (r_st r) + 1))) k = nth_deck r1 k) as Hnd.
    { intros k. unfold nth_deck. done. }
    split; try done.
    + rewrite Hnd, Hr1, cm_pop0. f_equal. unfold set_nth_deck, nth_deck.
      destruct (addressed_deck_cases (Z.rem move 16)) as [->|[->| ->]]; done.
    + intros j Hj Hne. rewrite Hnd, Hr1. unfold set_nth_deck, nth_deck.
      destruct (addressed_deck_cases (Z.rem move 16)) as [E|[E|E]]; rewrite E in *;
        assert (j = 0 ∨ j = 1 ∨ j = 2) as [->|[->| ->]] by lia; done.
Qed.

(** ** The history of a replay *)

Lemma last_state_cons r ok r' tr : last_state r ((ok, r') :: tr) = last_state r' tr.
Proof.
  unfold last_state. cbn [map snd].
  revert r r'. induction tr as [|[ok1 r1] tr IH]; intros r r'; [done|].
  cbn [map snd] in *. change (List.last (r' :: r1 :: map snd tr) r) with (List.last (r1 :: map snd tr) r).
  rewrite (IH r r1). symmetry. apply (IH r' r1).
Qed.

Lemma play_out_loop_trace n ptr cand r :
  play_out_loop n ptr cand r =
  (tr ← play_out_trace n ptr cand r; Ok (last_state r tr)).
Proof.
  revert ptr r. induction n as [|n IH]; intros ptr r; [done|].
  cbn [play_out_loop play_out_trace].
  destruct (State.moves_get cand ptr) as [move| |]; [|done|done].
  cbn [mbind result_mbind result_bind].
  destruct (play_move r move) as [[ok r']| |]; [|done|done].
  cbn [mbind result_mbind result_bind]. rewrite IH.
  destruct (play_out_trace n (ptr + 1) cand r') as [tr| |]; [|done|done].
  cbn [mbind result_mbind result_bind]. by rewrite last_state_cons.
Qed.

Lemma play_out_trace_length n ptr cand r tr :
  play_out_trace n ptr cand r = Ok tr → length tr = n.
Proof.
  revert ptr r tr. induction n as [|n IH]; intros ptr r tr; cbn [play_out_trace].
  - by intros [= <-].
  - intros H. bind_inv H. bind_inv H. destruct a0 as [ok r']. bind_inv H.
    inversion H; subst. cbn. f_equal. by eapply IH.
Qed.

(** The replay of the first [k] tokens is the first [k] steps of the
    replay of more tokens. *)
Lemma play_out_trace_S n ptr cand r tr :
  play_out_trace (S n) ptr cand r = Ok tr ↔
  ∃ move ok r' rest, State.moves_get cand ptr = Ok move ∧
    play_move r move = Ok (ok, r') ∧
    play_out_trace n (ptr + 1) cand r' = Ok rest ∧ tr = (ok, r') :: rest.
Proof.
  cbn [play_out_trace]. split.
  - intros H. apply bind_Ok in H as (move & E1 & H).
    apply bind_Ok in H as ([ok r'] & E2 & H).
    apply bind_Ok in H as (rest & E3 & H).
    inversion H; subst. by exists move, ok, r', rest.
  - intros (move & ok & r' & rest & -> & H1 & H2 & ->).
    cbn [mbind result_mbind result_bind]. rewrite H1.
    cbn [mbind result_mbind result_bind]. by rewrite H2.
Qed.

(** ** Rejected tokens *)

Lemma rem_16_rem_16 (m : Z) : Z.rem (Z.rem m 16) 16 = Z.rem m 16.
Proof.
  pose proof (Z.rem_bound_abs m 16 ltac:(lia)) as Hb.
  destruct (Z.le_gt_cases 0 (Z.rem m 16)) as [Hp|Hn].
  - apply Z.rem_small. lia.
  - rewrite <- (Z.opp_involutive (Z.rem m 16)) at 1.
    rewrite Z.rem_opp_l by lia. rewrite Z.rem_small by lia. lia.
Qed.

Lemma play_move_address r move :
  play_move r move =
  ('(ok, r') ← address r (addressed_deck (Z.rem move 16)) (addressed_slot (Z.rem move 16));
   if (ok : bool) then
     st ← State.moves_set (r_st r') (State.move_sequence_sz (r_st r')) (Z.rem move 16);
     Ok (true, Replay (r_d1 r') (r_d2 r') (r_d3 r') (r_bonus r')
                 (State.mk (State.move_sequence st) (State.move_sequence_sz st + 1)
                    (State.points st) (State.tokens_cost st) (State.rounds st)
                    (State.card_sequence st) (State.card_sequence_sz st + 1)))
   else Ok (false, r')).
Proof. unfold play_move. by rewrite try_move_address. Qed.

Lemma set_nth_deck_same r k :
  set_nth_deck r k (nth_deck r k) (r_bonus r) (r_st r) = r.
Proof. unfold set_nth_deck, nth_deck. destruct r. by destruct (k =? 0), (k =? 1). Qed.

Lemma play_move_rejects r move :
  process_move (nth_deck r (addressed_deck (Z.rem move 16)))
    (addressed_slot (Z.rem move 16)) (r_st r) (r_bonus r)
  = Ok (false, nth_deck r (addressed_deck (Z.rem move 16)), r_st r, r_bonus r) →
  play_move r move = Ok (false, r).
Proof.
  intros H. rewrite play_move_address. unfold address. rewrite H.
  cbn [mbind result_mbind result_bind]. by rewrite set_nth_deck_same.
Qed.

Lemma can_peak_card_beyond d idx :
  Deck.table_sz d < idx → Deck.can_peak_card d idx = Ok false.
Proof.
  intros H. unfold Deck.can_peak_card.
  destruct (Z.ltb_spec (Deck.table_sz d) idx); [done|lia].
Qed.

Lemma play_move_high_token r move :
  (13 ≤ Z.rem move 16 ∧ Deck.table_sz (r_d3 r) ≤ 4) ∨
  (Z.rem move 16 = 12 ∧ Deck.table_sz (r_d3 r) < 4) →
  play_move r move = Ok (false, r).
Proof.
  intros H. apply play_move_rejects.
  assert (addressed_deck (Z.rem move 16) = 2 ∧
          addressed_slot (Z.rem move 16) = Z.rem move 16 - 8) as [-> ->].
  { unfold addressed_deck, addressed_slot.
    destruct (Z.ltb_spec (Z.rem move 16) 4), (Z.ltb_spec (Z.rem move 16) 8); lia. }
  apply process_move_empty, can_peak_card_beyond.
  change (nth_deck r 2) with (r_d3 r). lia.
Qed.

Lemma play_out_loop_all_rejected n ptr cand r :
  0 ≤ ptr → ptr + Z.of_nat n ≤ 40 →
  (∀ i, ptr ≤ i < ptr + Z.of_nat n →
        play_move r (nth (Z.to_nat i) (State.move_sequence cand) 0) = Ok (false, r)) →
  play_out_loop n ptr cand r = Ok r.
Proof.
  revert ptr. induction n as [|n IH]; intros ptr H0 H40 Hall; [done|].
  cbn [play_out_loop]. unfold State.moves_get.
  rewrite arr_get_in by lia. cbn [mbind result_mbind result_bind].
  rewrite Hall by lia. cbn [mbind result_mbind result_bind].
  apply IH; [lia|lia|]. intros i Hi. apply Hall. lia.
Qed.

Lemma play_out_loop_reduce_tokens n ptr cand r :
  play_out_loop n ptr (reduce_tokens cand) r = play_out_loop n ptr cand r.
Proof.
  revert ptr r. induction n as [|n IH]; intros ptr r; [done|].
  cbn [play_out_loop]. unfold State.moves_get, arr_get.
  cbn [reduce_tokens State.move_sequence].
  destruct ((0 <=? ptr) && (ptr <? 40)); [|done].
  cbn [mbind result_mbind result_bind].
  replace (nth (Z.to_nat ptr) (map (λ m, Z.rem m 16) (State.move_sequence cand)) 0)
    with (Z.rem (nth (Z.to_nat ptr) (State.move_sequence cand) 0) 16)
    by (symmetry; apply (List.map_nth (λ m, Z.rem m 16) (State.move_sequence cand) 0)).
  assert (play_move r (Z.rem (nth (Z.to_nat ptr) (State.move_sequence cand) 0) 16)
          = play_move r (nth (Z.to_nat ptr) (State.move_sequence cand) 0)) as ->.
  { unfold play_move. by rewrite rem_16_rem_16. }
  destruct (play_move r _) as [[ok r1]| |]; cbn [mbind result_mbind result_bind];
    [apply IH|done|done].
Qed.

(** C2, amended.  Replay reduces a token [m] to [x = m % 16], the
    remainder of C: [play_move] on [m] is [process_move] on the slot that
    [x] addresses and, when the move is committed, the storing of [x]
    itself, so that [m] and [x] are replayed alike and a candidate replays
    as the candidate of its reduced tokens does.  [x < 4] addresses slot
    [x] of the first deck, [4 <= x < 8] slot [x - 4] of the second and
    [x >= 8] slot [x - 8] of the third, which for [0 <= x < 12] is deck
    [x / 4] and slot [x mod 4].  A token with [x] in 13..15 is rejected
    whenever the third deck has [table_sz <= 4], one with [x = 12] whenever
    it has [table_sz < 4]; a candidate of at most 40 such tokens replays to
    the unchanged state, so to an empty resolved sequence when started from
    a fresh state. *)
Theorem high_tokens_replay_to_nothing (this : State.t) (d1 d2 d3 : Deck.t) (cand : State.t) :
  Deck.table_sz d3 ≤ 4 →
  State.move_sequence_sz cand ≤ 40 →
  (∀ i, 0 ≤ i < State.move_sequence_sz cand →
     let x := Z.rem (nth (Z.to_nat i) (State.move_sequence cand) 0) 16 in
     13 ≤ x ∨ (x = 12 ∧ Deck.table_sz d3 < 4)) →
  play_out this d1 d2 d3 cand = Ok this ∧
  (∀ r x, try_move r x = address r (addressed_deck x) (addressed_slot x)) ∧
  (∀ x, 0 ≤ x < 12 → addressed_deck x = x `div` 4 ∧ addressed_slot x = x `mod` 4) ∧
  (∀ x, 12 ≤ x → addressed_deck x = 2 ∧ addressed_slot x = x - 8) ∧
  (∀ r m,
     play_move r m =
     ('(ok, r') ← address r (addressed_deck (Z.rem m 16)) (addressed_slot (Z.rem m 16));
      if (ok : bool) then
        st ← State.moves_set (r_st r') (State.move_sequence_sz (r_st r')) (Z.rem m 16);
        Ok (true, Replay (r_d1 r') (r_d2 r') (r_d3 r') (r_bonus r')
                    (State.mk (State.move_sequence st) (State.move_sequence_sz st + 1)
                       (State.points st) (State.tokens_cost st) (State.rounds st)
                       (State.card_sequence st) (State.card_sequence_sz st + 1)))
      else Ok (false, r'))) ∧
  (∀ r m, play_move r (Z.rem m 16) = play_move r m) ∧
  (∀ st e1 e2 e3 c, play_out st e1 e2 e3 (reduce_tokens c) = play_out st e1 e2 e3 c) ∧
  (∀ r m,
     (13 ≤ Z.rem m 16 ∧ Deck.table_sz (r_d3 r) ≤ 4) ∨
     (Z.rem m 16 = 12 ∧ Deck.table_sz (r_d3 r) < 4) →
     play_move r m = Ok (false, r)).
Proof.
  intros Hsz H40 Hall. split; [|split; [|split; [|split; [|split; [|split; [|split]]]]]].
  - unfold play_out.
    assert (play_out_loop (Z.to_nat (State.move_sequence_sz cand)) 0 cand
              (play_start d1 d2 d3 this) = Ok (play_start d1 d2 d3 this)) as ->; [|done].
    apply play_out_loop_all_rejected; [lia|lia|].
    intros i Hi. apply play_move_high_token.
    specialize (Hall i ltac:(lia)). cbn zeta in Hall.
    cbn [play_start r_d3]. lia.
  - apply try_move_address.
  - intros x Hx. unfold addressed_deck, addressed_slot.
    destruct (Z.ltb_spec x 4), (Z.ltb_spec x 8); try lia.
    + rewrite Z.div_small, Z.mod_small by lia. done.
    + Z.div_mod_to_equations. lia.
    + Z.div_mod_to_equations. lia.
  - intros x Hx. unfold addressed_deck, addressed_slot.
    destruct (Z.ltb_spec x 4), (Z.ltb_spec x 8); lia.
  - apply play_move_address.
  - intros r m. unfold play_move. by rewrite rem_16_rem_16.
  - intros st e1 e2 e3 c. unfold play_out.
    change (State.move_sequence_sz (reduce_tokens c)) with (State.move_sequence_sz c).
    by rewrite play_out_loop_reduce_tokens.
  - apply play_move_high_token.
Qed.

Lemma high_tokens_replay_to_nothing_witness :
  play_out State.new deck_green deck_green deck_green (state_of_moves [13; 29; 15]) = Ok State.new.
Proof.
  refine (proj1 (high_tokens_replay_to_nothing State.new deck_green deck_green deck_green
            (state_of_moves [13; 29; 15]) _ _ _)).
  - vm_compute. discriminate.
  - vm_compute. discriminate.
  - intros i Hi. change (State.move_sequence_sz (state_of_moves [13; 29; 15])) with 3 in Hi.
    assert (i = 0 ∨ i = 1 ∨ i = 2) as [->|[->| ->]] by lia; vm_compute; left; discriminate.
Defined.

(** C2 as stated fails: the token 16 is at least 12, is reduced to 0 and
    buys the card in slot 0 of the first deck. *)
Lemma token_16_is_committed :
  12 ≤ 16 ∧
  ∃ st, play_out State.new deck_green Deck.new Deck.new (state_of_moves [16]) = Ok st ∧
        State.card_sequence_sz st = 1 ∧ State.move_sequence_sz st = 1 ∧
        nth 0 (State.move_sequence st) 0 = 0 ∧
        nth 0 (State.card_sequence st) Card.empty = card_green ∧
        16 `div` 4 = 4.
Proof.
  split; [lia|]. eexists. split; [vm_compute; reflexivity|].
  repeat split.
Qed.

(** The token 12 selects slot 4 of the third deck; when that deck has
    filled its table, [can_peak_card] lets the index through and the table
    is read past its end. *)
Lemma token_12_reads_past_table :
  play_out State.new Deck.new Deck.new (deck_of [card_a; card_a; card_a; card_a] [])
    (state_of_moves [12]) = OutOfRange BufTable.
Proof. vm_compute. reflexivity. Qed.

(** ** Counters along a replay *)

Lemma commit_step_cost r move r' c :
  commit_step r move r' c → 0 ≤ Card.get_cost c (r_bonus r) ≤ 12.
Proof.
  intros H. destruct (get_cost_range c (r_bonus r)) as [E|E]; [|done].
  by destruct (cs_feasible _ _ _ _ H).
Qed.

(** Token cost and rounds never decrease, whatever the decks hold. *)
Lemma play_move_tokens_rounds r move ok r' :
  play_move r move = Ok (ok, r') →
  State.tokens_cost (r_st r) ≤ State.tokens_cost (r_st r') ∧
  State.rounds (r_st r') = State.rounds (r_st r) + (if ok then 1 else 0) ∧
  State.move_sequence_sz (r_st r') = State.move_sequence_sz (r_st r) + (if ok then 1 else 0) ∧
  State.card_sequence_sz (r_st r') = State.card_sequence_sz (r_st r) + (if ok then 1 else 0).
Proof.
  intros H. apply play_move_inv in H as [(-> & ->)|(-> & c & Hc)]; [lia|].
  pose proof (commit_step_cost _ _ _ _ Hc). destruct Hc. lia.
Qed.

Lemma play_out_loop_tokens_nonneg n ptr cand r r' :
  play_out_loop n ptr cand r = Ok r' →
  State.tokens_cost (r_st r) ≤ State.tokens_cost (r_st r').
Proof.
  revert ptr r. induction n as [|n IH]; intros ptr r; cbn [play_out_loop].
  - intros [= ->]. lia.
  - intros H. apply bind_Ok in H as (move & _ & H).
    apply bind_Ok in H as ([ok r1] & E & H).
    apply play_move_tokens_rounds in E. apply IH in H. lia.
Qed.

(** C3, amended.  Replay never commits a move for which
    [rounds + 1 + (tokens_cost + 3 + cost) / 4 > 28] with the integer
    division of the code, that is
    [rounds + 1 + ceil ((tokens_cost + cost) / 4) > 28], where [rounds] and
    [tokens_cost] are the values accumulated before the move and [cost] is
    the cost [get_cost] computed for the addressed card; that cost lies in
    0..12. *)
Theorem committed_move_within_budget (this : State.t) (d1 d2 d3 : Deck.t)
    (cand : State.t) (k : nat) (r : replay) (move : Z) (r' : replay) :
  0 ≤ State.tokens_cost this →
  play_out_loop k 0 cand (play_start d1 d2 d3 this) = Ok r →
  play_move r move = Ok (true, r') →
  let rounds := State.rounds (r_st r) in
  let tokens_cost := State.tokens_cost (r_st r) in
  let cost := State.tokens_cost (r_st r') - tokens_cost in
  (∃ c, Deck.table_get (nth_deck r (addressed_deck (Z.rem move 16)))
          (addressed_slot (Z.rem move 16)) = Ok c ∧
        cost = Card.get_cost c (r_bonus r)) ∧
  0 ≤ cost ≤ 12 ∧
  rounds + 1 + (tokens_cost + 3 + cost) `div` 4 ≤ 28 ∧
  rounds + 1 + ceil_quarter (tokens_cost + cost) ≤ 28.
Proof.
  intros Hthis Hloop Hmove.
  apply play_out_loop_tokens_nonneg in Hloop. cbn [play_start r_st] in Hloop.
  apply play_move_inv in Hmove as [(? & _)|(_ & c & Hc)]; [done|].
  pose proof (commit_step_cost _ _ _ _ Hc) as Hcost.
  cbn zeta. rewrite (cs_tokens _ _ _ _ Hc).
  replace (State.tokens_cost (r_st r) + Card.get_cost c (r_bonus r)
           - State.tokens_cost (r_st r)) with (Card.get_cost c (r_bonus r)) by lia.
  pose proof (cs_budget _ _ _ _ Hc) as Hb.
  rewrite Z.quot_div_nonneg in Hb by lia.
  split; [exists c; split; [apply (cs_card _ _ _ _ Hc)|done]|].
  split; [done|]. split; [done|].
  unfold ceil_quarter. Z.div_mod_to_equations. lia.
Qed.

Lemma committed_move_within_budget_witness :
  ∃ r r',
    play_out_loop 26 0 cand_27 (play_start deck_ab Deck.new Deck.new State.new) = Ok r ∧
    play_move r 0 = Ok (true, r') ∧
    State.rounds (r_st r) + 1 +
      (State.tokens_cost (r_st r) + 3 +
       (State.tokens_cost (r_st r') - State.tokens_cost (r_st r))) `div` 4 ≤ 28.
Proof.
  eexists. eexists.
  assert (0 ≤ State.tokens_cost State.new) as H0 by (vm_compute; discriminate).
  split; [vm_compute; reflexivity|].
  split; [vm_compute; reflexivity|].
  refine (proj1 (proj2 (proj2
    (committed_move_within_budget State.new deck_ab Deck.new Deck.new cand_27 26 _ 0 _ H0 _ _)))).
  - vm_compute. reflexivity.
  - vm_compute. reflexivity.
Defined.

(** C3 as stated fails: after 26 committed tokens with one token spent,
    the 27th buys a card of cost 1 although
    [26 + 1 + ceil((1 + 3 + 1) / 4) = 29]. *)
Lemma commit_with_ceiling_29 :
  ∃ r r',
    play_out_loop 26 0 cand_27 (play_start deck_ab Deck.new Deck.new State.new) = Ok r ∧
    play_move r 0 = Ok (true, r') ∧
    State.rounds (r_st r) = 26 ∧ State.tokens_cost (r_st r) = 1 ∧
    State.tokens_cost (r_st r') - State.tokens_cost (r_st r) = 1 ∧
    Deck.table_get (r_d1 r) 0 = Ok card_b ∧ Card.get_cost card_b (r_bonus r) = 1 ∧
    28 < 26 + 1 + ceil_quarter (1 + 3 + 1).
Proof.
  eexists. eexists.
  split; [vm_compute; reflexivity|].
  split; [vm_compute; reflexivity|].
  repeat split.
Qed.

(** ** Decks of catalogue cards *)

Lemma slot_ok_empty : slot_ok Card.empty.
Proof. by left. Qed.

Lemma slot_ok_nth l i : Forall slot_ok l → slot_ok (nth i l Card.empty).
Proof.
  intros H. rewrite nth_lookup. destruct (l !! i) as [c|] eqn:E; cbn.
  - by eapply Forall_lookup_1.
  - apply slot_ok_empty.
Qed.

Lemma slot_ok_nth_take l i k :
  (i < k)%nat → Forall slot_ok (take k l) → slot_ok (nth i l Card.empty).
Proof.
  intros Hi H. rewrite nth_lookup. destruct (l !! i) as [c|] eqn:E; cbn.
  - eapply Forall_lookup_1; [done|]. by rewrite lookup_take_lt.
  - apply slot_ok_empty.
Qed.

Lemma pop_card_from_catalogue d x d' :
  deck_from_catalogue d → Deck.pop_card d x = Ok d' → deck_from_catalogue d'.
Proof.
  intros [Ht Hq]. unfold deck_from_catalogue, Deck.q_cards in *.
  unfold Deck.pop_card. intros H.
  apply bind_Ok in H as (c & Ec & H).
  apply bind_Ok in H as (tbl & Etbl & H). apply arr_set_Ok in Etbl as [_ ->].
  assert (Forall slot_ok (<[Z.to_nat x := Card.with_type c (-1)]> (Deck.table d))) as Ht1.
  { apply Forall_insert; [done|]. by left. }
  destruct (Z.ltb_spec 0 (Deck.q_sz d)).
  - apply bind_Ok in H as (c' & Ec' & H). apply arr_get_Ok in Ec' as [_ ->].
    apply bind_Ok in H as (tbl' & Etbl' & H). apply arr_set_Ok in Etbl' as [_ ->].
    inversion H; subst; clear H. split; cbn [Deck.table Deck.q_cards Deck.q Deck.q_sz].
    + apply Forall_insert; [done|].
      apply slot_ok_nth_take with (Z.to_nat (Deck.q_sz d)); [lia|done].
    + replace (Z.to_nat (Deck.q_sz d - 1))
        with (Z.to_nat (Deck.q_sz d - 1) `min` Z.to_nat (Deck.q_sz d))%nat by lia.
      rewrite <- take_take. by apply Forall_take.
  - inversion H; subst; clear H. by split.
Qed.

Lemma table_get_from_catalogue d x c :
  deck_from_catalogue d → Deck.table_get d x = Ok c → slot_ok c.
Proof.
  intros [Ht _] H. apply arr_get_Ok in H as [_ ->]. by apply slot_ok_nth.
Qed.

Lemma nth_deck_from_catalogue r k :
  decks_from_catalogue r → deck_from_catalogue (nth_deck r k).
Proof. intros (H1 & H2 & H3). unfold nth_deck. by destruct (k =? 0), (k =? 1). Qed.

Lemma decks_from_catalogue_nth r :
  decks_from_catalogue r ↔ ∀ k, 0 ≤ k ≤ 2 → deck_from_catalogue (nth_deck r k).
Proof.
  split; [intros H k _; by apply nth_deck_from_catalogue|].
  intros H. split; [apply (H 0); lia|]. split; [apply (H 1); lia|apply (H 2); lia].
Qed.

Lemma commit_step_from_catalogue r move r' c :
  decks_from_catalogue r → commit_step r move r' c →
  decks_from_catalogue r' ∧ catalogue_card c.
Proof.
  intros Hr Hc. split.
  - apply decks_from_catalogue_nth. intros k Hk.
    destruct (Z.eq_dec k (addressed_deck (Z.rem move 16))) as [->|Hne].
    + eapply pop_card_from_catalogue; [|apply (cs_pop _ _ _ _ Hc)].
      by apply nth_deck_from_catalogue.
    + rewrite (cs_others _ _ _ _ Hc) by done. by apply nth_deck_from_catalogue.
  - destruct (table_get_from_catalogue _ _ _
               (nth_deck_from_catalogue r _ Hr) (cs_card _ _ _ _ Hc)) as [E|E]; [|done].
    by destruct (cs_shown _ _ _ _ Hc).
Qed.

Lemma play_move_counters r move ok r' :
  decks_from_catalogue r → play_move r move = Ok (ok, r') →
  decks_from_catalogue r' ∧ counters_le r r'.
Proof.
  intros Hr H. apply play_move_inv in H as [(-> & ->)|(-> & c & Hc)].
  - split; [done|]. unfold counters_le. lia.
  - destruct (commit_step_from_catalogue _ _ _ _ Hr Hc) as [Hr' (_ & _ & _ & Hv)].
    split; [done|]. pose proof (commit_step_cost _ _ _ _ Hc).
    unfold counters_le. destruct Hc. lia.
Qed.

Lemma committed_count_cons ok r tr :
  committed_count ((ok, r) :: tr) = (if ok then 1 else 0) + committed_count tr.
Proof. unfold committed_count. destruct ok; cbn [List.filter fst length]; lia. Qed.

Lemma play_out_trace_counters n ptr cand r tr :
  decks_from_catalogue r → play_out_trace n ptr cand r = Ok tr →
  nondecreasing_from r tr ∧
  State.rounds (r_st (last_state r tr)) = State.rounds (r_st r) + committed_count tr ∧
  State.move_sequence_sz (r_st (last_state r tr))
    = State.move_sequence_sz (r_st r) + committed_count tr ∧
  State.card_sequence_sz (r_st (last_state r tr))
    = State.card_sequence_sz (r_st r) + committed_count tr.
Proof.
  revert ptr r tr. induction n as [|n IH]; intros ptr r tr Hr H.
  - inversion H; subst. cbn. unfold committed_count. cbn. lia.
  - apply play_out_trace_S in H as (move & ok & r' & rest & _ & Hm & Hrest & ->).
    destruct (play_move_counters _ _ _ _ Hr Hm) as [Hr' Hle].
    apply play_move_tokens_rounds in Hm.
    destruct (IH _ _ _ Hr' Hrest) as (Hnd & H1 & H2 & H3).
    rewrite last_state_cons, committed_count_cons.
    split; [by split|]. lia.
Qed.

(** C4.  During the replay of any candidate against decks of catalogue
    cards, points, token cost and rounds do not decrease from one token to
    the next; the final rounds, the final length of the move sequence and
    the final length of the card sequence each exceed their initial value
    by the number of committed tokens, so from a fresh state all three equal
    that number. *)
Theorem replay_counters_monotone (this : State.t) (d1 d2 d3 : Deck.t)
    (cand : State.t) (tr : list (bool * replay)) :
  deck_from_catalogue d1 → deck_from_catalogue d2 → deck_from_catalogue d3 →
  play_out_trace (Z.to_nat (State.move_sequence_sz cand)) 0 cand
    (play_start d1 d2 d3 this) = Ok tr →
  nondecreasing_from (play_start d1 d2 d3 this) tr ∧
  ∃ final, play_out this d1 d2 d3 cand = Ok final ∧
    State.rounds final = State.rounds this + committed_count tr ∧
    State.move_sequence_sz final = State.move_sequence_sz this + committed_count tr ∧
    State.card_sequence_sz final = State.card_sequence_sz this + committed_count tr ∧
    (this = State.new →
       State.rounds final = committed_count tr ∧
       State.move_sequence_sz final = committed_count tr ∧
       State.card_sequence_sz final = committed_count tr).
Proof.
  intros H1 H2 H3 Htr.
  assert (decks_from_catalogue (play_start d1 d2 d3 this)) as Hr by done.
  destruct (play_out_trace_counters _ _ _ _ _ Hr Htr) as (Hnd & Ha & Hb & Hc).
  split; [done|].
  exists (r_st (last_state (play_start d1 d2 d3 this) tr)).
  unfold play_out. rewrite play_out_loop_trace, Htr.
  cbn [mbind result_mbind result_bind play_start r_st] in *.
  split; [done|]. split; [done|]. split; [done|]. split; [done|].
  intros ->. cbn [State.new State.rounds State.move_sequence_sz State.card_sequence_sz] in *.
  lia.
Qed.

Ltac solve_card_range := repeat (constructor; [lia|]); constructor.
Ltac solve_slot_ok :=
  first [ left; reflexivity
        | right; split; [reflexivity|split; [solve_card_range|cbn; lia]] ].
Ltac solve_slots := repeat (constructor; [solve_slot_ok|]); constructor.

Lemma deck_green_from_catalogue : deck_from_catalogue deck_green.
Proof. split; cbn; solve_slots. Qed.

Lemma deck_new_from_catalogue : deck_from_catalogue Deck.new.
Proof. split; cbn; solve_slots. Qed.

Lemma replay_counters_monotone_witness :
  ∃ tr,
    play_out_trace (Z.to_nat (State.move_sequence_sz cand_100)) 0 cand_100
      (play_start deck_green Deck.new Deck.new State.new) = Ok tr ∧
    committed_count tr = 1 ∧
    nondecreasing_from (play_start deck_green Deck.new Deck.new State.new) tr.
Proof.
  eexists. split; [vm_compute; reflexivity|]. split; [reflexivity|].
  refine (proj1 (replay_counters_monotone State.new deck_green Deck.new Deck.new cand_100 _
                   deck_green_from_catalogue deck_new_from_catalogue
                   deck_new_from_catalogue _)).
  vm_compute. reflexivity.
Defined.

(** ** Rejections *)

Lemma process_move_rejected_why d x st bonus d' st' bonus' :
  process_move d x st bonus = Ok (false, d', st', bonus') →
  Deck.can_peak_card d x = Ok false ∨
  ∃ c, Deck.can_peak_card d x = Ok true ∧ Deck.table_get d x = Ok c ∧
       (Card.get_cost c bonus = -1 ∨
        28 < State.rounds st + 1 + (State.tokens_cost st + 3 + Card.get_cost c bonus) `quot` 4).
Proof.
  unfold process_move. intros H.
  apply bind_Ok in H as (ok & Eok & H). destruct ok; [|by left]. cbn [negb] in H.
  apply bind_Ok in H as (c & Ec & H). right. exists c. split; [done|]. split; [done|].
  destruct (Z.eqb_spec (Card.get_cost c bonus) (-1)); [by left|].
  destruct (Z.ltb_spec 28 (State.rounds st + 1 +
              (State.tokens_cost st + 3 + Card.get_cost c bonus) `quot` 4)); [by right|].
  apply bind_Ok in H as (? & _ & H). apply bind_Ok in H as (? & _ & H).
  apply bind_Ok in H as (? & _ & H). apply bind_Ok in H as (? & _ & H). done.
Qed.

Lemma play_move_rejected_why r move r' :
  play_move r move = Ok (false, r') → rejection_cause r move.
Proof.
  rewrite play_move_address. unfold address. intros H.
  apply bind_Ok in H as ([ok r1] & E & H).
  apply bind_Ok in E as ([[[ok1 d] st] bonus] & E & E1).
  inversion E1; subst; clear E1.
  destruct ok.
  { apply bind_Ok in H as (? & _ & H). done. }
  apply process_move_rejected_why in E as [E|(c & E1 & E2 & [E3|E3])].
  - by apply EmptySlot.
  - by eapply InfeasibleCost.
  - by eapply BudgetOverflow.
Qed.

Lemma rejection_cause_rejects r move :
  rejection_cause r move → play_move r move = Ok (false, r).
Proof.
  intros [H|c H1 H2 H3|c H1 H2 H3]; apply play_move_rejects.
  - by apply process_move_empty.
  - by eapply process_move_infeasible.
  - by eapply process_move_over_budget.
Qed.

(** C5.  A token is rejected because the addressed slot is empty, because
    the cost is infeasible, or because the round budget would be exceeded,
    and for no other reason.  A rejected token leaves points, token cost,
    rounds, the bonus vector, the three decks and both sequences exactly as
    they were, and the replay goes on with the next token. *)
Theorem rejected_token_changes_nothing (r : replay) (move : Z) :
  rejection_cause r move →
  play_move r move = Ok (false, r) ∧
  (∀ r', play_move r move = Ok (false, r') → r' = r) ∧
  (∀ ok r', play_move r move = Ok (ok, r') → ok = false) ∧
  (∀ n ptr cand, State.moves_get cand ptr = Ok move →
     play_out_loop (S n) ptr cand r = play_out_loop n (ptr + 1) cand r) ∧
  (∀ move' r', play_move r move' = Ok (false, r') → rejection_cause r move' ∧ r' = r).
Proof.
  intros Hc. pose proof (rejection_cause_rejects _ _ Hc) as E.
  split; [done|]. split; [|split; [|split]].
  - intros r'. rewrite E. by intros [= <-].
  - intros ok r'. rewrite E. by intros [= <- _].
  - intros n ptr cand Hm. cbn [play_out_loop]. rewrite Hm.
    cbn [mbind result_mbind result_bind]. by rewrite E.
  - intros move' r' H. split; [by eapply play_move_rejected_why|].
    apply play_move_inv in H as [(_ & ->)|(? & _)]; done.
Qed.

Lemma rejected_token_changes_nothing_witness :
  play_move (play_start deck_green Deck.new Deck.new State.new) 1
  = Ok (false, play_start deck_green Deck.new Deck.new State.new).
Proof.
  refine (proj1 (rejected_token_changes_nothing
                   (play_start deck_green Deck.new Deck.new State.new) 1 _)).
  apply EmptySlot. vm_compute. reflexivity.
Defined.

(** ** [next_float] *)

Lemma land_low31 r : Z.land r 0x7FFFFFFF = wrap32 r `mod` 2 ^ 31.
Proof.
  change 0x7FFFFFFF with (Z.ones 31). rewrite Z.land_ones by lia.
  unfold wrap32. change (2 ^ 32) with 4294967296. change (2 ^ 31) with 2147483648.
  Z.div_mod_to_equations. lia.
Qed.

Lemma next_float_bits_next_int tw :
  Twister.next_float_bits tw
  = (Z.land (Twister.next_int tw).1 0x7FFFFFFF, (Twister.next_int tw).2).
Proof. reflexivity. Qed.

(** C8, amended.  [next_float] takes the low 31 bits of the next 32-bit
    tempered output, [a = next_uint32() & 0x7FFFFFFF], and returns
    [a * 2^-31] narrowed to [float]; [a] lies in [0, 2^31), so the exact
    product lies in [0, 1). *)
Theorem next_float_low_31_bits (tw : Twister.t) :
  let a := (Twister.next_float_bits tw).1 in
  Twister.next_float tw = (binary_normalize 24 128 a (-31) false, (Twister.next_int tw).2) ∧
  a = Z.land (next_uint32 tw) 0x7FFFFFFF ∧
  a = next_uint32 tw `mod` 2 ^ 31 ∧
  0 ≤ a < 2 ^ 31 ∧
  (0 <= a # 2147483648)%Q ∧ (a # 2147483648 < 1)%Q.
Proof.
  cbn zeta. rewrite next_float_bits_next_int. cbn [fst snd].
  assert (Z.land (Twister.next_int tw).1 0x7FFFFFFF = next_uint32 tw `mod` 2 ^ 31) as E.
  { apply land_low31. }
  assert (0 ≤ next_uint32 tw `mod` 2 ^ 31 < 2 ^ 31) as Hr by (apply Z.mod_pos_bound; lia).
  split; [reflexivity|]. split.
  { rewrite E. unfold next_uint32. rewrite land_low31.
    rewrite (wrap32_small (wrap32 _)) by apply wrap32_range. done. }
  split; [done|]. rewrite E. split; [done|].
  unfold Qle, Qlt. cbn [Qnum Qden]. lia.
Qed.

(** C8 as stated fails: the first tempered word of the search generator is
    2156968938; [next_float] scales its low 31 bits, 9485290, not its top
    31 bits, 1078484469. *)
Lemma next_float_not_top_31_bits :
  next_uint32 annealing_twister = 2156968938 ∧
  (Twister.next_float_bits annealing_twister).1 = 9485290 ∧
  Z.shiftr (next_uint32 annealing_twister) 1 = 1078484469 ∧
  (Twister.next_float annealing_twister).1 = binary_normalize 24 128 9485290 (-31) false ∧
  binary_normalize 24 128 9485290 (-31) false
    ≠ binary_normalize 24 128 1078484469 (-31) false.
Proof.
  assert (Twister.next_int annealing_twister = Twister.next_int annealing_twister) as _ by done.
  assert ((Twister.next_int annealing_twister).1 = -2137998358) as E by (vm_compute; reflexivity).
  unfold next_uint32. unfold Twister.next_float. rewrite next_float_bits_next_int.
  cbn [fst snd]. rewrite E.
  split; [reflexivity|]. split; [reflexivity|]. split; [reflexivity|].
  split; [reflexivity|]. vm_compute. discriminate.
Qed.

(** The narrowing to [float] can reach 1: the word 2462955959 is tempered
    to [0x7FFFFFFF], and [(2^31 - 1) * 2^-31] rounds to [1.0f]. *)
Lemma next_float_rounds_to_one :
  (Twister.next_float_bits tw_top).1 = 2 ^ 31 - 1 ∧
  (Twister.next_float tw_top).1 = SFone 24 128 ∧
  SFltb (Twister.next_float tw_top).1 (SFone 24 128) = false.
Proof. vm_compute. done. Qed.

(** ** Where a run can leave its arrays *)

Lemma bind_OutOfRange {A B : Type} (f : A → result B) (m : result A) b :
  m ≫= f = OutOfRange b ↔ m = OutOfRange b ∨ ∃ a, m = Ok a ∧ f a = OutOfRange b.
Proof.
  destruct m as [a|b0|]; cbn; split.
  - intros H. right. by exists a.
  - intros [H|(a' & E & H)]; [done|]. by inversion E; subst.
  - intros H. left. by inversion H.
  - intros [H|(a' & E & H)]; [by inversion H|done].
  - done.
  - intros [H|(a' & E & H)]; done.
Qed.

Lemma faults_in_Ok {A : Type} P (a : A) : faults_in P (Ok a).
Proof. by intros b. Qed.

Lemma faults_in_OutOfFuel {A : Type} P : faults_in P (@OutOfFuel A).
Proof. by intros b. Qed.

Lemma faults_in_bind {A B : Type} P (m : result A) (f : A → result B) :
  faults_in P m → (∀ a, m = Ok a → faults_in P (f a)) → faults_in P (m ≫= f).
Proof.
  intros Hm Hf b H. apply bind_OutOfRange in H as [H|(a & E & H)].
  - by apply Hm.
  - by apply (Hf a E).
Qed.

Lemma faults_in_mono {A : Type} (P Q : buffer → Prop) (m : result A) :
  (∀ b, P b → Q b) → faults_in P m → faults_in Q m.
Proof. intros HPQ H b E. by apply HPQ, H. Qed.

Lemma faults_in_arr_get {A : Type} P cap b (dflt : A) a i :
  (¬ 0 ≤ i < cap → P b) → faults_in P (arr_get cap b dflt a i).
Proof.
  intros H b'. unfold arr_get.
  destruct (Z.leb_spec 0 i), (Z.ltb_spec i cap); cbn; try done;
    intros [= <-]; apply H; lia.
Qed.

Lemma faults_in_arr_set {A : Type} P cap b (a : list A) i x :
  (¬ 0 ≤ i < cap → P b) → faults_in P (arr_set cap b a i x).
Proof.
  intros H b'. unfold arr_set.
  destruct (Z.leb_spec 0 i), (Z.ltb_spec i cap); cbn; try done;
    intros [= <-]; apply H; lia.
Qed.

Lemma faults_in_next_int_max P fuel max tw :
  faults_in P (Twister.next_int_max fuel max tw).
Proof. intros b H. by apply next_int_max_no_fault in H. Qed.

(** ** Drawing from the pool *)

Lemma nth_lookup_Some {A : Type} (l : list A) (i : nat) (d : A) :
  (i < length l)%nat → l !! i = Some (nth i l d).
Proof.
  intros H. rewrite nth_lookup. destruct (lookup_lt_is_Some_2 l i H) as [x ->]. done.
Qed.

Lemma swap_remove_perm (v : list Card.t) (x : Z) :
  0 ≤ x < Z.of_nat (length v) →
  ∃ v', swap_remove v x = Ok v' ∧
        v ≡ₚ nth (Z.to_nat x) v Card.empty :: v' ∧
        length v = S (length v').
Proof.
  intros Hx. unfold swap_remove.
  set (n := Z.of_nat (length v)).
  rewrite !arr_get_in by lia. cbn [mbind result_mbind result_bind].
  rewrite arr_set_in by lia. cbn [mbind result_mbind result_bind].
  rewrite arr_set_in by lia. cbn [mbind result_mbind result_bind].
  eexists. split; [reflexivity|].
  set (vx := nth (Z.to_nat x) v Card.empty).
  set (back := nth (Z.to_nat (n - 1)) v Card.empty).
  assert (Z.to_nat (n - 1) = (length v - 1)%nat) as En by lia.
  rewrite En.
  assert (v !! (length v - 1)%nat = Some back) as Hback.
  { unfold back. rewrite En. apply nth_lookup_Some. lia. }
  assert (v !! Z.to_nat x = Some vx) as Hvx.
  { unfold vx. apply nth_lookup_Some. lia. }
  assert (take (length v - 1) v ++ [back] = v) as Hsplit.
  { rewrite <- (take_drop_middle v (length v - 1) back Hback) at 3.
    f_equal. f_equal. rewrite drop_ge by lia. done. }
  rewrite take_insert_ge by lia.
  destruct (decide (Z.to_nat x = (length v - 1)%nat)) as [Ex|Ex].
  - rewrite Ex in *. rewrite list_insert_id by done.
    assert (vx = back) as -> by congruence.
    split.
    + rewrite <- Hsplit at 1. rewrite Permutation_app_comm. done.
    + rewrite length_take. lia.
  - assert (Z.to_nat x < length v - 1)%nat as Hlt by lia.
    rewrite take_insert_lt by done.
    set (w := take (length v - 1) v) in *.
    assert (length w = (length v - 1)%nat) as Hw by (unfold w; rewrite length_take; lia).
    assert (w !! Z.to_nat x = Some vx) as Hwx.
    { unfold w. rewrite lookup_take_lt by lia. done. }
    split.
    + rewrite <- Hsplit at 1.
      rewrite <- (take_drop_middle w (Z.to_nat x) vx Hwx) at 1.
      rewrite insert_take_drop by lia.
      set (A := take (Z.to_nat x) w). set (B := drop (S (Z.to_nat x)) w).
      rewrite <- app_assoc. cbn [app].
      etrans; [symmetry; apply Permutation_middle|].
      apply Permutation_skip, Permutation_app_head.
      symmetry. apply Permutation_cons_append.
    + rewrite length_insert. lia.
Qed.

(** ** [fill_up_randomly] *)

Lemma take_S_insert {A : Type} (l : list A) (k : nat) (x : A) :
  (k < length l)%nat → take (S k) (<[k := x]> l) = take k l ++ [x].
Proof.
  intros H. rewrite insert_take_drop by done.
  rewrite take_app_ge by (rewrite length_take; lia).
  rewrite length_take. replace (S k - k `min` length l)%nat with 1%nat by lia.
  done.
Qed.

Lemma pool_empty_spec v : pool_empty v = true ↔ v = [].
Proof. by destruct v. Qed.

Lemma fill_table_loop_spec n fuel s s' :
  deck_shape (f_deck s) → Z.of_nat (length (f_pool s)) < 2 ^ 31 →
  fill_table_loop n fuel s = Ok s' →
  ∃ drawn, table_filled s s' drawn.
Proof.
  revert s. induction n as [|n IH]; intros s Hshape Hlen; [done|].
  cbn [fill_table_loop].
  destruct Hshape as (Ht & Hq & Htsz & Hqsz).
  destruct (Z.ltb_spec (Deck.table_sz (f_deck s)) 4) as [H4|H4];
    [destruct (pool_empty (f_pool s)) eqn:Hemp|]; cbn [andb negb].
  - intros [= <-]. apply pool_empty_spec in Hemp. exists [].
    split; rewrite ?Hemp, ?app_nil_r; try done; cbn [length]; lia.
  - assert (f_pool s ≠ []) as Hne by (intros E; apply pool_empty_spec in E; congruence).
    assert (1 ≤ Z.of_nat (length (f_pool s))) as H1.
    { destruct (f_pool s); [done|cbn; lia]. }
    intros H. apply bind_Ok in H as ([x tw] & Ex & H).
    apply next_int_max_range in Ex; [|lia].
    apply bind_Ok in H as (c & Ec & H). apply arr_get_Ok in Ec as [_ ->].
    apply bind_Ok in H as (tbl & Etbl & H). apply arr_set_Ok in Etbl as [_ ->].
    destruct (swap_remove_perm (f_pool s) x Ex) as (v' & Esw & Hperm & Hlen').
    rewrite Esw in H. cbn [mbind result_mbind result_bind] in H.
    apply IH in H as [drawn Hd].
    + exists (nth (Z.to_nat x) (f_pool s) Card.empty :: drawn).
      destruct Hd as [tf_perm0 tf_cards0 tf_sz0 tf_q0 tf_count0 tf_shape0]. cbn [f_deck f_pool Deck.table Deck.table_sz Deck.q Deck.q_sz] in *.
      unfold Deck.table_cards in *.
      cbn [f_deck f_pool Deck.table Deck.table_sz Deck.q Deck.q_sz] in *.
      split; unfold Deck.table_cards;
        cbn [f_deck f_pool Deck.table Deck.table_sz Deck.q Deck.q_sz]; try done.
      * etrans; [apply Hperm|]. cbn [app]. by apply Permutation_skip.
      * rewrite tf_cards0.
        replace (Z.to_nat (Deck.table_sz (f_deck s) + 1))
          with (S (Z.to_nat (Deck.table_sz (f_deck s)))) by lia.
        rewrite take_S_insert by lia. by rewrite <- app_assoc.
      * cbn [length]. lia.
      * cbn [length]. lia.
    + cbn [f_deck]. split; [|split]; cbn [Deck.table Deck.q Deck.table_sz Deck.q_sz].
      * by rewrite length_insert.
      * done.
      * lia.
    + cbn [f_pool]. lia.
  - intros [= <-]. exists []. split; rewrite ?app_nil_r; try done; cbn [length]; lia.
Qed.

Lemma fill_backlog_loop_spec n fuel desired_size s s' :
  deck_shape (f_deck s) → Z.of_nat (length (f_pool s)) < 2 ^ 31 →
  fill_backlog_loop n fuel desired_size s = Ok s' →
  ∃ drawn, backlog_filled desired_size s s' drawn.
Proof.
  revert s. induction n as [|n IH]; intros s Hshape Hlen; [done|].
  cbn [fill_backlog_loop].
  destruct Hshape as (Ht & Hq & Htsz & Hqsz).
  destruct (Z.ltb_spec (Deck.q_sz (f_deck s)) desired_size) as [H4|H4];
    [destruct (pool_empty (f_pool s)) eqn:Hemp|]; cbn [andb negb].
  - intros [= <-]. apply pool_empty_spec in Hemp. exists [].
    split; rewrite ?Hemp, ?app_nil_r; try done; cbn [length]; lia.
  - assert (f_pool s ≠ []) as Hne by (intros E; apply pool_empty_spec in E; congruence).
    assert (1 ≤ Z.of_nat (length (f_pool s))) as H1.
    { destruct (f_pool s); [done|cbn; lia]. }
    intros H. apply bind_Ok in H as ([x tw] & Ex & H).
    apply next_int_max_range in Ex; [|lia].
    apply bind_Ok in H as (c & Ec & H). apply arr_get_Ok in Ec as [_ ->].
    apply bind_Ok in H as (q' & Eq & H). apply arr_set_Ok in Eq as [Hroom ->].
    destruct (swap_remove_perm (f_pool s) x Ex) as (v' & Esw & Hperm & Hlen').
    rewrite Esw in H. cbn [mbind result_mbind result_bind] in H.
    apply IH in H as [drawn Hd].
    + exists (nth (Z.to_nat x) (f_pool s) Card.empty :: drawn).
      destruct Hd as [bf_perm0 bf_cards0 bf_sz0 bf_table0 bf_count0 bf_shape0]. cbn [f_deck f_pool Deck.table Deck.table_sz Deck.q Deck.q_sz] in *.
      unfold Deck.q_cards in *.
      cbn [f_deck f_pool Deck.table Deck.table_sz Deck.q Deck.q_sz] in *.
      split; unfold Deck.q_cards;
        cbn [f_deck f_pool Deck.table Deck.table_sz Deck.q Deck.q_sz]; try done.
      * etrans; [apply Hperm|]. cbn [app]. by apply Permutation_skip.
      * rewrite bf_cards0.
        replace (Z.to_nat (Deck.q_sz (f_deck s) + 1))
          with (S (Z.to_nat (Deck.q_sz (f_deck s)))) by lia.
        rewrite take_S_insert by lia. by rewrite <- app_assoc.
      * cbn [length]. lia.
      * cbn [length]. lia.
    + cbn [f_deck]. split; [|split]; cbn [Deck.table Deck.q Deck.table_sz Deck.q_sz].
      * done.
      * by rewrite length_insert.
      * lia.
    + cbn [f_pool]. lia.
  - intros [= <-]. exists []. split; rewrite ?app_nil_r; try done; cbn [length]; lia.
Qed.

(** Array accesses and the removal of a card from the pool never run out
    of fuel. *)
Lemma bind_OutOfFuel {A B : Type} (f : A → result B) (m : result A) :
  m ≫= f = OutOfFuel ↔ m = OutOfFuel ∨ ∃ a, m = Ok a ∧ f a = OutOfFuel.
Proof.
  destruct m as [a| |]; cbn; split; try done; try (by left).
  - intros H. right. by exists a.
  - by intros [?|(a' & [= <-] & H)].
  - by intros [?|(a' & [=] & _)].
Qed.

Lemma arr_get_fuel {A : Type} cap b (dflt : A) a i : arr_get cap b dflt a i ≠ OutOfFuel.
Proof. unfold arr_get. by destruct (_ && _). Qed.

Lemma arr_set_fuel {A : Type} cap b (a : list A) i x : arr_set cap b a i x ≠ OutOfFuel.
Proof. unfold arr_set. by destruct (_ && _). Qed.

Lemma swap_remove_fuel v x : swap_remove v x ≠ OutOfFuel.
Proof.
  unfold swap_remove. intros H.
  apply bind_OutOfFuel in H as [H|(? & _ & H)]; [by apply arr_get_fuel in H|].
  apply bind_OutOfFuel in H as [H|(? & _ & H)]; [by apply arr_get_fuel in H|].
  apply bind_OutOfFuel in H as [H|(? & _ & H)]; [by apply arr_set_fuel in H|].
  apply bind_OutOfFuel in H as [H|(? & _ & H)]; [by apply arr_set_fuel in H|].
  done.
Qed.

(** The completion stops with its draws: a loop that is to move [k] cards
    makes the [k] draws [next_int(|v|)], [next_int(|v| - 1)], ... and
    nothing else can keep it from returning. *)
Lemma successive_draws_app k1 k2 fuel n tw :
  successive_draws (k1 + k2) fuel n tw =
  successive_draws k1 fuel n tw ≫= successive_draws k2 fuel (n - Z.of_nat k1).
Proof.
  revert n tw. induction k1 as [|k1 IH]; intros n tw.
  - cbn. f_equal. lia.
  - cbn [Nat.add successive_draws].
    destruct (Twister.next_int_max fuel n tw) as [[x tw1]| |];
      cbn [mbind result_mbind result_bind]; [|done|done].
    rewrite IH. do 2 f_equal. lia.
Qed.

Lemma fill_table_loop_draws n fuel s :
  deck_shape (f_deck s) → Z.of_nat (length (f_pool s)) < 2 ^ 31 →
  (length (f_pool s) < n)%nat →
  match successive_draws
          (Z.to_nat (Z.of_nat (length (f_pool s)) `min` (4 - Deck.table_sz (f_deck s))))
          fuel (Z.of_nat (length (f_pool s))) (f_twister s) with
  | Ok tw' => ∃ s', fill_table_loop n fuel s = Ok s' ∧ f_twister s' = tw'
  | OutOfRange _ => False
  | OutOfFuel => fill_table_loop n fuel s = OutOfFuel
  end.
Proof.
  revert s. induction n as [|n IH]; intros s Hshape Hlen Hn; [lia|].
  cbn [fill_table_loop].
  destruct Hshape as (Ht & Hq & Htsz & Hqsz).
  destruct (Z.ltb_spec (Deck.table_sz (f_deck s)) 4) as [H4|H4];
    [destruct (pool_empty (f_pool s)) eqn:Hemp|]; cbn [andb negb].
  - apply pool_empty_spec in Hemp. rewrite Hemp. cbn [length].
    replace (Z.to_nat (Z.of_nat 0 `min` (4 - Deck.table_sz (f_deck s)))) with 0%nat by lia.
    cbn [successive_draws]. by exists s.
  - assert (f_pool s ≠ []) as Hne by (intros E; apply pool_empty_spec in E; congruence).
    assert (1 ≤ Z.of_nat (length (f_pool s))) as H1.
    { destruct (f_pool s); [done|cbn; lia]. }
    replace (Z.to_nat (Z.of_nat (length (f_pool s)) `min` (4 - Deck.table_sz (f_deck s))))
      with (S (Z.to_nat ((Z.of_nat (length (f_pool s)) - 1)
                           `min` (4 - (Deck.table_sz (f_deck s) + 1))))) by lia.
    cbn [successive_draws].
    destruct (Twister.next_int_max fuel (Z.of_nat (length (f_pool s))) (f_twister s))
      as [[x tw]|b|] eqn:Ex; cbn [mbind result_mbind result_bind].
    + apply next_int_max_range in Ex; [|lia].
      rewrite (arr_get_in (Z.of_nat (length (f_pool s)))) by done.
      cbn [mbind result_mbind result_bind].
      rewrite (arr_set_in 4) by lia. cbn [mbind result_mbind result_bind].
      destruct (swap_remove_perm (f_pool s) x Ex) as (v' & Esw & _ & Hlen').
      rewrite Esw. cbn [mbind result_mbind result_bind].
      replace (Z.of_nat (length (f_pool s)) - 1) with (Z.of_nat (length v')) by lia.
      match goal with |- context [fill_table_loop n fuel ?s1] => specialize (IH s1) end.
      cbn [f_deck f_pool f_twister Deck.table Deck.q Deck.table_sz Deck.q_sz] in IH.
      apply IH; [|lia|lia].
      split; [|split]; cbn [Deck.table Deck.q Deck.table_sz Deck.q_sz].
      * by rewrite length_insert.
      * done.
      * lia.
    + by apply next_int_max_no_fault in Ex.
    + done.
  - replace (Z.to_nat (Z.of_nat (length (f_pool s)) `min` (4 - Deck.table_sz (f_deck s))))
      with 0%nat by lia.
    cbn [successive_draws]. by exists s.
Qed.

Lemma fill_backlog_loop_draws n fuel desired_size s :
  desired_size ≤ 30 →
  deck_shape (f_deck s) → Z.of_nat (length (f_pool s)) < 2 ^ 31 →
  (length (f_pool s) < n)%nat →
  match successive_draws
          (Z.to_nat (Z.of_nat (length (f_pool s))
                       `min` (0 `max` (desired_size - Deck.q_sz (f_deck s)))))
          fuel (Z.of_nat (length (f_pool s))) (f_twister s) with
  | Ok tw' => ∃ s', fill_backlog_loop n fuel desired_size s = Ok s' ∧ f_twister s' = tw'
  | OutOfRange _ => False
  | OutOfFuel => fill_backlog_loop n fuel desired_size s = OutOfFuel
  end.
Proof.
  intros Hd. revert s. induction n as [|n IH]; intros s Hshape Hlen Hn; [lia|].
  cbn [fill_backlog_loop].
  destruct Hshape as (Ht & Hq & Htsz & Hqsz).
  destruct (Z.ltb_spec (Deck.q_sz (f_deck s)) desired_size) as [H4|H4];
    [destruct (pool_empty (f_pool s)) eqn:Hemp|]; cbn [andb negb].
  - apply pool_empty_spec in Hemp. rewrite Hemp. cbn [length].
    replace (Z.to_nat (Z.of_nat 0 `min` (0 `max` (desired_size - Deck.q_sz (f_deck s)))))
      with 0%nat by lia.
    cbn [successive_draws]. by exists s.
  - assert (f_pool s ≠ []) as Hne by (intros E; apply pool_empty_spec in E; congruence).
    assert (1 ≤ Z.of_nat (length (f_pool s))) as H1.
    { destruct (f_pool s); [done|cbn; lia]. }
    replace (Z.to_nat (Z.of_nat (length (f_pool s))
                         `min` (0 `max` (desired_size - Deck.q_sz (f_deck s)))))
      with (S (Z.to_nat ((Z.of_nat (length (f_pool s)) - 1)
                           `min` (0 `max` (desired_size - (Deck.q_sz (f_deck s) + 1))))))
      by lia.
    cbn [successive_draws].
    destruct (Twister.next_int_max fuel (Z.of_nat (length (f_pool s))) (f_twister s))
      as [[x tw]|b|] eqn:Ex; cbn [mbind result_mbind result_bind].
    + apply next_int_max_range in Ex; [|lia].
      rewrite (arr_get_in (Z.of_nat (length (f_pool s)))) by done.
      cbn [mbind result_mbind result_bind].
      rewrite (arr_set_in 30) by lia. cbn [mbind result_mbind result_bind].
      destruct (swap_remove_perm (f_pool s) x Ex) as (v' & Esw & _ & Hlen').
      rewrite Esw. cbn [mbind result_mbind result_bind].
      replace (Z.of_nat (length (f_pool s)) - 1) with (Z.of_nat (length v')) by lia.
      match goal with
      | |- context [fill_backlog_loop n fuel desired_size ?s1] => specialize (IH s1)
      end.
      cbn [f_deck f_pool f_twister Deck.table Deck.q Deck.table_sz Deck.q_sz] in IH.
      apply IH; [|lia|lia].
      split; [|split]; cbn [Deck.table Deck.q Deck.table_sz Deck.q_sz].
      * done.
      * by rewrite length_insert.
      * lia.
    + by apply next_int_max_no_fault in Ex.
    + done.
  - replace (Z.to_nat (Z.of_nat (length (f_pool s))
                         `min` (0 `max` (desired_size - Deck.q_sz (f_deck s)))))
      with 0%nat by lia.
    cbn [successive_draws]. by exists s.
Qed.

Lemma fill_up_randomly_draws fuel desired_size v tw d :
  desired_size ≤ 30 → deck_shape d → Z.of_nat (length v) < 2 ^ 31 →
  match successive_draws (table_draws v d + backlog_draws desired_size v d) fuel
          (Z.of_nat (length v)) tw with
  | Ok tw' => ∃ d', fill_up_randomly fuel desired_size v tw d = Ok (d', tw')
  | OutOfRange _ => False
  | OutOfFuel => fill_up_randomly fuel desired_size v tw d = OutOfFuel
  end.
Proof.
  intros Hd Hshape Hlen. rewrite successive_draws_app.
  unfold fill_up_randomly, fill_up_run.
  pose proof (fill_table_loop_draws (S (length v)) fuel (Filling d v tw) Hshape Hlen) as H1.
  cbn [f_deck f_pool f_twister] in H1. specialize (H1 ltac:(lia)).
  fold (table_draws v d) in H1.
  destruct (successive_draws (table_draws v d) fuel (Z.of_nat (length v)) tw)
    as [tw1|b|]; cbn [mbind result_mbind result_bind]; [|done|by rewrite H1].
  destruct H1 as (s1 & E1 & Htw1). rewrite E1. cbn [mbind result_mbind result_bind].
  destruct (fill_table_loop_spec _ _ (Filling d v tw) _ Hshape Hlen E1) as [to_table Ht].
  destruct Ht as [tf_perm0 tf_cards0 tf_sz0 tf_q0 tf_count0 tf_shape0].
  cbn [f_deck f_pool] in *.
  assert (length v = length to_table + length (f_pool s1))%nat as Hl1.
  { apply Permutation_length in tf_perm0. by rewrite length_app in tf_perm0. }
  pose proof (fill_backlog_loop_draws (S (length (f_pool s1))) fuel desired_size s1 Hd
                tf_shape0 ltac:(lia) ltac:(lia)) as H2.
  destruct tf_q0 as [_ Eq2]. rewrite Eq2, Htw1 in H2.
  replace (Z.of_nat (length (f_pool s1)))
    with (Z.of_nat (length v) - Z.of_nat (table_draws v d)) in H2
    by (unfold table_draws; lia).
  fold (backlog_draws desired_size v d) in H2.
  destruct (successive_draws (backlog_draws desired_size v d) fuel _ tw1)
    as [tw2|b|]; [|done|by rewrite H2].
  destruct H2 as (s2 & E2 & Htw2). rewrite E2. cbn [mbind result_mbind result_bind].
  exists (f_deck s2). by rewrite Htw2.
Qed.

(** With arrays of the declared sizes and a target within the backlog, no
    access of [fill_up_randomly] is out of range. *)
Lemma fill_table_loop_faults n fuel s :
  deck_shape (f_deck s) → Z.of_nat (length (f_pool s)) < 2 ^ 31 →
  faults_in (λ _, False) (fill_table_loop n fuel s).
Proof.
  revert s. induction n as [|n IH]; intros s Hshape Hlen; [apply faults_in_OutOfFuel|].
  cbn [fill_table_loop]. destruct Hshape as (Ht & Hq & Htsz & Hqsz).
  destruct (Z.ltb_spec (Deck.table_sz (f_deck s)) 4) as [H4|H4];
    [destruct (pool_empty (f_pool s)) eqn:Hemp|]; cbn [andb negb];
    try apply faults_in_Ok.
  assert (1 ≤ Z.of_nat (length (f_pool s))) as H1.
  { destruct (f_pool s); [done|cbn [length]; lia]. }
  apply faults_in_bind; [apply faults_in_next_int_max|]. intros [x tw] Ex.
  apply next_int_max_range in Ex; [|lia].
  apply faults_in_bind; [apply faults_in_arr_get; lia|]. intros c _.
  apply faults_in_bind; [apply faults_in_arr_set; lia|]. intros tbl Etbl.
  apply arr_set_Ok in Etbl as [_ ->].
  destruct (swap_remove_perm (f_pool s) x Ex) as (v' & Esw & _ & Hlen').
  rewrite Esw. cbn [mbind result_mbind result_bind].
  apply IH; cbn [f_deck f_pool]; [|lia].
  split; [|split]; cbn [Deck.table Deck.q Deck.table_sz Deck.q_sz];
    [by rewrite length_insert|done|lia].
Qed.

Lemma fill_backlog_loop_faults n fuel desired_size s :
  desired_size ≤ 30 →
  deck_shape (f_deck s) → Z.of_nat (length (f_pool s)) < 2 ^ 31 →
  faults_in (λ _, False) (fill_backlog_loop n fuel desired_size s).
Proof.
  intros Hd. revert s.
  induction n as [|n IH]; intros s Hshape Hlen; [apply faults_in_OutOfFuel|].
  cbn [fill_backlog_loop]. destruct Hshape as (Ht & Hq & Htsz & Hqsz).
  destruct (Z.ltb_spec (Deck.q_sz (f_deck s)) desired_size) as [H4|H4];
    [destruct (pool_empty (f_pool s)) eqn:Hemp|]; cbn [andb negb];
    try apply faults_in_Ok.
  assert (1 ≤ Z.of_nat (length (f_pool s))) as H1.
  { destruct (f_pool s); [done|cbn [length]; lia]. }
  apply faults_in_bind; [apply faults_in_next_int_max|]. intros [x tw] Ex.
  apply next_int_max_range in Ex; [|lia].
  apply faults_in_bind; [apply faults_in_arr_get; lia|]. intros c _.
  apply faults_in_bind; [apply faults_in_arr_set; lia|]. intros q' Eq.
  apply arr_set_Ok in Eq as [_ ->].
  destruct (swap_remove_perm (f_pool s) x Ex) as (v' & Esw & _ & Hlen').
  rewrite Esw. cbn [mbind result_mbind result_bind].
  apply IH; cbn [f_deck f_pool]; [|lia].
  split; [|split]; cbn [Deck.table Deck.q Deck.table_sz Deck.q_sz];
    [done|by rewrite length_insert|lia].
Qed.

Lemma fill_up_run_faults fuel desired_size v tw d :
  desired_size ≤ 30 → deck_shape d → Z.of_nat (length v) < 2 ^ 31 →
  faults_in (λ _, False) (fill_up_run fuel desired_size v tw d).
Proof.
  intros Hd Hshape Hlen. unfold fill_up_run.
  apply faults_in_bind; [by apply fill_table_loop_faults|]. intros s1 E.
  apply fill_table_loop_spec in E as [drawn Hs]; [|done|done].
  pose proof (tf_perm _ _ _ Hs) as Hp. apply Permutation_length in Hp.
  rewrite length_app in Hp. cbn [f_pool] in Hp.
  apply fill_backlog_loop_faults; [done|apply (tf_shape _ _ _ Hs)|lia].
Qed.

(** C10.  [fill_up_randomly] takes cards out of the pool one draw at a
    time.  A completed call moved cards [to_table] and [to_backlog]:
    together with the cards left over they are a permutation of the pool (so
    none is drawn twice and, for a pool without duplicates, none appears
    twice), they are appended to the table and to the backlog, and their
    numbers are the smaller of what the pool holds and what is missing to 4
    table cards, respectively to the target backlog size.  So the call ends
    with the pool exhausted or with 4 table cards and the backlog at its
    target.  With a target of at most 30 the call completes exactly when
    its draws do: it makes these [|to_table| + |to_backlog|] draws,
    [next_int(|v|)], [next_int(|v| - 1)], ..., and if they all return it
    returns with the generator they leave; it fails to return only when the
    rejection loop of one of these draws does, and no access is out of
    range. *)
Theorem fill_up_randomly_draws_without_replacement (fuel : nat) (desired_size : Z)
    (v : list Card.t) (setup_twister : Twister.t) (d : Deck.t) :
  deck_shape d → Z.of_nat (length v) < 2 ^ 31 →
  (∀ d' tw', fill_up_randomly fuel desired_size v setup_twister d = Ok (d', tw') →
     ∃ to_table to_backlog rest,
       v ≡ₚ to_table ++ to_backlog ++ rest ∧
       (NoDup v → NoDup (to_table ++ to_backlog)) ∧
       Deck.table_cards d' = Deck.table_cards d ++ to_table ∧
       Deck.q_cards d' = Deck.q_cards d ++ to_backlog ∧
       Deck.table_sz d' = Deck.table_sz d + Z.of_nat (length to_table) ∧
       Deck.q_sz d' = Deck.q_sz d + Z.of_nat (length to_backlog) ∧
       Z.of_nat (length to_table) = Z.of_nat (length v) `min` (4 - Deck.table_sz d) ∧
       Z.of_nat (length to_backlog)
         = Z.of_nat (length v - length to_table) `min` (0 `max` (desired_size - Deck.q_sz d)) ∧
       (rest = [] ∨ (Deck.table_sz d' = 4 ∧ desired_size ≤ Deck.q_sz d')) ∧
       length to_table = table_draws v d ∧
       length to_backlog = backlog_draws desired_size v d) ∧
  (desired_size ≤ 30 →
     match successive_draws (table_draws v d + backlog_draws desired_size v d) fuel
             (Z.of_nat (length v)) setup_twister with
     | Ok tw' => ∃ d', fill_up_randomly fuel desired_size v setup_twister d = Ok (d', tw')
     | OutOfRange _ => False
     | OutOfFuel => fill_up_randomly fuel desired_size v setup_twister d = OutOfFuel
     end) ∧
  (desired_size ≤ 30 →
     ∀ b, fill_up_randomly fuel desired_size v setup_twister d ≠ OutOfRange b).
Proof.
  intros Hshape Hlen. split; [|split].
  - unfold fill_up_randomly. intros d' tw' H.
    apply bind_Ok in H as (s2 & Hrun & H). inversion H; subst; clear H.
    unfold fill_up_run in Hrun. apply bind_Ok in Hrun as (s1 & H1 & H2).
    apply fill_table_loop_spec in H1 as [to_table Ht]; [|done|done].
    destruct Ht as [tf_perm0 tf_cards0 tf_sz0 tf_q0 tf_count0 tf_shape0].
    cbn [f_deck f_pool] in *.
    assert (length v = length to_table + length (f_pool s1))%nat as Hl1.
    { apply Permutation_length in tf_perm0. by rewrite length_app in tf_perm0. }
    apply fill_backlog_loop_spec in H2 as [to_backlog Hb]; [|done|lia].
    destruct Hb as [bf_perm0 bf_cards0 bf_sz0 bf_table0 bf_count0 bf_shape0].
    assert (length (f_pool s1) = length to_backlog + length (f_pool s2))%nat as Hl2.
    { apply Permutation_length in bf_perm0. by rewrite length_app in bf_perm0. }
    assert (v ≡ₚ to_table ++ to_backlog ++ f_pool s2) as Hperm.
    { etrans; [apply tf_perm0|]. by apply Permutation_app_head. }
    exists to_table, to_backlog, (f_pool s2).
    destruct tf_q0 as [Eq1 Eq2]. destruct bf_table0 as [Et1 Et2].
    split; [done|].
    split.
    { intros Hnd. rewrite Hperm, app_assoc in Hnd. by apply list.NoDup_app in Hnd as [? _]. }
    split.
    { unfold Deck.table_cards in *. by rewrite Et1, Et2. }
    split.
    { rewrite bf_cards0. unfold Deck.q_cards. by rewrite Eq1, Eq2. }
    split; [lia|]. split; [lia|]. split; [done|].
    split.
    { rewrite bf_count0, Eq2. f_equal. lia. }
    split.
    { destruct (f_pool s2) as [|c rest] eqn:E; [by left|right].
      cbn [length] in *. destruct Hshape as (_ & _ & ? & ?). lia. }
    unfold backlog_draws, table_draws. split; [lia|].
    rewrite Eq2 in bf_count0. lia.
  - intros Hd. by apply fill_up_randomly_draws.
  - intros Hd b E. unfold fill_up_randomly in E.
    apply bind_OutOfRange in E as [E|(s & _ & E)]; [|done].
    by apply (fill_up_run_faults fuel desired_size v setup_twister d Hd Hshape Hlen) in E.
Qed.

Lemma deck_green_shape : deck_shape deck_green.
Proof. split; [done|]. split; [done|]. cbn. lia. Qed.

Lemma fill_up_randomly_draws_without_replacement_witness :
  ∃ d' tw' to_table to_backlog rest,
    successive_draws 5 1 6 tw_zero = Ok tw' ∧
    fill_up_randomly 1 2 pool_6 tw_zero deck_green = Ok (d', tw') ∧
    pool_6 ≡ₚ to_table ++ to_backlog ++ rest ∧
    Deck.table_cards d' = Deck.table_cards deck_green ++ to_table ∧
    Deck.q_cards d' = Deck.q_cards deck_green ++ to_backlog ∧
    length to_table = 3%nat ∧ length to_backlog = 2%nat ∧
    Deck.table_sz d' = 4 ∧ Deck.q_sz d' = 2.
Proof.
  assert (Z.of_nat (length pool_6) < 2 ^ 31) as Hlen by (vm_compute; reflexivity).
  destruct (fill_up_randomly_draws_without_replacement 1 2 pool_6 tw_zero deck_green
              deck_green_shape Hlen) as (Hpart & Htot & _).
  specialize (Htot ltac:(lia)).
  change (table_draws pool_6 deck_green + backlog_draws 2 pool_6 deck_green)%nat
    with 5%nat in Htot.
  change (Z.of_nat (length pool_6)) with 6 in Htot.
  assert (match successive_draws 5 1 6 tw_zero with Ok _ => true | _ => false end = true)
    as Hrun by (vm_compute; reflexivity).
  destruct (successive_draws 5 1 6 tw_zero) as [tw'| |]; [|discriminate Hrun..].
  destruct Htot as [d' E].
  destruct (Hpart d' tw' E)
    as (to_table & to_backlog & rest & H1 & _ & H2 & H3 & H4 & H5 & _ & _ & _ & H6 & H7).
  exists d', tw', to_table, to_backlog, rest.
  split; [reflexivity|]. split; [exact E|]. split; [exact H1|].
  split; [exact H2|]. split; [exact H3|].
  change (table_draws pool_6 deck_green) with 3%nat in H6.
  change (backlog_draws 2 pool_6 deck_green) with 2%nat in H7.
  change (Deck.table_sz deck_green) with 1 in *.
  change (Deck.q_sz deck_green) with 0 in *.
  split; [exact H6|]. split; [exact H7|]. lia.
Defined.

(** ** List facts for the buffers *)

Lemma nth_insert_eq {A : Type} (l : list A) (i : nat) (x d : A) :
  (i < length l)%nat → nth i (<[i := x]> l) d = x.
Proof. intros H. by rewrite nth_lookup, list_lookup_insert_eq. Qed.

Lemma nth_insert_ne {A : Type} (l : list A) (i j : nat) (x d : A) :
  i ≠ j → nth j (<[i := x]> l) d = nth j l d.
Proof. intros H. by rewrite !nth_lookup, list_lookup_insert_ne. Qed.

(** ** [mutate] *)

Lemma change_loop_range n fuel old tw next tw' :
  change_loop n fuel old tw = Ok (next, tw') → 0 ≤ next < 10 ∧ next ≠ old.
Proof.
  revert tw. induction n as [|n IH]; intros tw; [done|]. cbn [change_loop].
  intros H. apply bind_Ok in H as ([x tw1] & Ex & H).
  apply next_int_max_range in Ex; [|lia].
  destruct (Z.eqb_spec x old); [by eapply IH|].
  inversion H; subst. done.
Qed.

Lemma change_loop_faults P n fuel old tw : faults_in P (change_loop n fuel old tw).
Proof.
  revert tw. induction n as [|n IH]; intros tw; [apply faults_in_OutOfFuel|].
  cbn [change_loop]. apply faults_in_bind; [apply faults_in_next_int_max|].
  intros [x tw1] _. destruct (_ =? _); [apply IH|apply faults_in_Ok].
Qed.

Lemma moves_set_in st i x :
  0 ≤ i < 40 →
  State.moves_set st i x = Ok (with_moves st (<[Z.to_nat i := x]> (State.move_sequence st))).
Proof. intros H. unfold State.moves_set. by rewrite arr_set_in. Qed.

Lemma moves_get_in st i :
  0 ≤ i < 40 → State.moves_get st i = Ok (nth (Z.to_nat i) (State.move_sequence st) 0).
Proof. intros H. unfold State.moves_get. by rewrite arr_get_in. Qed.

(** The shifting loop of INSERT moves the entries [i - n .. i - 1] one
    place up. *)
Lemma shift_loop_spec n i st :
  0 ≤ i - Z.of_nat n → i < 40 → length (State.move_sequence st) = 40%nat →
  ∃ ms, shift_loop n i st = Ok (with_moves st ms) ∧ length ms = 40%nat ∧
    ∀ j, 0 ≤ j →
      nth (Z.to_nat j) ms 0 =
      if (i - Z.of_nat n <? j) && (j <=? i)
      then nth (Z.to_nat (j - 1)) (State.move_sequence st) 0
      else nth (Z.to_nat j) (State.move_sequence st) 0.
Proof.
  revert i st. induction n as [|n IH]; intros i st Hlo Hhi Hlen.
  - exists (State.move_sequence st). split; [by destruct st|]. split; [done|].
    intros j Hj. destruct (Z.ltb_spec (i - Z.of_nat 0) j), (Z.leb_spec j i); cbn [andb]; try done; lia.
  - cbn [shift_loop]. rewrite moves_get_in by lia.
    cbn [mbind result_mbind result_bind]. rewrite moves_set_in by lia.
    cbn [mbind result_mbind result_bind].
    set (v := nth (Z.to_nat (i - 1)) (State.move_sequence st) 0).
    destruct (IH (i - 1) (with_moves st (<[Z.to_nat i := v]> (State.move_sequence st))))
      as (ms & E & Hms & Hnth);
      [lia|lia|cbn [with_moves State.move_sequence]; by rewrite length_insert|].
    exists ms. split; [exact E|]. split; [done|].
    intros j Hj. rewrite (Hnth j Hj). cbn [with_moves State.move_sequence].
    destruct (Z.ltb_spec (i - 1 - Z.of_nat n) j), (Z.leb_spec j (i - 1)),
             (Z.ltb_spec (i - Z.of_nat (S n)) j), (Z.leb_spec j i);
      cbn [andb]; try lia.
    + rewrite nth_insert_ne by lia. done.
    + assert (j = i) as -> by lia. rewrite nth_insert_eq by lia. done.
    + rewrite nth_insert_ne by lia. done.
    + rewrite nth_insert_ne by lia. done.
Qed.

Lemma seq_ok_new : seq_ok State.new.
Proof. split; [done|]. split; [done|]. intros i Hi. cbn in Hi. lia. Qed.

Lemma seq_ok_copy indet st n :
  seq_ok st → seq_ok (State.set_card_sequence_sz (State.copy indet st) n).
Proof. done. Qed.

(** What one call of [mutate] does to the sequence. *)
Lemma mutate_spec fuel st tw :
  seq_ok st →
  faults_in (λ _, False) (mutate fuel st tw) ∧
  ∀ ok st' tw', mutate fuel st tw = Ok (ok, st', tw') →
    seq_ok st' ∧
    (ok = false → st' = st) ∧
    (State.move_sequence_sz st' = State.move_sequence_sz st ∨
     (State.move_sequence_sz st' = State.move_sequence_sz st + 1 ∧
      State.move_sequence_sz st ≤ 30)) ∧
    State.points st' = State.points st ∧
    State.card_sequence_sz st' = State.card_sequence_sz st.
Proof.
  intros (Hlen & Hsz & Htok). unfold mutate. split.
  - apply faults_in_bind; [apply faults_in_next_int_max|].
    intros [m tw1] _. destruct (m =? 0); [|destruct (m =? 1); [|destruct (m =? 2)]].
    + destruct (Z.eqb_spec (State.move_sequence_sz st) 0); [apply faults_in_Ok|].
      apply faults_in_bind; [apply faults_in_next_int_max|].
      intros [pos tw2] Epos. apply next_int_max_range in Epos; [|lia].
      apply faults_in_bind; [apply faults_in_arr_get; lia|]. intros old _.
      apply faults_in_bind; [apply change_loop_faults|]. intros [next tw3] _.
      apply faults_in_bind; [|intros; apply faults_in_Ok].
      unfold State.moves_set. apply faults_in_bind; [|intros; apply faults_in_Ok].
      apply faults_in_arr_set. lia.
    + destruct (Z.ltb_spec 30 (State.move_sequence_sz st)); [apply faults_in_Ok|].
      apply faults_in_bind; [apply faults_in_next_int_max|].
      intros [pos tw2] Epos. apply next_int_max_range in Epos; [|lia].
      destruct (shift_loop_spec (Z.to_nat (State.move_sequence_sz st - pos))
                  (State.move_sequence_sz st) st) as (ms & E & _); [lia|lia|done|].
      rewrite E. cbn [mbind result_mbind result_bind].
      apply faults_in_bind; [apply faults_in_next_int_max|]. intros [tok tw3] _.
      apply faults_in_bind; [|intros; apply faults_in_Ok].
      unfold State.moves_set. apply faults_in_bind; [|intros; apply faults_in_Ok].
      apply faults_in_arr_set. lia.
    + destruct (Z.ltb_spec (State.move_sequence_sz st) 3); [apply faults_in_Ok|].
      apply faults_in_bind; [apply faults_in_next_int_max|].
      intros [px tw2] Epx. apply next_int_max_range in Epx; [|lia].
      apply faults_in_bind; [apply faults_in_next_int_max|].
      intros [py tw3] Epy. apply next_int_max_range in Epy; [|lia].
      destruct (px =? py); [apply faults_in_Ok|].
      apply faults_in_bind; [apply faults_in_arr_get; lia|]. intros a _.
      apply faults_in_bind; [apply faults_in_arr_get; lia|]. intros b _.
      destruct (a =? b); [apply faults_in_Ok|].
      rewrite moves_set_in by lia. cbn [mbind result_mbind result_bind].
      rewrite moves_set_in by lia. apply faults_in_Ok.
    + apply faults_in_Ok.
  - intros ok st' tw' H.
    apply bind_Ok in H as ([m tw1] & _ & H).
    destruct (m =? 0); [|destruct (m =? 1); [|destruct (m =? 2)]].
    + destruct (Z.eqb_spec (State.move_sequence_sz st) 0).
      { inversion H; subst. split; [done|split; [done|split; [by left|done]]]. }
      apply bind_Ok in H as ([pos tw2] & Epos & H).
      apply next_int_max_range in Epos; [|lia].
      apply bind_Ok in H as (old & _ & H).
      apply bind_Ok in H as ([next tw3] & Enext & H).
      apply change_loop_range in Enext as [Hnext _].
      rewrite moves_set_in in H by lia. inversion H; subst; clear H.
      unfold seq_ok.
      cbn [with_moves State.move_sequence State.move_sequence_sz
           State.points State.card_sequence_sz].
      split; [|split; [done|split; [by left|done]]]. split; [by rewrite length_insert|]. split; [done|].
      intros i Hi.
      destruct (Z.eq_dec i pos) as [->|Hne].
      * rewrite nth_insert_eq by lia. done.
      * rewrite nth_insert_ne by lia. by apply Htok.
    + destruct (Z.ltb_spec 30 (State.move_sequence_sz st)).
      { inversion H; subst. split; [done|split; [done|split; [by left|done]]]. }
      apply bind_Ok in H as ([pos tw2] & Epos & H).
      apply next_int_max_range in Epos; [|lia].
      destruct (shift_loop_spec (Z.to_nat (State.move_sequence_sz st - pos))
                  (State.move_sequence_sz st) st) as (ms & E & Hms & Hnth); [lia|lia|done|].
      rewrite E in H. cbn [mbind result_mbind result_bind] in H.
      apply bind_Ok in H as ([tok tw3] & Etok & H).
      apply next_int_max_range in Etok; [|lia].
      rewrite moves_set_in in H by lia. inversion H; subst; clear H.
      unfold seq_ok.
      cbn [set_move_sequence_sz with_moves State.move_sequence State.move_sequence_sz
           State.points State.card_sequence_sz].
      split; [|split; [done|split; [right; lia|done]]].
      split; [by rewrite length_insert|]. split; [lia|].
      intros i Hi.
      destruct (Z.eq_dec i pos) as [->|Hne].
      * rewrite nth_insert_eq by lia. done.
      * rewrite nth_insert_ne by lia. rewrite Hnth by lia.
        destruct (Z.ltb_spec (State.move_sequence_sz st
                   - Z.of_nat (Z.to_nat (State.move_sequence_sz st - pos))) i),
                 (Z.leb_spec i (State.move_sequence_sz st)); cbn [andb];
          apply Htok; lia.
    + destruct (Z.ltb_spec (State.move_sequence_sz st) 3).
      { inversion H; subst. split; [done|split; [done|split; [by left|done]]]. }
      apply bind_Ok in H as ([px tw2] & Epx & H).
      apply next_int_max_range in Epx; [|lia].
      apply bind_Ok in H as ([py tw3] & Epy & H).
      apply next_int_max_range in Epy; [|lia].
      destruct (Z.eqb_spec px py).
      { inversion H; subst. split; [done|split; [done|split; [by left|done]]]. }
      rewrite !moves_get_in in H by lia. cbn [mbind result_mbind result_bind] in H.
      destruct (_ =? _).
      { inversion H; subst. split; [done|split; [done|split; [by left|done]]]. }
      rewrite moves_set_in in H by lia. cbn [mbind result_mbind result_bind] in H.
      rewrite moves_set_in in H by lia. inversion H; subst; clear H.
      unfold seq_ok.
      cbn [with_moves State.move_sequence State.move_sequence_sz
           State.points State.card_sequence_sz].
      split; [|split; [done|split; [by left|done]]]. split; [by rewrite !length_insert|]. split; [done|].
      intros i Hi.
      destruct (Z.eq_dec i py) as [->|Hne].
      * rewrite nth_insert_eq by (rewrite length_insert; lia). by apply Htok.
      * rewrite nth_insert_ne by lia.
        destruct (Z.eq_dec i px) as [->|Hne'].
        -- rewrite nth_insert_eq by lia. by apply Htok.
        -- rewrite nth_insert_ne by lia. by apply Htok.
    + inversion H; subst. split; [done|split; [done|split; [by left|done]]].
Qed.

Lemma mutate_retry_spec n fuel st tw :
  seq_ok st →
  faults_in (λ _, False) (mutate_retry n fuel st tw) ∧
  ∀ st' tw', mutate_retry n fuel st tw = Ok (st', tw') →
    seq_ok st' ∧
    (State.move_sequence_sz st' = State.move_sequence_sz st ∨
     (State.move_sequence_sz st' = State.move_sequence_sz st + 1 ∧
      State.move_sequence_sz st ≤ 30)).
Proof.
  revert st tw. induction n as [|n IH]; intros st tw Hst.
  { split; [apply faults_in_OutOfFuel|done]. }
  cbn [mutate_retry]. destruct (mutate_spec fuel st tw Hst) as [Hf Hok]. split.
  - apply faults_in_bind; [done|]. intros [[ok st1] tw1] E.
    destruct (Hok _ _ _ E) as (Hst1 & _). destruct ok; [apply faults_in_Ok|].
    by apply (proj1 (IH st1 tw1 Hst1)).
  - intros st' tw' H. apply bind_Ok in H as ([[ok st1] tw1] & E & H).
    destruct (Hok _ _ _ E) as (Hst1 & Hsame & Hsz & _). destruct ok.
    + by inversion H; subst.
    + specialize (Hsame eq_refl). subst st1. exact (proj2 (IH st tw1 Hst) _ _ H).
Qed.

(** ** Replaying a candidate of the search *)

Lemma deck_buffer_not_sequence b : deck_buffer b → ¬ sequence_buffer b.
Proof. intros [->|[->| ->]] [?|?]; done. Qed.

Lemma can_peak_card_faults d x : faults_in deck_buffer (Deck.can_peak_card d x).
Proof.
  unfold Deck.can_peak_card. destruct (_ <? _); [apply faults_in_Ok|].
  apply faults_in_bind; [apply faults_in_arr_get; by left|].
  intros c _. destruct (_ =? _); apply faults_in_Ok.
Qed.

Lemma pop_card_faults d x : faults_in deck_buffer (Deck.pop_card d x).
Proof.
  unfold Deck.pop_card.
  apply faults_in_bind; [apply faults_in_arr_get; by left|]. intros c _.
  apply faults_in_bind; [apply faults_in_arr_set; by left|]. intros tbl _.
  destruct (_ <? _); [|apply faults_in_Ok].
  apply faults_in_bind; [apply faults_in_arr_get; right; by left|]. intros c' _.
  apply faults_in_bind; [apply faults_in_arr_set; by left|]. intros tbl' _.
  apply faults_in_Ok.
Qed.

Lemma process_move_faults d x st bonus :
  0 ≤ State.card_sequence_sz st < 40 →
  faults_in deck_buffer (process_move d x st bonus).
Proof.
  intros Hsz. unfold process_move.
  apply faults_in_bind; [apply can_peak_card_faults|]. intros ok _.
  destruct ok; cbn [negb]; [|apply faults_in_Ok].
  apply faults_in_bind; [apply faults_in_arr_get; by left|]. intros c _.
  destruct (_ =? _); [apply faults_in_Ok|].
  destruct (_ <? _); [apply faults_in_Ok|].
  apply faults_in_bind; [apply faults_in_arr_get; right; by right|]. intros b _.
  apply faults_in_bind; [apply faults_in_arr_set; right; by right|]. intros bonus' _.
  apply faults_in_bind; [apply faults_in_arr_set; lia|]. intros cs _.
  apply faults_in_bind; [apply pop_card_faults|]. intros d' _.
  apply faults_in_Ok.
Qed.

Lemma play_move_building ptr r move :
  building ptr (r_st r) → ptr < 40 → 0 ≤ move < 10 →
  faults_in deck_buffer (play_move r move) ∧
  ∀ ok r', play_move r move = Ok (ok, r') → building (ptr + 1) (r_st r').
Proof.
  intros (Hlen & Hcs & Hsz & Htok) Hptr Hmove. split.
  - rewrite play_move_address.
    apply faults_in_bind.
    { unfold address. apply faults_in_bind; [apply process_move_faults; lia|].
      intros [[[ok d] st] bonus] _. apply faults_in_Ok. }
    intros [ok r1] E. destruct ok; [|apply faults_in_Ok].
    apply address_inv in E as [(? & _)|(_ & d' & c & Hc & _)]; [done|].
    apply faults_in_bind; [|intros; apply faults_in_Ok].
    unfold State.moves_set. apply faults_in_bind; [|intros; apply faults_in_Ok].
    apply faults_in_arr_set. rewrite (cm_state _ _ _ _ _ _ _ _ Hc).
    cbn [State.move_sequence_sz]. lia.
  - intros ok r' H. apply play_move_inv in H as [(-> & ->)|(-> & c & Hc)].
    + split; [done|]. split; [done|]. split; [lia|done].
    + pose proof (cs_moves _ _ _ _ Hc) as Hms.
      pose proof (cs_moves_sz _ _ _ _ Hc). pose proof (cs_cards_sz _ _ _ _ Hc).
      split; [by rewrite Hms, length_insert|].
      split; [lia|]. split; [lia|]. intros i Hi. rewrite Hms.
      destruct (Z.eq_dec i (State.move_sequence_sz (r_st r))) as [->|Hne].
      * rewrite nth_insert_eq by lia. rewrite Z.rem_small by lia. done.
      * rewrite nth_insert_ne by lia. apply Htok. lia.
Qed.

Lemma play_out_loop_building n ptr cand r :
  seq_ok cand → building ptr (r_st r) → 0 ≤ ptr →
  ptr + Z.of_nat n ≤ State.move_sequence_sz cand →
  faults_in deck_buffer (play_out_loop n ptr cand r) ∧
  ∀ r', play_out_loop n ptr cand r = Ok r' → building (ptr + Z.of_nat n) (r_st r').
Proof.
  intros Hcand. revert ptr r. induction n as [|n IH]; intros ptr r Hr H0 Hn.
  { split; [apply faults_in_Ok|]. intros r' [= <-]. by rewrite Z.add_0_r. }
  destruct Hcand as (Hlen & Hsz & Htok). cbn [play_out_loop].
  rewrite moves_get_in by lia. cbn [mbind result_mbind result_bind].
  destruct (play_move_building ptr r (nth (Z.to_nat ptr) (State.move_sequence cand) 0) Hr)
    as [Hf Hok]; [lia|apply Htok; lia|].
  split.
  - apply faults_in_bind; [done|]. intros [ok r1] E.
    apply (IH (ptr + 1) r1); [by eapply Hok|lia|lia].
  - intros r' H. apply bind_Ok in H as ([ok r1] & E & H).
    replace (ptr + Z.of_nat (S n)) with (ptr + 1 + Z.of_nat n) by lia.
    apply (IH (ptr + 1) r1); [by eapply Hok|lia|lia|done].
Qed.

Lemma building_seq_ok ptr st : building ptr st → ptr ≤ 31 → seq_ok st.
Proof. intros (H1 & H2 & H3 & H4) H. split; [done|]. split; [lia|done]. Qed.

Lemma play_out_new_spec d1 d2 d3 cand :
  seq_ok cand →
  faults_in deck_buffer (play_out State.new d1 d2 d3 cand) ∧
  ∀ refined, play_out State.new d1 d2 d3 cand = Ok refined →
    seq_ok refined ∧
    State.move_sequence_sz refined ≤ State.move_sequence_sz cand ∧
    State.card_sequence_sz refined = State.move_sequence_sz refined.
Proof.
  intros Hcand. unfold play_out.
  assert (building 0 (r_st (play_start d1 d2 d3 State.new))) as Hb.
  { split; [done|]. split; [done|]. split; [done|]. intros i Hi. cbn in Hi. lia. }
  pose proof Hcand as (_ & Hsz & _).
  destruct (play_out_loop_building (Z.to_nat (State.move_sequence_sz cand)) 0 cand
              (play_start d1 d2 d3 State.new) Hcand Hb) as [Hf Hok]; [lia|lia|].
  split.
  - apply faults_in_bind; [done|]. intros; apply faults_in_Ok.
  - intros refined H. apply bind_Ok in H as (r' & E & H). inversion H; subst; clear H.
    apply Hok in E. split; [eapply building_seq_ok; [done|lia]|].
    destruct E as (_ & E1 & E2 & _). lia.
Qed.

(** ** Replay against decks of catalogue cards never leaves an array *)

Lemma can_peak_card_no_fault d x :
  0 ≤ x < 4 → faults_in (λ _, False) (Deck.can_peak_card d x).
Proof.
  intros Hx. unfold Deck.can_peak_card. destruct (_ <? _); [apply faults_in_Ok|].
  apply faults_in_bind; [apply faults_in_arr_get; lia|].
  intros c _. destruct (_ =? _); apply faults_in_Ok.
Qed.

Lemma pop_card_no_fault d x :
  deck_shape d → 0 ≤ x < 4 → faults_in (λ _, False) (Deck.pop_card d x).
Proof.
  intros (_ & _ & _ & Hq) Hx. unfold Deck.pop_card.
  apply faults_in_bind; [apply faults_in_arr_get; lia|]. intros c _.
  apply faults_in_bind; [apply faults_in_arr_set; lia|]. intros tbl _.
  destruct (Z.ltb_spec 0 (Deck.q_sz d)); [|apply faults_in_Ok].
  apply faults_in_bind; [apply faults_in_arr_get; lia|]. intros c' _.
  apply faults_in_bind; [apply faults_in_arr_set; lia|]. intros tbl' _.
  apply faults_in_Ok.
Qed.

Lemma pop_card_shape d x d' :
  deck_shape d → Deck.pop_card d x = Ok d' → deck_shape d'.
Proof.
  intros (Ht & Hq & Htsz & Hqsz). unfold Deck.pop_card. intros H.
  apply bind_Ok in H as (c & _ & H).
  apply bind_Ok in H as (tbl & Etbl & H). apply arr_set_Ok in Etbl as [_ ->].
  destruct (Z.ltb_spec 0 (Deck.q_sz d)).
  - apply bind_Ok in H as (c' & _ & H).
    apply bind_Ok in H as (tbl' & Etbl' & H). apply arr_set_Ok in Etbl' as [_ ->].
    inversion H; subst; clear H.
    split; [|split]; cbn [Deck.table Deck.q Deck.table_sz Deck.q_sz];
      [by rewrite !length_insert|done|lia].
  - inversion H; subst; clear H.
    split; [|split]; cbn [Deck.table Deck.q Deck.table_sz Deck.q_sz];
      [by rewrite length_insert|done|lia].
Qed.

Lemma pop_card_ready d x d' : deck_ready d → Deck.pop_card d x = Ok d' → deck_ready d'.
Proof.
  intros [Hs Hc] H. split; [by eapply pop_card_shape|by eapply pop_card_from_catalogue].
Qed.

Lemma process_move_no_fault d x st bonus :
  deck_ready d → 0 ≤ x < 4 → length bonus = 5%nat →
  0 ≤ State.card_sequence_sz st < 40 →
  faults_in (λ _, False) (process_move d x st bonus).
Proof.
  intros [Hs Hc] Hx Hb Hsz. unfold process_move.
  apply faults_in_bind; [by apply can_peak_card_no_fault|]. intros ok Eok.
  destruct ok; cbn [negb]; [|apply faults_in_Ok].
  apply faults_in_bind; [apply faults_in_arr_get; lia|]. intros c Ec.
  destruct (_ =? _); [apply faults_in_Ok|].
  destruct (_ <? _); [apply faults_in_Ok|].
  assert (0 ≤ Card.type c ≤ 4) as Hty.
  { destruct (table_get_from_catalogue d x c Hc Ec) as [E|(_ & _ & ? & _)]; [|done].
    unfold Deck.can_peak_card in Eok. destruct (_ <? _); [done|].
    change (arr_get 4 BufTable Card.empty (Deck.table d) x) with (Deck.table_get d x) in Ec.
    rewrite Ec in Eok.
    cbn [mbind result_mbind result_bind] in Eok. by rewrite E in Eok. }
  apply faults_in_bind; [apply faults_in_arr_get; lia|]. intros b _.
  apply faults_in_bind; [apply faults_in_arr_set; lia|]. intros bonus' _.
  apply faults_in_bind; [apply faults_in_arr_set; lia|]. intros cs _.
  apply faults_in_bind; [by apply pop_card_no_fault|]. intros d' _.
  apply faults_in_Ok.
Qed.

Lemma nth_deck_ready r k : replay_ready r → deck_ready (nth_deck r k).
Proof. intros (H1 & H2 & H3 & _). unfold nth_deck. by destruct (k =? 0), (k =? 1). Qed.

Lemma addressed_slot_range move :
  0 ≤ move < 10 → 0 ≤ addressed_slot (Z.rem move 16) < 4.
Proof.
  intros H. rewrite Z.rem_small by lia. unfold addressed_slot.
  destruct (Z.ltb_spec move 4), (Z.ltb_spec move 8); lia.
Qed.

Lemma commit_step_ready r move r' c :
  replay_ready r → commit_step r move r' c → replay_ready r'.
Proof.
  intros Hr Hc.
  assert (∀ k, 0 ≤ k ≤ 2 → deck_ready (nth_deck r' k)) as Hk.
  { intros k Hk. destruct (Z.eq_dec k (addressed_deck (Z.rem move 16))) as [->|Hne].
    - eapply pop_card_ready; [|apply (cs_pop _ _ _ _ Hc)]. by apply nth_deck_ready.
    - rewrite (cs_others _ _ _ _ Hc) by done. by apply nth_deck_ready. }
  split; [apply (Hk 0); lia|]. split; [apply (Hk 1); lia|]. split; [apply (Hk 2); lia|].
  rewrite (cs_bonus _ _ _ _ Hc), length_insert. by destruct Hr as (_ & _ & _ & ?).
Qed.

Lemma play_move_ready ptr r move :
  replay_ready r → building ptr (r_st r) → ptr < 40 → 0 ≤ move < 10 →
  faults_in (λ _, False) (play_move r move) ∧
  ∀ ok r', play_move r move = Ok (ok, r') → replay_ready r'.
Proof.
  intros Hr (Hlen & Hcs & Hsz & Htok) Hptr Hmove. split.
  - rewrite play_move_address.
    apply faults_in_bind.
    { unfold address. apply faults_in_bind; [|intros [[[ok d] st] bonus] _; apply faults_in_Ok].
      apply process_move_no_fault;
        [by apply nth_deck_ready|by apply addressed_slot_range
        |by destruct Hr as (_ & _ & _ & ?)|lia]. }
    intros [ok r1] E. destruct ok; [|apply faults_in_Ok].
    apply address_inv in E as [(? & _)|(_ & d' & c & Hc & _)]; [done|].
    apply faults_in_bind; [|intros; apply faults_in_Ok].
    unfold State.moves_set. apply faults_in_bind; [|intros; apply faults_in_Ok].
    apply faults_in_arr_set. rewrite (cm_state _ _ _ _ _ _ _ _ Hc).
    cbn [State.move_sequence_sz]. lia.
  - intros ok r' H. apply play_move_inv in H as [(-> & ->)|(-> & c & Hc)]; [done|].
    by eapply commit_step_ready.
Qed.

Lemma play_out_loop_ready n ptr cand r :
  seq_ok cand → replay_ready r → building ptr (r_st r) → 0 ≤ ptr →
  ptr + Z.of_nat n ≤ State.move_sequence_sz cand →
  faults_in (λ _, False) (play_out_loop n ptr cand r).
Proof.
  intros Hcand. revert ptr r. induction n as [|n IH]; intros ptr r Hr Hb H0 Hn.
  { apply faults_in_Ok. }
  pose proof Hcand as (Hlen & Hsz & Htok). cbn [play_out_loop].
  rewrite moves_get_in by lia. cbn [mbind result_mbind result_bind].
  assert (0 ≤ nth (Z.to_nat ptr) (State.move_sequence cand) 0 < 10) as Hm
    by (apply Htok; lia).
  destruct (play_move_ready ptr r _ Hr Hb ltac:(lia) Hm) as [Hf Hok].
  destruct (play_move_building ptr r _ Hb ltac:(lia) Hm) as [_ Hbd].
  apply faults_in_bind; [done|]. intros [ok r1] E.
  apply (IH (ptr + 1) r1); [by eapply Hok|by eapply Hbd|lia|lia].
Qed.

(** The replay has no loop without a bound of its own. *)
Lemma process_move_fuel d x st bonus : process_move d x st bonus ≠ OutOfFuel.
Proof.
  unfold process_move. intros H.
  apply bind_OutOfFuel in H as [H|(ok & _ & H)].
  { unfold Deck.can_peak_card in H. destruct (_ <? _); [done|].
    apply bind_OutOfFuel in H as [H|(c & _ & H)]; [by apply arr_get_fuel in H|].
    by destruct (_ =? _). }
  destruct ok; cbn [negb] in H; [|done].
  apply bind_OutOfFuel in H as [H|(c & _ & H)]; [by apply arr_get_fuel in H|].
  destruct (_ =? _); [done|]. destruct (_ <? _); [done|].
  apply bind_OutOfFuel in H as [H|(? & _ & H)]; [by apply arr_get_fuel in H|].
  apply bind_OutOfFuel in H as [H|(? & _ & H)]; [by apply arr_set_fuel in H|].
  apply bind_OutOfFuel in H as [H|(? & _ & H)]; [by apply arr_set_fuel in H|].
  apply bind_OutOfFuel in H as [H|(? & _ & H)]; [|done].
  unfold Deck.pop_card in H.
  apply bind_OutOfFuel in H as [H|(? & _ & H)]; [by apply arr_get_fuel in H|].
  apply bind_OutOfFuel in H as [H|(? & _ & H)]; [by apply arr_set_fuel in H|].
  destruct (_ <? _); [|done].
  apply bind_OutOfFuel in H as [H|(? & _ & H)]; [by apply arr_get_fuel in H|].
  apply bind_OutOfFuel in H as [H|(? & _ & H)]; [by apply arr_set_fuel in H|].
  done.
Qed.

Lemma play_move_fuel r move : play_move r move ≠ OutOfFuel.
Proof.
  rewrite play_move_address. unfold address. intros H.
  apply bind_OutOfFuel in H as [H|([ok r1] & _ & H)].
  { apply bind_OutOfFuel in H as [H|([[[? ?] ?] ?] & _ & H)]; [|done].
    by apply process_move_fuel in H. }
  destruct ok; [|done].
  apply bind_OutOfFuel in H as [H|(? & _ & H)]; [|done].
  unfold State.moves_set in H.
  apply bind_OutOfFuel in H as [H|(? & _ & H)]; [by apply arr_set_fuel in H|done].
Qed.

Lemma play_out_loop_fuel n ptr cand r : play_out_loop n ptr cand r ≠ OutOfFuel.
Proof.
  revert ptr r. induction n as [|n IH]; intros ptr r; [done|]. cbn [play_out_loop].
  intros H. apply bind_OutOfFuel in H as [H|(move & _ & H)].
  { by apply arr_get_fuel in H. }
  apply bind_OutOfFuel in H as [H|([ok r1] & _ & H)]; [by apply play_move_fuel in H|].
  by apply IH in H.
Qed.

Lemma play_out_fuel this d1 d2 d3 cand : play_out this d1 d2 d3 cand ≠ OutOfFuel.
Proof.
  unfold play_out. intros H. apply bind_OutOfFuel in H as [H|(? & _ & H)]; [|done].
  by apply play_out_loop_fuel in H.
Qed.

Lemma play_out_new_no_fault d1 d2 d3 cand :
  seq_ok cand → deck_ready d1 → deck_ready d2 → deck_ready d3 →
  faults_in (λ _, False) (play_out State.new d1 d2 d3 cand).
Proof.
  intros Hcand H1 H2 H3.
  unfold play_out. apply faults_in_bind; [|intros; apply faults_in_Ok].
  pose proof Hcand as (_ & Hsz & _).
  apply play_out_loop_ready; [done|done| |lia|lia].
  split; [done|]. split; [done|]. split; [done|]. intros i Hi. cbn in Hi. lia.
Qed.

(** Against three such decks the replay of a candidate of the search
    always yields a refined state. *)
Lemma play_out_new_defined d1 d2 d3 cand :
  seq_ok cand → deck_ready d1 → deck_ready d2 → deck_ready d3 →
  ∃ refined, play_out State.new d1 d2 d3 cand = Ok refined.
Proof.
  intros Hcand H1 H2 H3.
  pose proof (play_out_new_no_fault d1 d2 d3 cand Hcand H1 H2 H3) as Hf.
  destruct (play_out State.new d1 d2 d3 cand) as [refined|b|] eqn:E.
  - by exists refined.
  - by destruct (Hf b).
  - by apply play_out_fuel in E.
Qed.

(** ** The annealing search *)

Section Search.

Context {temperature : Type}.
Variable start_temp : temperature.
Variable above_final : temperature → bool.
Variable cool : temperature → temperature.
Variable accept : Z → temperature → spec_float → bool.
Variable indet : Z.
Variable full_deck_set : list Card.t.

Lemma anneal_step_inv fuel d1 d2 d3 st best tw temp o :
  anneal_step accept indet fuel d1 d2 d3 st best tw temp = Ok o →
  ∃ tw1,
    mutate_retry fuel fuel (State.set_card_sequence_sz (State.copy indet st) 0) tw
      = Ok (so_cand o, tw1) ∧
    play_out State.new d1 d2 d3 (so_cand o) = Ok (so_refined o) ∧
    so_best o = (if State.points best <? State.points (so_refined o)
                 then so_refined o else best) ∧
    so_st o = (if accept (State.points (so_refined o) - State.points st) temp
                    (Twister.next_float tw1).1
               then so_refined o else st) ∧
    so_twister o = (Twister.next_float tw1).2.
Proof.
  unfold anneal_step. intros H.
  apply bind_Ok in H as ([cand tw1] & Ec & H).
  apply bind_Ok in H as (refined & Er & H).
  destruct (Twister.next_float tw1) as [u tw2] eqn:Eu.
  inversion H; subst; clear H. cbn [so_cand so_refined so_best so_st so_twister].
  exists tw1. by rewrite Eu.
Qed.

Lemma anneal_step_faults fuel d1 d2 d3 st best tw temp :
  seq_ok st →
  faults_in deck_buffer (anneal_step accept indet fuel d1 d2 d3 st best tw temp).
Proof.
  intros Hst. unfold anneal_step.
  pose proof (seq_ok_copy indet st 0 Hst) as Hc.
  destruct (mutate_retry_spec fuel fuel _ tw Hc) as [Hf Hok].
  apply faults_in_bind; [by eapply faults_in_mono; [|apply Hf]|].
  intros [cand tw1] E. destruct (Hok _ _ E) as [Hcand _].
  apply faults_in_bind; [by apply play_out_new_spec|].
  intros refined _. destruct (Twister.next_float tw1). apply faults_in_Ok.
Qed.

Lemma anneal_step_no_fault fuel d1 d2 d3 st best tw temp :
  seq_ok st → deck_ready d1 → deck_ready d2 → deck_ready d3 →
  faults_in (λ _, False) (anneal_step accept indet fuel d1 d2 d3 st best tw temp).
Proof.
  intros Hst H1 H2 H3. unfold anneal_step.
  pose proof (seq_ok_copy indet st 0 Hst) as Hc.
  destruct (mutate_retry_spec fuel fuel _ tw Hc) as [Hf Hok].
  apply faults_in_bind; [done|].
  intros [cand tw1] E. destruct (Hok _ _ E) as [Hcand _].
  apply faults_in_bind; [by apply play_out_new_no_fault|].
  intros refined _. destruct (Twister.next_float tw1). apply faults_in_Ok.
Qed.

Lemma anneal_step_sequences fuel d1 d2 d3 st best tw temp o :
  seq_ok st →
  anneal_step accept indet fuel d1 d2 d3 st best tw temp = Ok o →
  seq_ok (so_cand o) ∧ seq_ok (so_refined o) ∧ seq_ok (so_st o) ∧
  (State.move_sequence_sz (so_cand o) = State.move_sequence_sz st ∨
   (State.move_sequence_sz (so_cand o) = State.move_sequence_sz st + 1 ∧
    State.move_sequence_sz st ≤ 30)) ∧
  State.move_sequence_sz (so_refined o) ≤ State.move_sequence_sz (so_cand o) ∧
  State.card_sequence_sz (so_refined o) = State.move_sequence_sz (so_refined o).
Proof.
  intros Hst H. apply anneal_step_inv in H as (tw1 & Ec & Er & _ & Est & _).
  pose proof (seq_ok_copy indet st 0 Hst) as Hc.
  destruct (proj2 (mutate_retry_spec fuel fuel _ tw Hc) _ _ Ec) as [Hcand Hsz].
  destruct (proj2 (play_out_new_spec d1 d2 d3 _ Hcand) _ Er) as (Href & Hle & Hcs).
  split; [done|]. split; [done|]. split; [|done].
  rewrite Est. by destruct (accept _ _ _).
Qed.

Lemma anneal_step_best fuel d1 d2 d3 st best tw temp o :
  anneal_step accept indet fuel d1 d2 d3 st best tw temp = Ok o →
  (so_best o = best ∧ State.points (so_refined o) ≤ State.points best) ∨
  (so_best o = so_refined o ∧ State.points best < State.points (so_refined o)).
Proof.
  intros H. apply anneal_step_inv in H as (tw1 & _ & _ & -> & _).
  destruct (Z.ltb_spec (State.points best) (State.points (so_refined o))); [by right|by left].
Qed.

Lemma anneal_loop_spec n fuel d1 d2 d3 st best tw temp :
  seq_ok st →
  faults_in deck_buffer
    (anneal_loop above_final cool accept indet n fuel d1 d2 d3 st best tw temp) ∧
  ∀ st' best' tw',
    anneal_loop above_final cool accept indet n fuel d1 d2 d3 st best tw temp
      = Ok (st', best', tw') →
    seq_ok st' ∧ State.points best ≤ State.points best'.
Proof.
  revert st best tw temp. induction n as [|n IH]; intros st best tw temp Hst.
  { split; [apply faults_in_OutOfFuel|done]. }
  cbn [anneal_loop]. destruct (above_final temp).
  - split.
    + apply faults_in_bind; [by apply anneal_step_faults|]. intros o E.
      apply anneal_step_sequences in E as (_ & _ & Hst' & _); [|done].
      by apply IH.
    + intros st' best' tw' H. apply bind_Ok in H as (o & E & H).
      pose proof (anneal_step_best _ _ _ _ _ _ _ _ _ E) as Hb.
      apply anneal_step_sequences in E as (_ & _ & Hst' & _); [|done].
      destruct (proj2 (IH _ (so_best o) (so_twister o) (cool temp) Hst') _ _ _ H) as [? ?].
      split; [done|]. destruct Hb as [[E1 _]|[E1 E2]]; rewrite E1 in *; lia.
  - split; [apply faults_in_Ok|]. intros st' best' tw' [= <- <- <-]. split; [done|lia].
Qed.

Lemma anneal_loop_no_fault n fuel d1 d2 d3 st best tw temp :
  seq_ok st → deck_ready d1 → deck_ready d2 → deck_ready d3 →
  faults_in (λ _, False)
    (anneal_loop above_final cool accept indet n fuel d1 d2 d3 st best tw temp).
Proof.
  intros Hst H1 H2 H3. revert st best tw temp Hst.
  induction n as [|n IH]; intros st best tw temp Hst; [apply faults_in_OutOfFuel|].
  cbn [anneal_loop]. destruct (above_final temp); [|apply faults_in_Ok].
  apply faults_in_bind; [by apply anneal_step_no_fault|]. intros o E.
  apply anneal_step_sequences in E as (_ & _ & Hst' & _); [|done].
  by apply IH.
Qed.

Lemma anneal_loop_best n fuel d1 d2 d3 st best tw temp st' best' tw' :
  anneal_loop above_final cool accept indet n fuel d1 d2 d3 st best tw temp
    = Ok (st', best', tw') →
  State.points best ≤ State.points best'.
Proof.
  revert st best tw temp. induction n as [|n IH]; intros st best tw temp; [done|].
  cbn [anneal_loop]. destruct (above_final temp).
  - intros H. apply bind_Ok in H as (o & E & H). apply IH in H.
    destruct (anneal_step_best _ _ _ _ _ _ _ _ _ E) as [[E1 _]|[E1 E2]];
      rewrite E1 in *; lia.
  - intros [= <- <- <-]. lia.
Qed.

Lemma play_randomly_spec fuel d1 d2 d3 best tw :
  faults_in deck_buffer
    (play_randomly start_temp above_final cool accept indet fuel d1 d2 d3 best tw) ∧
  ∀ best' tw',
    play_randomly start_temp above_final cool accept indet fuel d1 d2 d3 best tw
      = Ok (best', tw') →
    State.points best ≤ State.points best'.
Proof.
  unfold play_randomly.
  destruct (anneal_loop_spec fuel fuel d1 d2 d3 State.new best tw start_temp seq_ok_new)
    as [Hf Hok].
  split.
  - apply faults_in_bind; [done|]. intros [[? ?] ?] _. apply faults_in_Ok.
  - intros best' tw' H. apply bind_Ok in H as ([[st1 b1] tw1] & E & H).
    inversion H; subst. by apply Hok in E as [_ ?].
Qed.

Lemma play_runs_spec k fuel d1 d2 d3 best tw :
  faults_in deck_buffer
    (play_runs start_temp above_final cool accept indet k fuel d1 d2 d3 best tw) ∧
  ∀ best' tw',
    play_runs start_temp above_final cool accept indet k fuel d1 d2 d3 best tw
      = Ok (best', tw') →
    State.points best ≤ State.points best'.
Proof.
  revert best tw. induction k as [|k IH]; intros best tw; cbn [play_runs].
  { split; [apply faults_in_Ok|]. intros ? ? [= <- <-]. lia. }
  destruct (play_randomly_spec fuel d1 d2 d3 best tw) as [Hf Hok]. split.
  - apply faults_in_bind; [done|]. intros [b1 tw1] _. apply IH.
  - intros best' tw' H. apply bind_Ok in H as ([b1 tw1] & E & H).
    apply Hok in E. apply IH in H. lia.
Qed.

(** C6.  One step of the search replaces the best state only by a refined
    state with strictly more points and otherwise keeps it; hence the points
    of the best state do not decrease over the loop of one run, over one
    run, or over the ten runs of [play_single_setting].
    [play_randomized_deck] discards the best state it is given and hands a
    fresh [State()] to the ten runs, after both decks are completed. *)
Theorem best_state_only_improves :
  (∀ fuel d1 d2 d3 st best tw temp o,
     anneal_step accept indet fuel d1 d2 d3 st best tw temp = Ok o →
     (so_best o = best ∧ State.points (so_refined o) ≤ State.points best) ∨
     (so_best o = so_refined o ∧ State.points best < State.points (so_refined o))) ∧
  (∀ n fuel d1 d2 d3 st best tw temp st' best' tw',
     anneal_loop above_final cool accept indet n fuel d1 d2 d3 st best tw temp
       = Ok (st', best', tw') →
     State.points best ≤ State.points best') ∧
  (∀ fuel d1 d2 d3 best tw best' tw',
     play_randomly start_temp above_final cool accept indet fuel d1 d2 d3 best tw
       = Ok (best', tw') →
     State.points best ≤ State.points best') ∧
  (∀ fuel d1 d2 d3 best tw best' tw',
     play_single_setting start_temp above_final cool accept indet fuel d1 d2 d3 best tw
       = Ok (best', tw') →
     State.points best ≤ State.points best') ∧
  (∀ fuel d1 d2 d3 best setup tw best' setup' tw',
     play_randomized_deck start_temp above_final cool accept indet full_deck_set
       fuel d1 d2 d3 best setup tw = Ok (best', setup', tw') →
     ∃ d1' d2' setup1,
       fill_up_randomly fuel 25 (remaining1 full_deck_set (Deck.to_set d1)) setup d1
         = Ok (d1', setup1) ∧
       fill_up_randomly fuel 25 (remaining2 full_deck_set (Deck.to_set d2)) setup1 d2
         = Ok (d2', setup') ∧
       play_runs start_temp above_final cool accept indet 10 fuel
         (reverse_backlog d1') (reverse_backlog d2') d3 State.new tw = Ok (best', tw') ∧
       State.points State.new ≤ State.points best').
Proof.
  split; [|split; [|split; [|split]]].
  - intros. by eapply anneal_step_best.
  - intros n fuel d1 d2 d3 st best tw temp st' best' tw' H.
    by eapply anneal_loop_best.
  - intros fuel d1 d2 d3 best tw best' tw' H.
    by apply (proj2 (play_randomly_spec fuel d1 d2 d3 best tw)) in H.
  - intros fuel d1 d2 d3 best tw best' tw' H. unfold play_single_setting in H.
    by apply (proj2 (play_runs_spec 10 fuel _ _ d3 best tw)) in H.
  - intros fuel d1 d2 d3 best setup tw best' setup' tw' H.
    unfold play_randomized_deck in H.
    apply bind_Ok in H as ([d1' setup1] & E1 & H).
    apply bind_Ok in H as ([d2' setup2] & E2 & H).
    apply bind_Ok in H as ([b a] & E3 & H). inversion H; subst; clear H.
    exists d1', d2', setup1. split; [done|]. split; [done|]. split; [done|].
    by apply (proj2 (play_runs_spec 10 fuel _ _ d3 State.new tw)) in E3.
Qed.

(** C9.  The fresh incumbent of a run is an empty sequence in a 40-entry
    buffer.  From a sequence of at most 31 tokens of [0, 10), [mutate]
    yields such a sequence again, of the same length or, only when the
    length was at most 30, one token longer; the replay of such a candidate
    yields such a sequence no longer than the candidate.  So the incumbent,
    the candidate and the refined state of every step are such sequences,
    and neither the loop of a run nor [play_randomly] ever indexes
    [move_sequence] or [card_sequence] out of range, whatever the decks;
    against decks of catalogue cards in arrays of the declared sizes no
    array at all is indexed out of range. *)
Theorem search_sequences_within_buffers :
  seq_ok State.new ∧
  (∀ fuel st tw ok st' tw',
     seq_ok st → mutate fuel st tw = Ok (ok, st', tw') →
     seq_ok st' ∧
     (State.move_sequence_sz st' = State.move_sequence_sz st ∨
      (State.move_sequence_sz st' = State.move_sequence_sz st + 1 ∧
       State.move_sequence_sz st ≤ 30))) ∧
  (∀ d1 d2 d3 cand refined,
     seq_ok cand → play_out State.new d1 d2 d3 cand = Ok refined →
     seq_ok refined ∧ State.move_sequence_sz refined ≤ State.move_sequence_sz cand) ∧
  (∀ fuel d1 d2 d3 st best tw temp o,
     seq_ok st →
     anneal_step accept indet fuel d1 d2 d3 st best tw temp = Ok o →
     seq_ok (so_cand o) ∧ seq_ok (so_refined o) ∧ seq_ok (so_st o)) ∧
  (∀ n fuel d1 d2 d3 st best tw temp,
     seq_ok st →
     (∀ st' best' tw',
        anneal_loop above_final cool accept indet n fuel d1 d2 d3 st best tw temp
          = Ok (st', best', tw') → seq_ok st') ∧
     (∀ b, anneal_loop above_final cool accept indet n fuel d1 d2 d3 st best tw temp
             = OutOfRange b → ¬ sequence_buffer b)) ∧
  (∀ fuel d1 d2 d3 best tw b,
     play_randomly start_temp above_final cool accept indet fuel d1 d2 d3 best tw
       = OutOfRange b → ¬ sequence_buffer b) ∧
  (∀ fuel d1 d2 d3 best tw b,
     deck_ready d1 → deck_ready d2 → deck_ready d3 →
     play_randomly start_temp above_final cool accept indet fuel d1 d2 d3 best tw
       ≠ OutOfRange b).
Proof.
  split; [apply seq_ok_new|]. split; [|split; [|split; [|split; [|split]]]].
  - intros fuel st tw ok st' tw' Hst H.
    destruct (proj2 (mutate_spec fuel st tw Hst) _ _ _ H) as (? & _ & ? & _). done.
  - intros d1 d2 d3 cand refined Hc H.
    destruct (proj2 (play_out_new_spec d1 d2 d3 cand Hc) _ H) as (? & ? & _). done.
  - intros fuel d1 d2 d3 st best tw temp o Hst H.
    destruct (anneal_step_sequences _ _ _ _ _ _ _ _ _ Hst H) as (? & ? & ? & _). done.
  - intros n fuel d1 d2 d3 st best tw temp Hst.
    destruct (anneal_loop_spec n fuel d1 d2 d3 st best tw temp Hst) as [Hf Hok].
    split.
    + intros st' best' tw' H. by apply Hok in H as [? _].
    + intros b H. by apply deck_buffer_not_sequence, Hf.
  - intros fuel d1 d2 d3 best tw b H.
    by apply deck_buffer_not_sequence, (proj1 (play_randomly_spec fuel d1 d2 d3 best tw)).
  - intros fuel d1 d2 d3 best tw b H1 H2 H3 H. unfold play_randomly in H.
    apply bind_OutOfRange in H as [H|([[? ?] ?] & _ & H)]; [|done].
    by apply (anneal_loop_no_fault fuel fuel d1 d2 d3 State.new best tw start_temp
                seq_ok_new H1 H2 H3) in H.
Qed.

End Search.

Lemma search_sequences_within_buffers_witness :
  ∃ o,
    anneal_step toy_accept 0 8 Deck.new deck_red Deck.new State.new State.new
      tw_insert_4 1%nat = Ok o ∧
    seq_ok (so_cand o) ∧ seq_ok (so_refined o) ∧ seq_ok (so_st o).
Proof.
  destruct (anneal_step toy_accept 0 8 Deck.new deck_red Deck.new State.new State.new
              tw_insert_4 1%nat) as [o| |] eqn:E;
    [|exfalso; vm_compute in E; discriminate E..].
  exists o. split; [reflexivity|].
  exact (proj1 (proj2 (proj2 (proj2
    (search_sequences_within_buffers 1%nat toy_above_final toy_cool toy_accept 0))))
    8%nat Deck.new deck_red Deck.new State.new State.new tw_insert_4 1%nat o seq_ok_new E).
Defined.

Lemma best_state_only_improves_witness :
  ∃ best' tw',
    play_randomly 1%nat toy_above_final toy_cool toy_accept 0 8
      Deck.new deck_red Deck.new State.new tw_insert_4 = Ok (best', tw') ∧
    State.points State.new ≤ State.points best'.
Proof.
  destruct (play_randomly 1%nat toy_above_final toy_cool toy_accept 0 8
              Deck.new deck_red Deck.new State.new tw_insert_4) as [[best' tw']| |] eqn:E;
    [|exfalso; vm_compute in E; discriminate E..].
  exists best', tw'. split; [reflexivity|].
  exact (proj1 (proj2 (proj2
    (best_state_only_improves 1%nat toy_above_final toy_cool toy_accept 0 [])))
    8%nat Deck.new deck_red Deck.new State.new tw_insert_4 best' tw' E).
Defined.

(** ** Colour names, equality and order of cards *)

(** The five costs of a card, spelled out. *)
Lemma cost_five (c : Card.t) :
  length (Card.cost c) = 5%nat →
  Card.cost c = [nth 0 (Card.cost c) 0; nth 1 (Card.cost c) 0; nth 2 (Card.cost c) 0;
                 nth 3 (Card.cost c) 0; nth 4 (Card.cost c) 0].
Proof.
  destruct c as [k ty v]. cbn [Card.cost]. intros H.
  do 5 (destruct k as [|? k]; [discriminate H|]).
  destruct k; [reflexivity|discriminate H].
Qed.

Lemma eqb_eq_five (a b : Card.t) :
  length (Card.cost a) = 5%nat → length (Card.cost b) = 5%nat →
  Card.eqb a b = true ↔ a = b.
Proof.
  intros Ha Hb. split.
  - unfold Card.eqb. rewrite !andb_true_iff, !Z.eqb_eq.
    intros [[[[[[H0 H1] H2] H3] H4] Ht] Hv].
    pose proof (cost_five a Ha) as Ea. pose proof (cost_five b Hb) as Eb.
    destruct a as [ka ta va], b as [kb tb vb]. cbn [Card.cost Card.type Card.value] in *.
    rewrite Ea, Eb. congruence.
  - intros ->. unfold Card.eqb. rewrite !Z.eqb_refl. reflexivity.
Qed.

Lemma card_in_spec (c : Card.t) (s : list Card.t) :
  length (Card.cost c) = 5%nat → Forall (λ x, length (Card.cost x) = 5%nat) s →
  card_in c s = true ↔ c ∈ s.
Proof.
  intros Hc Hs. unfold card_in. rewrite existsb_exists. split.
  - intros (x & Hx & He). apply list_elem_of_In in Hx.
    rewrite Forall_forall in Hs.
    apply eqb_eq_five in He; [subst x; exact Hx|exact Hc|by apply Hs].
  - intros Hin. exists c. split; [by apply list_elem_of_In|].
    by apply eqb_eq_five.
Qed.


Ltac compare_fields :=
  repeat (match goal with
          | |- context [?x =? ?y] => destruct (Z.eqb_spec x y)
          | |- context [?x <? ?y] => destruct (Z.ltb_spec x y)
          end; cbn [negb andb]; try lia);
  try done.

(** X2.  [operator<] on cards is a strict order (irreflexive, asymmetric,
    transitive), and two cards are unordered by it exactly when [operator==]
    holds, so the lookups of [set<Card>] find exactly the equal cards;
    [operator==] is symmetric and, on cards with five costs, is equality of
    all seven fields. *)
Theorem card_order_agrees_with_equality (a b c : Card.t) :
  Card.ltb a a = false ∧
  (Card.ltb a b = true → Card.ltb b a = false) ∧
  (Card.ltb a b = true → Card.ltb b c = true → Card.ltb a c = true) ∧
  (Card.ltb a b = false ∧ Card.ltb b a = false ↔ Card.eqb a b = true) ∧
  (Card.eqb a b = Card.eqb b a) ∧
  (length (Card.cost a) = 5%nat → length (Card.cost b) = 5%nat →
   (Card.eqb a b = true ↔ a = b)).
Proof.
  split; [|split; [|split; [|split; [|split]]]].
  - unfold Card.ltb. rewrite !Z.eqb_refl. cbn [negb]. apply Z.ltb_irrefl.
  - unfold Card.ltb. compare_fields.
  - unfold Card.ltb.
    generalize (nth 0 (Card.cost a) 0) (nth 1 (Card.cost a) 0) (nth 2 (Card.cost a) 0)
               (nth 3 (Card.cost a) 0) (nth 4 (Card.cost a) 0) (Card.type a) (Card.value a).
    generalize (nth 0 (Card.cost b) 0) (nth 1 (Card.cost b) 0) (nth 2 (Card.cost b) 0)
               (nth 3 (Card.cost b) 0) (nth 4 (Card.cost b) 0) (Card.type b) (Card.value b).
    generalize (nth 0 (Card.cost c) 0) (nth 1 (Card.cost c) 0) (nth 2 (Card.cost c) 0)
               (nth 3 (Card.cost c) 0) (nth 4 (Card.cost c) 0) (Card.type c) (Card.value c).
    do 21 intro. compare_fields.
  - unfold Card.ltb, Card.eqb. compare_fields; split; (done || intros [? ?]; done).
  - unfold Card.eqb. compare_fields.
  - apply eqb_eq_five.
Qed.

Lemma card_order_agrees_with_equality_witness :
  Card.ltb card_a card_b = false ∧ Card.ltb card_b card_green = true ∧
  Card.ltb card_green card_red1 = true ∧
  Card.ltb card_b card_red1 = true ∧ (Card.eqb card_a card_a = true ↔ card_a = card_a).
Proof.
  split; [reflexivity|]. split; [reflexivity|]. split; [reflexivity|].
  split.
  - exact (proj1 (proj2 (proj2 (card_order_agrees_with_equality card_b card_green card_red1)))
             eq_refl eq_refl).
  - exact (proj2 (proj2 (proj2 (proj2 (proj2
             (card_order_agrees_with_equality card_a card_a card_a)))))
             eq_refl eq_refl).
Defined.

(** ** Decks as they are dealt and played *)

Lemma insert_app_replicate {A : Type} (l : list A) (n : nat) (x e : A) :
  <[length l := x]> (l ++ replicate (S n) e) = (l ++ [x]) ++ replicate n e.
Proof.
  rewrite insert_app_r_alt by lia. rewrite Nat.sub_diag. cbn.
  by rewrite <- app_assoc.
Qed.

Lemma deck_of_shape (tbl backlog : list Card.t) :
  (length tbl ≤ 4)%nat → (length backlog ≤ 30)%nat → deck_shape (deck_of tbl backlog).
Proof.
  intros Ht Hb. unfold deck_shape, deck_of.
  cbn [Deck.table Deck.q Deck.table_sz Deck.q_sz].
  rewrite !length_app, !length_replicate. lia.
Qed.

Lemma deck_of_table_cards (tbl backlog : list Card.t) :
  Deck.table_cards (deck_of tbl backlog) = tbl.
Proof.
  unfold Deck.table_cards, deck_of. cbn [Deck.table Deck.table_sz].
  rewrite Nat2Z.id. apply take_app_length.
Qed.

Lemma deck_of_q_cards (tbl backlog : list Card.t) :
  Deck.q_cards (deck_of tbl backlog) = backlog.
Proof.
  unfold Deck.q_cards, deck_of. cbn [Deck.q Deck.q_sz].
  rewrite Nat2Z.id. apply take_app_length.
Qed.

Lemma dealt_shape (l : list Card.t) : (length l ≤ 34)%nat → deck_shape (dealt l).
Proof.
  intros H. apply deck_of_shape; [rewrite length_take|rewrite length_drop]; lia.
Qed.

Lemma dealt_nil : dealt [] = Deck.new.
Proof. reflexivity. Qed.

(** One more card on a deck that holds the cards [a]. *)
Lemma add_card_dealt (a : list Card.t) (c : Card.t) :
  ((length a < 34)%nat → Deck.add_card (dealt a) c = Ok (dealt (a ++ [c]))) ∧
  (length a = 34%nat → Deck.add_card (dealt a) c = OutOfRange BufBacklog).
Proof.
  unfold Deck.add_card, dealt, deck_of.
  cbn [Deck.table Deck.q Deck.table_sz Deck.q_sz].
  destruct (Nat.lt_ge_cases (length a) 4) as [Hlt|Hge].
  - rewrite (take_ge a 4), (drop_ge a 4) by lia.
    rewrite (take_ge (a ++ [c]) 4) by (rewrite length_app; cbn; lia).
    rewrite (drop_ge (a ++ [c]) 4) by (rewrite length_app; cbn; lia).
    destruct (Z.ltb_spec (Z.of_nat (length a)) 4); [|lia].
    split; [intros _|lia].
    rewrite arr_set_in by lia. cbn [mbind result_mbind result_bind].
    rewrite Nat2Z.id, length_app. cbn [length].
    replace (4 - length a)%nat with (S (4 - (length a + 1))) by lia.
    rewrite insert_app_replicate. do 2 f_equal. lia.
  - rewrite (take_app_le a [c] 4) by lia.
    rewrite (drop_app_le a [c] 4) by lia.
    pose proof (length_drop a 4) as Hb. pose proof (length_take a 4) as Ht.
    set (b := drop 4 a) in *. set (t := take 4 a) in *.
    rewrite length_app. cbn [length].
    destruct (Z.ltb_spec (Z.of_nat (length t)) 4); [lia|].
    split; intros Hn.
    + rewrite arr_set_in by lia. cbn [mbind result_mbind result_bind].
      rewrite Nat2Z.id.
      replace (30 - length b)%nat with (S (30 - (length b + 1))) by lia.
      rewrite insert_app_replicate. do 2 f_equal. lia.
    + unfold arr_set.
      destruct (Z.ltb_spec (Z.of_nat (length b)) 30); [lia|].
      by rewrite andb_false_r.
Qed.

Lemma add_cards_dealt (l a : list Card.t) :
  ((length a + length l ≤ 34)%nat → add_cards l (dealt a) = Ok (dealt (a ++ l))) ∧
  ((length a ≤ 34 < length a + length l)%nat →
   add_cards l (dealt a) = OutOfRange BufBacklog).
Proof.
  revert a. induction l as [|c l IH]; intros a.
  - split; [|cbn; lia]. intros _. by rewrite app_nil_r.
  - cbn [add_cards length].
    destruct (add_card_dealt a c) as [Hadd Hfull].
    destruct (IH (a ++ [c])) as [IH1 IH2]. rewrite length_app in IH1, IH2.
    cbn [length] in IH1, IH2. split; intros H.
    + rewrite Hadd by lia. cbn [mbind result_mbind result_bind].
      rewrite IH1 by lia. by rewrite <- app_assoc.
    + destruct (decide (length a = 34%nat)) as [E|E].
      * by rewrite Hfull.
      * rewrite Hadd by lia. cbn [mbind result_mbind result_bind].
        apply IH2. lia.
Qed.

(** X3.  Cards added to a fresh deck with [add_card] fill the four table
    slots first and then the backlog, both in the order of the calls: up to
    34 cards are all stored, the first four on the table and the others in
    the backlog, and [table_sz] and [q_sz] count them.  The 35th card is
    written past the end of the backlog array. *)
Theorem add_cards_table_then_backlog (l : list Card.t) :
  ((length l ≤ 34)%nat →
   ∃ d, add_cards l Deck.new = Ok d ∧ d = dealt l ∧ deck_shape d ∧
        Deck.table_cards d = take 4 l ∧ Deck.q_cards d = drop 4 l ∧
        Deck.table_sz d = Z.of_nat (length (take 4 l)) ∧
        Deck.q_sz d = Z.of_nat (length (drop 4 l))) ∧
  ((34 < length l)%nat → add_cards l Deck.new = OutOfRange BufBacklog).
Proof.
  rewrite <- dealt_nil. destruct (add_cards_dealt l []) as [H1 H2].
  cbn [length] in H1, H2. split; intros H.
  - exists (dealt l). rewrite H1 by lia. cbn [app].
    split; [done|]. split; [done|]. split; [by apply dealt_shape|].
    unfold dealt.
    rewrite deck_of_table_cards, deck_of_q_cards.
    split; [done|]. split; [done|]. done.
  - apply H2. lia.
Qed.

Lemma add_cards_table_then_backlog_witness :
  (∃ d, add_cards (replicate 5 card_a ++ [card_b]) Deck.new = Ok d ∧
        d = dealt (replicate 5 card_a ++ [card_b]) ∧ deck_shape d ∧
        Deck.table_cards d = replicate 4 card_a ∧ Deck.q_cards d = [card_a; card_b] ∧
        Deck.table_sz d = 4 ∧ Deck.q_sz d = 2) ∧
  add_cards (replicate 35 card_a) Deck.new = OutOfRange BufBacklog.
Proof.
  split.
  - refine (proj1 (add_cards_table_then_backlog (replicate 5 card_a ++ [card_b])) _).
    cbn. lia.
  - refine (proj2 (add_cards_table_then_backlog (replicate 35 card_a)) _).
    cbn. lia.
Defined.

Lemma count_insert {A : Type} (P : A → bool) (l : list A) (i : nat) (x d : A) :
  (i < length l)%nat →
  (length (List.filter P (<[i := x]> l)) + (if P (nth i l d) then 1 else 0)
   = length (List.filter P l) + (if P x then 1 else 0))%nat.
Proof.
  revert i. induction l as [|a l IH]; intros [|i] H; cbn [length] in H; try lia.
  - change (<[0%nat := x]> (a :: l)) with (x :: l). cbn [List.filter nth].
    destruct (P a), (P x); cbn [length]; lia.
  - change (<[S i := x]> (a :: l)) with (a :: <[i := x]> l). cbn [List.filter nth].
    specialize (IH i ltac:(lia)).
    destruct (P a), (P (nth i l d)), (P x); cbn [length] in *; lia.
Qed.

Lemma count_le {A : Type} (P : A → bool) (l : list A) :
  (length (List.filter P l) ≤ length l)%nat.
Proof.
  induction l as [|a l IH]; cbn [List.filter length]; [lia|].
  destruct (P a); cbn [length]; lia.
Qed.

Lemma count_all {A : Type} (P : A → bool) (l : list A) :
  Forall (λ x, P x = true) l → List.filter P l = l.
Proof. induction 1 as [|a l Ha _ IH]; cbn; [done|]. by rewrite Ha, IH. Qed.

Lemma count_none {A : Type} (P : A → bool) (n : nat) (e : A) :
  P e = false → List.filter P (replicate n e) = [].
Proof. intros He. induction n as [|n IH]; cbn; [done|]. by rewrite He. Qed.

Lemma shown_true (c : Card.t) : shown c = true ↔ Card.type c ≠ -1.
Proof. unfold shown. destruct (Z.eqb_spec (Card.type c) (-1)); cbn; split; done. Qed.

Lemma occupied_le (d : Deck.t) : deck_shape d → 0 ≤ occupied d ≤ 4.
Proof.
  intros (Ht & _). unfold occupied.
  pose proof (count_le shown (Deck.table d)). lia.
Qed.

Lemma refilled_dealt (l : list Card.t) :
  (length l ≤ 34)%nat → Forall (λ c, Card.type c ≠ -1) l →
  refilled (Z.of_nat (length l)) (dealt l).
Proof.
  intros Hlen Hl.
  assert (Hs : Forall (λ c, shown c = true) l).
  { eapply Forall_impl; [exact Hl|]. intros c. apply shown_true. }
  assert (Hocc : occupied (dealt l) = Z.of_nat (length (take 4 l))).
  { unfold occupied, dealt, deck_of. cbn [Deck.table].
    rewrite List.filter_app, count_none by done.
    rewrite app_nil_r, count_all; [done|]. by apply Forall_take. }
  split; [by apply dealt_shape|]. split; [|split].
  - unfold dealt. rewrite deck_of_q_cards. by apply Forall_drop.
  - rewrite Hocc. unfold dealt, deck_of. cbn [Deck.q_sz].
    rewrite length_take, length_drop. lia.
  - rewrite Hocc. unfold dealt, deck_of. cbn [Deck.q_sz].
    rewrite length_take, length_drop. lia.
Qed.

Lemma can_peak_card_true (d : Deck.t) (idx : Z) :
  Deck.can_peak_card d idx = Ok true →
  0 ≤ idx < 4 ∧ idx ≤ Deck.table_sz d ∧
  shown (nth (Z.to_nat idx) (Deck.table d) Card.empty) = true.
Proof.
  unfold Deck.can_peak_card, Deck.table_get.
  destruct (Z.ltb_spec (Deck.table_sz d) idx); [done|].
  intros H'. apply bind_Ok in H' as (c & Ec & H').
  apply arr_get_Ok in Ec as [Hidx ->]. unfold shown.
  destruct (Z.eqb_spec (Card.type (nth (Z.to_nat idx) (Deck.table d) Card.empty)) (-1));
    [done|]. done.
Qed.

(** [pop_card] on a slot of the table, computed. *)
Lemma pop_card_in (d : Deck.t) (idx : Z) :
  deck_shape d → 0 ≤ idx < 4 →
  Deck.pop_card d idx =
  Ok (if 0 <? Deck.q_sz d
      then Deck.mk (<[Z.to_nat idx := nth (Z.to_nat (Deck.q_sz d - 1)) (Deck.q d) Card.empty]>
                      (Deck.table d))
             (Deck.table_sz d) (Deck.q d) (Deck.q_sz d - 1)
      else Deck.mk (<[Z.to_nat idx :=
                        Card.with_type (nth (Z.to_nat idx) (Deck.table d) Card.empty) (-1)]>
                      (Deck.table d))
             (Deck.table_sz d) (Deck.q d) (Deck.q_sz d)).
Proof.
  intros (Ht & Hq & Htsz & Hqsz) Hidx. unfold Deck.pop_card, Deck.table_get.
  rewrite (arr_get_in 4) by lia. cbn [mbind result_mbind result_bind].
  rewrite (arr_set_in 4) by lia. cbn [mbind result_mbind result_bind].
  destruct (Z.ltb_spec 0 (Deck.q_sz d)); [|done].
  rewrite (arr_get_in 30) by lia. cbn [mbind result_mbind result_bind].
  rewrite (arr_set_in 4) by lia. cbn [mbind result_mbind result_bind].
  by rewrite list_insert_insert_eq.
Qed.

Lemma pop_card_refilled (n : Z) (d d' : Deck.t) (idx : Z) :
  refilled n d → Deck.can_peak_card d idx = Ok true → Deck.pop_card d idx = Ok d' →
  refilled (n - 1) d'.
Proof.
  intros (Hshape & Hq & Hn & Hfull) Hpeek Hpop.
  apply can_peak_card_true in Hpeek as (Hidx & _ & Hshown).
  pose proof (pop_card_shape _ _ _ Hshape Hpop) as Hshape'.
  rewrite pop_card_in in Hpop by done.
  destruct Hshape as (Ht & Hlq & Htsz & Hqsz).
  assert (Hi : (Z.to_nat idx < length (Deck.table d))%nat) by lia.
  destruct (Z.ltb_spec 0 (Deck.q_sz d)) as [Hpos|Hzero];
    inversion Hpop; subst d'; clear Hpop;
    (split; [done|]); unfold occupied, Deck.q_cards in *;
    cbn [Deck.table Deck.q Deck.q_sz] in *.
  - assert (Hlast : shown (nth (Z.to_nat (Deck.q_sz d - 1)) (Deck.q d) Card.empty) = true).
    { rewrite Forall_forall in Hq. apply Hq. apply list_elem_of_In.
      rewrite <- (take_drop (Z.to_nat (Deck.q_sz d)) (Deck.q d)) at 1.
      rewrite app_nth1 by (rewrite length_take; lia).
      apply nth_In. rewrite length_take. lia. }
    pose proof (count_insert shown (Deck.table d) (Z.to_nat idx)
                  (nth (Z.to_nat (Deck.q_sz d - 1)) (Deck.q d) Card.empty)
                  Card.empty Hi) as Hc.
    rewrite Hshown, Hlast in Hc. cbv iota in Hc. split; [|split].
    + replace (Z.to_nat (Deck.q_sz d - 1)) with (Z.to_nat (Deck.q_sz d) - 1)%nat by lia.
      replace (take (Z.to_nat (Deck.q_sz d) - 1) (Deck.q d))
        with (take (Z.to_nat (Deck.q_sz d) - 1) (take (Z.to_nat (Deck.q_sz d)) (Deck.q d)))
        by (rewrite take_take; f_equal; lia).
      by apply Forall_take.
    + lia.
    + intros _. specialize (Hfull Hpos). lia.
  - pose proof (count_insert shown (Deck.table d) (Z.to_nat idx)
                  (Card.with_type (nth (Z.to_nat idx) (Deck.table d) Card.empty) (-1))
                  Card.empty Hi) as Hc.
    rewrite Hshown in Hc. change (shown (Card.with_type _ (-1))) with false in Hc.
    cbv iota in Hc. split; [done|]. split; lia.
Qed.

Lemma take_cards_refilled (idxs : list Z) (n k : Z) (d d' : Deck.t) :
  refilled n d → take_cards idxs d = Ok (k, d') → 0 ≤ k ∧ refilled (n - k) d'.
Proof.
  revert n k d. induction idxs as [|idx rest IH]; intros n k d Hd H.
  - inversion H; subst. by rewrite Z.sub_0_r.
  - cbn [take_cards] in H. apply bind_Ok in H as (ok & Eok & H).
    destruct ok; cbn [negb] in H.
    + apply bind_Ok in H as (d1 & Epop & H).
      apply bind_Ok in H as ([k1 d2] & Erest & H). inversion H; subst; clear H.
      pose proof (pop_card_refilled _ _ _ _ Hd Eok Epop) as Hd1.
      destruct (IH _ _ _ Hd1 Erest) as [Hk Hd2].
      split; [lia|]. by replace (n - (k1 + 1)) with (n - 1 - k1) by lia.
    + by apply (IH n k d).
Qed.

(** X4.  After the cards [l] (none of them an empty slot, at most 34)
    were added and [k] cards were taken the way [process_move] takes them,
    the number of occupied table slots is [min 4 (|l| - k)] and the backlog
    holds [max 0 (|l| - 4 - k)] cards; no more cards are taken than were
    added. *)
Theorem occupied_slots_after_pops (l : list Card.t) (idxs : list Z) (k : Z) (d : Deck.t) :
  (length l ≤ 34)%nat → Forall (λ c, Card.type c ≠ -1) l →
  take_cards idxs (dealt l) = Ok (k, d) →
  0 ≤ k ≤ Z.of_nat (length l) ∧
  occupied d = 4 `min` (Z.of_nat (length l) - k) ∧
  Deck.q_sz d = 0 `max` (Z.of_nat (length l) - 4 - k).
Proof.
  intros Hlen Hl H.
  destruct (take_cards_refilled _ _ _ _ _ (refilled_dealt l Hlen Hl) H)
    as (Hk & Hshape & _ & Hn & Hfull).
  pose proof (occupied_le d Hshape) as Hocc.
  destruct Hshape as (_ & _ & _ & Hq). lia.
Qed.

Lemma occupied_slots_after_pops_witness :
  ∃ k d, take_cards [1; 1; 1; 3; 1] (dealt (replicate 6 card_a)) = Ok (k, d) ∧
         0 ≤ k ≤ 6 ∧ occupied d = 4 `min` (6 - k) ∧ Deck.q_sz d = 0 `max` (6 - 4 - k).
Proof.
  destruct (take_cards [1; 1; 1; 3; 1] (dealt (replicate 6 card_a))) as [[k d]| |] eqn:E;
    [|exfalso; vm_compute in E; discriminate E..].
  exists k, d. split; [reflexivity|].
  apply (occupied_slots_after_pops (replicate 6 card_a) [1; 1; 1; 3; 1] k d).
  - cbn. lia.
  - repeat constructor; cbn; lia.
  - exact E.
Defined.

(** One [pop_card] while the backlog is not empty: its last live card
    comes to the table. *)
Lemma pop_card_reveal (d : Deck.t) (idx : Z) (qs : list Card.t) (c : Card.t) :
  deck_shape d → 0 ≤ idx < 4 → Deck.q_cards d = qs ++ [c] →
  ∃ d', Deck.pop_card d idx = Ok d' ∧ Deck.table_get d' idx = Ok c ∧
        Deck.q_cards d' = qs ∧ deck_shape d'.
Proof.
  intros Hshape Hidx Hq.
  pose proof Hshape as (Ht & Hlq & Htsz & Hqsz).
  assert (Hk : Z.to_nat (Deck.q_sz d) = S (length qs)).
  { apply (f_equal length) in Hq. unfold Deck.q_cards in Hq.
    rewrite length_take, length_app in Hq. cbn [length] in Hq. lia. }
  assert (Hc : nth (length qs) (Deck.q d) Card.empty = c).
  { pose proof (nth_firstn (Z.to_nat (Deck.q_sz d)) (Deck.q d) (length qs) Card.empty) as E.
    unfold Deck.q_cards in Hq. rewrite Hq, Hk in E.
    rewrite app_nth2, Nat.sub_diag in E by lia. cbn [nth] in E.
    destruct (Nat.ltb_spec (length qs) (S (length qs))); [done|lia]. }
  eexists. split; [apply pop_card_in; done|].
  destruct (Z.ltb_spec 0 (Deck.q_sz d)); [|lia].
  unfold Deck.table_get, Deck.q_cards. cbn [Deck.table Deck.q Deck.q_sz].
  replace (Z.to_nat (Deck.q_sz d - 1)) with (length qs) by lia.
  split; [|split].
  - rewrite arr_get_in by lia. f_equal. rewrite nth_insert_eq by lia. exact Hc.
  - unfold Deck.q_cards in Hq.
    replace (take (length qs) (Deck.q d))
      with (take (length qs) (take (Z.to_nat (Deck.q_sz d)) (Deck.q d)))
      by (rewrite take_take; f_equal; lia).
    rewrite Hq. apply take_app_length.
  - unfold deck_shape. cbn [Deck.table Deck.q Deck.table_sz Deck.q_sz].
    rewrite length_insert. lia.
Qed.

(** Successive pops reveal the backlog from its top, whatever slots are
    popped. *)
Lemma pop_cards_reveal (pre : list Z) (i : Z) (stack : list Card.t) (d : Deck.t) :
  deck_shape d → Deck.q_cards d = rev stack →
  Forall (λ x, 0 ≤ x < 4) (pre ++ [i]) → (length pre < length stack)%nat →
  ∃ d', pop_cards (pre ++ [i]) d = Ok d' ∧
        Deck.table_get d' i = Ok (nth (length pre) stack Card.empty) ∧
        Deck.q_cards d' = rev (drop (S (length pre)) stack) ∧ deck_shape d'.
Proof.
  revert stack d. induction pre as [|j pre IH]; intros stack d Hshape Hq Hidx Hlen;
    destruct stack as [|c st]; cbn [length] in Hlen; try lia;
    cbn [rev] in Hq; cbn [app pop_cards].
  - apply Forall_cons in Hidx as [Hi _].
    destruct (pop_card_reveal d i (rev st) c Hshape Hi Hq) as (d' & E & Hget & Hq' & Hs').
    exists d'. rewrite E. cbn [mbind result_mbind result_bind nth length drop].
    by rewrite drop_0.
  - cbn [app] in Hidx. apply Forall_cons in Hidx as [Hj Hrest].
    destruct (pop_card_reveal d j (rev st) c Hshape Hj Hq) as (d1 & E & _ & Hq1 & Hs1).
    rewrite E. cbn [mbind result_mbind result_bind length nth].
    destruct (IH st d1 Hs1 Hq1 Hrest ltac:(lia)) as (d' & E' & Hget & Hq' & Hs').
    exists d'. split; [done|]. split; [done|]. split; [|done]. exact Hq'.
Qed.

Lemma reverse_backlog_q_cards (d : Deck.t) :
  deck_shape d → Deck.q_cards (reverse_backlog d) = rev (Deck.q_cards d).
Proof.
  intros (_ & Hlq & _ & Hqsz). unfold Deck.q_cards, reverse_backlog.
  cbn [Deck.q Deck.q_sz].
  rewrite take_app_ge by (rewrite length_rev, length_take; lia).
  rewrite length_rev, length_take.
  replace (Z.to_nat (Deck.q_sz d) - Z.to_nat (Deck.q_sz d) `min` length (Deck.q d))%nat
    with 0%nat by lia.
  cbn [take]. by rewrite app_nil_r.
Qed.

Lemma reverse_backlog_shape (d : Deck.t) : deck_shape d → deck_shape (reverse_backlog d).
Proof.
  intros (Ht & Hlq & Htsz & Hqsz). unfold deck_shape, reverse_backlog.
  cbn [Deck.table Deck.q Deck.table_sz Deck.q_sz].
  rewrite length_app, length_rev, length_take, length_drop. lia.
Qed.

(** X5.  [pop_card] refills a slot from the top of the backlog.  After the
    reversal of [play_single_setting] the backlog cards come to the table in
    the order in which they were added: whatever slots are popped, the
    [j]-th pop reveals the [(4 + j)]-th card.  Without the reversal, as for
    the third deck, they come in the opposite order, the card added last
    first. *)
Theorem backlog_reveal_order (l : list Card.t) (pre : list Z) (i : Z) :
  (4 + length pre < length l ≤ 34)%nat → Forall (λ x, 0 ≤ x < 4) (pre ++ [i]) →
  (∃ d', pop_cards (pre ++ [i]) (reverse_backlog (dealt l)) = Ok d' ∧
         Deck.table_get d' i = Ok (nth (4 + length pre) l Card.empty)) ∧
  (∃ d', pop_cards (pre ++ [i]) (dealt l) = Ok d' ∧
         Deck.table_get d' i = Ok (nth (length l - 1 - length pre) l Card.empty)).
Proof.
  intros Hlen Hidx.
  assert (Hshape : deck_shape (dealt l)) by (apply dealt_shape; lia).
  assert (Hq : Deck.q_cards (dealt l) = drop 4 l) by apply deck_of_q_cards.
  split.
  - destruct (pop_cards_reveal pre i (drop 4 l) (reverse_backlog (dealt l)))
      as (d' & E & Hget & _); [by apply reverse_backlog_shape| |done| |].
    + by rewrite reverse_backlog_q_cards, Hq.
    + rewrite length_drop. lia.
    + exists d'. split; [done|]. by rewrite nth_skipn in Hget.
  - destruct (pop_cards_reveal pre i (rev (drop 4 l)) (dealt l))
      as (d' & E & Hget & _); [done| |done| |].
    + by rewrite rev_involutive.
    + rewrite length_rev, length_drop. lia.
    + exists d'. split; [done|]. rewrite Hget. f_equal.
      rewrite rev_nth by (rewrite length_drop; lia).
      rewrite nth_skipn, length_drop. f_equal. lia.
Qed.

Lemma backlog_reveal_order_witness :
  (∃ d', pop_cards [2] (reverse_backlog (dealt [card_a; card_a; card_a; card_a;
                                                 card_b; card_green; card_red1]))
         = Ok d' ∧ Deck.table_get d' 2 = Ok card_b) ∧
  (∃ d', pop_cards [2] (dealt [card_a; card_a; card_a; card_a;
                               card_b; card_green; card_red1])
         = Ok d' ∧ Deck.table_get d' 2 = Ok card_red1).
Proof.
  apply (backlog_reveal_order
           [card_a; card_a; card_a; card_a; card_b; card_green; card_red1] [] 2).
  - cbn. lia.
  - repeat constructor; lia.
Defined.

Lemma reverse_backlog_ready (d : Deck.t) : deck_ready d → deck_ready (reverse_backlog d).
Proof.
  intros [Hshape [Htbl Hqc]]. split; [by apply reverse_backlog_shape|].
  split; [done|]. rewrite reverse_backlog_q_cards by done. by apply Forall_rev.
Qed.

(** X6.  The reversal of the backlog in [play_single_setting] is an
    involution on a deck with its declared array sizes; it reverses the live
    part of the backlog, leaves the table alone, keeps the cards of the deck
    and keeps a deck of catalogue cards one. *)
Theorem reverse_backlog_involutive (d : Deck.t) :
  deck_shape d →
  reverse_backlog (reverse_backlog d) = d ∧
  Deck.q_cards (reverse_backlog d) = rev (Deck.q_cards d) ∧
  Deck.table (reverse_backlog d) = Deck.table d ∧
  Deck.to_set (reverse_backlog d) ≡ₚ Deck.to_set d ∧
  deck_shape (reverse_backlog d) ∧
  (deck_ready d → deck_ready (reverse_backlog d)).
Proof.
  intros Hshape. pose proof (reverse_backlog_q_cards d Hshape) as Hq.
  pose proof (reverse_backlog_shape d Hshape) as Hs'.
  split; [|split; [done|split; [done|split; [|split; [done|]]]]].
  - destruct Hshape as (_ & Hlq & _ & Hqsz).
    destruct d as [tbl tsz q qsz]. unfold reverse_backlog.
    cbn [Deck.table Deck.table_sz Deck.q Deck.q_sz] in *. f_equal.
    rewrite take_app_length', drop_app_length' by (rewrite length_rev, length_take; lia).
    rewrite rev_involutive. apply take_drop.
  - unfold Deck.to_set. rewrite Hq. apply Permutation_app; [done|].
    symmetry. apply Permutation_rev.
  - apply reverse_backlog_ready.
Qed.

Lemma reverse_backlog_involutive_witness :
  reverse_backlog (reverse_backlog deck_ab) = deck_ab ∧
  Deck.q_cards (reverse_backlog deck_ab) = replicate 25 card_a ++ [card_b].
Proof.
  assert (H : deck_shape deck_ab) by (apply deck_of_shape; cbn; lia).
  destruct (reverse_backlog_involutive deck_ab H) as (H1 & H2 & _).
  split; [exact H1|]. rewrite H2. reflexivity.
Defined.

(** ** The input loop of [main] *)

(** The card that [read_from_string] starts from has no influence on what
    the line is found to be, nor on the card it describes. *)
Lemma read_from_string_kind (c : Card.t) (line : string) :
  length (Card.cost c) = 5%nat →
  match parse_line line with
  | UnknownColour => Card.read_from_string c line = None
  | Malformed =>
      ∃ c', Card.read_from_string c line = Some (false, c') ∧
            length (Card.cost c') = 5%nat
  | Describes card =>
      Card.read_from_string c line = Some (true, card) ∧
      length (Card.cost card) = 5%nat ∧ 0 ≤ Card.type card ≤ 4
  end.
Proof.
  destruct c as [ks ty v]. cbn [Card.cost]. intros Hks.
  destruct ks as [|k0 [|k1 [|k2 [|k3 [|k4 [|k5 ks]]]]]]; try discriminate Hks.
  unfold parse_line, Card.read_from_string, Card.empty. cbn [Card.read_costs].
  destruct (extract_int line) as [[x0 s0]|]; [|by eexists].
  cbn -[to_char extract_int]. destruct (extract_int s0) as [[x1 s1]|]; [|by eexists].
  cbn -[to_char extract_int]. destruct (extract_int s1) as [[x2 s2]|]; [|by eexists].
  cbn -[to_char extract_int]. destruct (extract_int s2) as [[x3 s3]|]; [|by eexists].
  cbn -[to_char extract_int]. destruct (extract_int s3) as [[x4 s4]|]; [|by eexists].
  cbn -[to_char extract_int extract_word].
  destruct (extract_word s4) as [[buff s5]|]; [|by eexists].
  assert (∀ k, Card.color_str_to_int buff = Some k → 0 ≤ k ≤ 4) as Hcol.
  { intros k. unfold Card.color_str_to_int.
    repeat (match goal with |- context [String.eqb buff ?x] => destruct (String.eqb buff x) end;
            [intros [= <-]; lia|]).
    discriminate. }
  destruct (Card.color_str_to_int buff) as [k|]; [|done].
  specialize (Hcol k eq_refl).
  destruct (extract_int s5) as [[y s6]|]; [|by eexists].
  cbn [Card.cost Card.type]. done.
Qed.

Lemma parse_line_card (line : string) (c : Card.t) :
  parse_line line = Describes c → length (Card.cost c) = 5%nat ∧ 0 ≤ Card.type c ≤ 4.
Proof.
  intros H. pose proof (read_from_string_kind Card.empty line eq_refl) as Hk.
  rewrite H in Hk. apply Hk.
Qed.

Lemma input_cards_five (stdin : list string) :
  Forall (λ c, length (Card.cost c) = 5%nat) (input_cards stdin).
Proof.
  induction stdin as [|line rest IH]; cbn [input_cards]; [constructor|].
  destruct (parse_line line) as [| |c] eqn:E; try done.
  constructor; [by apply parse_line_card in E as [? _]|done].
Qed.

Lemma read_next_card (c : Card.t) (stdin : list string) :
  length (Card.cost c) = 5%nat →
  match next_card stdin with
  | None => Card.read c stdin = None
  | Some None => ∃ c', Card.read c stdin = Some (false, c', [])
  | Some (Some (card, rest)) => Card.read c stdin = Some (true, card, rest)
  end.
Proof.
  revert c. induction stdin as [|line rest IH]; intros c Hc; cbn [next_card Card.read].
  - by eexists.
  - pose proof (read_from_string_kind c line Hc) as Hk.
    destruct (parse_line line) as [| |card].
    + destruct Hk as (c' & -> & Hc'). by apply IH.
    + by rewrite Hk.
    + destruct Hk as (-> & _). done.
Qed.

Lemma next_card_shorter (stdin rest : list string) (c : Card.t) :
  next_card stdin = Some (Some (c, rest)) → (length rest < length stdin)%nat.
Proof.
  induction stdin as [|line stdin IH]; cbn [next_card length]; [done|].
  destruct (parse_line line).
  - intros H. apply IH in H. lia.
  - done.
  - intros [= _ <-]. lia.
Qed.

Lemma dealing_next_card (full_deck_set : list Card.t) (stdin : list string)
    (d1 d2 d3 : Deck.t) :
  dealing full_deck_set stdin d1 d2 d3 =
  match next_card stdin with
  | None => Ok None
  | Some None => Ok (Some (d1, d2, d3))
  | Some (Some (c, rest)) =>
      if negb (card_in c full_deck_set) then Ok None
      else if Card.value c =? 0 then
        d1' ← Deck.add_card d1 c; dealing full_deck_set rest d1' d2 d3
      else if Card.value c =? 10 then
        d3' ← Deck.add_card d3 c; dealing full_deck_set rest d1 d2 d3'
      else
        d2' ← Deck.add_card d2 c; dealing full_deck_set rest d1 d2' d3
  end.
Proof.
  induction stdin as [|line rest IH]; cbn [dealing next_card]; [done|].
  by destruct (parse_line line).
Qed.

(** The bound on the iterations of the input loop is never reached. *)
Lemma deal_dealing (full_deck_set : list Card.t) (n : nat) (stdin : list string)
    (d1 d2 d3 : Deck.t) :
  (length stdin < n)%nat →
  deal full_deck_set n stdin d1 d2 d3 = dealing full_deck_set stdin d1 d2 d3.
Proof.
  revert stdin d1 d2 d3. induction n as [|n IH]; intros stdin d1 d2 d3 Hn; [lia|].
  cbn [deal]. rewrite dealing_next_card.
  pose proof (read_next_card Card.empty stdin eq_refl) as Hr.
  pose proof (next_card_shorter stdin) as Hs.
  destruct (next_card stdin) as [[[c rest]|]|].
  - rewrite Hr. specialize (Hs rest c eq_refl).
    destruct (negb (card_in c full_deck_set)); [done|].
    destruct (Card.value c =? 0); [|destruct (Card.value c =? 10)];
      (destruct (Deck.add_card _ c) as [d'| |]; cbn [mbind result_mbind result_bind];
       [apply IH; lia|done|done]).
  - destruct Hr as [c' ->]. done.
  - by rewrite Hr.
Qed.

Lemma dealing_dealt (full_deck_set : list Card.t) (stdin : list string)
    (a1 a2 a3 : list Card.t) :
  Forall (λ line, parse_line line ≠ UnknownColour) stdin →
  Forall (λ c, card_in c full_deck_set = true) (input_cards stdin) →
  (length a1 + length (tier1 (input_cards stdin)) ≤ 34)%nat →
  (length a2 + length (tier2 (input_cards stdin)) ≤ 34)%nat →
  (length a3 + length (tier3 (input_cards stdin)) ≤ 34)%nat →
  dealing full_deck_set stdin (dealt a1) (dealt a2) (dealt a3)
  = Ok (Some (dealt (a1 ++ tier1 (input_cards stdin)),
              dealt (a2 ++ tier2 (input_cards stdin)),
              dealt (a3 ++ tier3 (input_cards stdin)))).
Proof.
  intros Hknown. revert a1 a2 a3.
  induction Hknown as [|line stdin Hline _ IH]; intros a1 a2 a3 Hrec H1 H2 H3.
  - cbn. by rewrite !app_nil_r.
  - cbn [dealing input_cards] in *.
    destruct (parse_line line) as [| |c]; [by apply IH|done|].
    apply Forall_cons in Hrec as [Hc Hrec]. rewrite Hc. cbn [negb].
    unfold tier1, tier2, tier3 in *. cbn [List.filter] in *.
    destruct (Z.eqb_spec (Card.value c) 0) as [E0|E0]; cbn [negb andb] in *.
    + replace (Card.value c =? 10) with false in * by (by rewrite E0).
      rewrite (proj1 (add_card_dealt a1 c)) by (cbn [length] in H1; lia).
      cbn [mbind result_mbind result_bind]. cbn [length] in H1.
      rewrite IH by (rewrite ?length_app; cbn [length]; done || lia).
      by rewrite <- app_assoc.
    + destruct (Z.eqb_spec (Card.value c) 10) as [E10|E10]; cbn [negb andb] in *.
      * rewrite (proj1 (add_card_dealt a3 c)) by (cbn [length] in H3; lia).
        cbn [mbind result_mbind result_bind]. cbn [length] in H3.
        rewrite IH by (rewrite ?length_app; cbn [length]; done || lia).
        by rewrite <- app_assoc.
      * rewrite (proj1 (add_card_dealt a2 c)) by (cbn [length] in H2; lia).
        cbn [mbind result_mbind result_bind]. cbn [length] in H2.
        rewrite IH by (rewrite ?length_app; cbn [length]; done || lia).
        by rewrite <- app_assoc.
Qed.

Lemma dealing_recognised (full_deck_set : list Card.t) (stdin : list string)
    (d1 d2 d3 : Deck.t) :
  (∀ ds, dealing full_deck_set stdin d1 d2 d3 = Ok (Some ds) →
         Forall (λ line, parse_line line ≠ UnknownColour) stdin ∧
         Forall (λ c, card_in c full_deck_set = true) (input_cards stdin)) ∧
  (dealing full_deck_set stdin d1 d2 d3 = Ok None →
   Exists (λ line, parse_line line = UnknownColour) stdin ∨
   Exists (λ c, card_in c full_deck_set = false) (input_cards stdin)).
Proof.
  revert d1 d2 d3. induction stdin as [|line stdin IH]; intros d1 d2 d3.
  - split; [by split; constructor|]. cbn. discriminate.
  - cbn [dealing input_cards]. destruct (parse_line line) as [| |c] eqn:Ek.
    + destruct (IH d1 d2 d3) as [IH1 IH2]. split.
      * intros ds H. destruct (IH1 ds H) as [Hk Hr]. split; [|done].
        constructor; [congruence|done].
      * intros H. destruct (IH2 H) as [Hk|Hr]; [left|by right].
        by apply Exists_cons_tl.
    + split; [discriminate|]. intros _. left. by apply Exists_cons_hd.
    + destruct (card_in c full_deck_set) eqn:Hc; cbn [negb].
      * assert (Hstep : ∀ (m : result Deck.t)
                          (k : Deck.t → result (option (Deck.t * Deck.t * Deck.t))),
                  (∀ d, (∀ ds, k d = Ok (Some ds) →
                           Forall (λ line, parse_line line ≠ UnknownColour) stdin ∧
                           Forall (λ c, card_in c full_deck_set = true) (input_cards stdin)) ∧
                        (k d = Ok None →
                         Exists (λ line, parse_line line = UnknownColour) stdin ∨
                         Exists (λ c, card_in c full_deck_set = false) (input_cards stdin))) →
                  (∀ ds, m ≫= k = Ok (Some ds) →
                     Forall (λ line, parse_line line ≠ UnknownColour) (line :: stdin) ∧
                     Forall (λ c, card_in c full_deck_set = true) (c :: input_cards stdin)) ∧
                  (m ≫= k = Ok None →
                   Exists (λ line, parse_line line = UnknownColour) (line :: stdin) ∨
                   Exists (λ c, card_in c full_deck_set = false) (c :: input_cards stdin))).
        { intros m k Hk. split.
          - intros ds H. apply bind_Ok in H as (d & _ & H).
            destruct (proj1 (Hk d) ds H) as [Hkn Hr].
            split; (constructor; [congruence|done]).
          - intros H. apply bind_Ok in H as (d & _ & H).
            destruct (proj2 (Hk d) H) as [Hkn|Hr]; [left|right]; by apply Exists_cons_tl. }
        destruct (Card.value c =? 0); [|destruct (Card.value c =? 10)];
          apply Hstep; intros d; apply IH.
      * split; [discriminate|]. intros _. right. by apply Exists_cons_hd.
Qed.

Lemma dealing_no_fault (full_deck_set : list Card.t) (stdin : list string)
    (a1 a2 a3 : list Card.t) :
  (length a1 + length (tier1 (input_cards stdin)) ≤ 34)%nat →
  (length a2 + length (tier2 (input_cards stdin)) ≤ 34)%nat →
  (length a3 + length (tier3 (input_cards stdin)) ≤ 34)%nat →
  ∃ r, dealing full_deck_set stdin (dealt a1) (dealt a2) (dealt a3) = Ok r.
Proof.
  revert a1 a2 a3. induction stdin as [|line stdin IH]; intros a1 a2 a3 H1 H2 H3.
  - by eexists.
  - cbn [dealing input_cards] in *.
    destruct (parse_line line) as [| |c]; [by apply IH|by eexists|].
    destruct (card_in c full_deck_set); cbn [negb]; [|by eexists].
    unfold tier1, tier2, tier3 in *. cbn [List.filter] in *.
    destruct (Z.eqb_spec (Card.value c) 0) as [E0|E0]; cbn [negb andb] in *.
    + replace (Card.value c =? 10) with false in * by (by rewrite E0).
      cbn [length] in H1.
      rewrite (proj1 (add_card_dealt a1 c)) by lia.
      cbn [mbind result_mbind result_bind].
      apply IH; rewrite ?length_app; cbn [length]; lia.
    + destruct (Z.eqb_spec (Card.value c) 10) as [E10|E10]; cbn [negb andb] in *.
      * cbn [length] in H3.
        rewrite (proj1 (add_card_dealt a3 c)) by lia.
        cbn [mbind result_mbind result_bind].
        apply IH; rewrite ?length_app; cbn [length]; lia.
      * cbn [length] in H2.
        rewrite (proj1 (add_card_dealt a2 c)) by lia.
        cbn [mbind result_mbind result_bind].
        apply IH; rewrite ?length_app; cbn [length]; lia.
Qed.

(** X7.  The input loop of [main] reads the input line by line.  A line
    that [read_from_string] gives up is skipped.  A line with five numbers
    and then a word that names no colour ends the program with status 1
    inside [color_str_to_int], before any lookup in the catalogue; a line
    that describes a card outside the catalogue ends it with status 1 after
    the lookup.  Every other card goes to the first deck if its value is 0,
    to the third if it is 10 and to the second otherwise, each deck
    receiving its cards in input order.  So the loop ends with these three
    decks when no line has an unknown colour word, every card is in the
    catalogue and no tier has more than 34 cards.  It ends normally only if
    no line has an unknown colour word and every card is in the catalogue;
    it exits with status 1 only if some line has an unknown colour word or
    some card is outside the catalogue, and it does exit then unless a tier
    has more than 34 cards.  A card that was read has five costs and a
    colour in 0..4. *)
Theorem main_deals_cards_by_tier (full_deck_set : list Card.t) (stdin : list string) :
  (Forall (λ line, parse_line line ≠ UnknownColour) stdin →
   Forall (λ c, card_in c full_deck_set = true) (input_cards stdin) →
   (length (tier1 (input_cards stdin)) ≤ 34)%nat →
   (length (tier2 (input_cards stdin)) ≤ 34)%nat →
   (length (tier3 (input_cards stdin)) ≤ 34)%nat →
   deal full_deck_set (S (length stdin)) stdin Deck.new Deck.new Deck.new
   = Ok (Some (dealt (tier1 (input_cards stdin)), dealt (tier2 (input_cards stdin)),
               dealt (tier3 (input_cards stdin))))) ∧
  (∀ ds, deal full_deck_set (S (length stdin)) stdin Deck.new Deck.new Deck.new
         = Ok (Some ds) →
         Forall (λ line, parse_line line ≠ UnknownColour) stdin ∧
         Forall (λ c, card_in c full_deck_set = true) (input_cards stdin)) ∧
  (deal full_deck_set (S (length stdin)) stdin Deck.new Deck.new Deck.new = Ok None →
   Exists (λ line, parse_line line = UnknownColour) stdin ∨
   Exists (λ c, card_in c full_deck_set = false) (input_cards stdin)) ∧
  ((length (tier1 (input_cards stdin)) ≤ 34)%nat →
   (length (tier2 (input_cards stdin)) ≤ 34)%nat →
   (length (tier3 (input_cards stdin)) ≤ 34)%nat →
   Exists (λ line, parse_line line = UnknownColour) stdin ∨
   Exists (λ c, card_in c full_deck_set = false) (input_cards stdin) →
   deal full_deck_set (S (length stdin)) stdin Deck.new Deck.new Deck.new = Ok None) ∧
  (∀ line,
     parse_line line = UnknownColour ↔
     ∃ c iss buff iss',
       Card.read_costs 5 0 Card.empty line = (c, Some iss) ∧
       extract_word iss = Some (buff, iss') ∧
       Card.color_str_to_int buff = None) ∧
  (∀ line c, parse_line line = Describes c →
     length (Card.cost c) = 5%nat ∧ 0 ≤ Card.type c ≤ 4).
Proof.
  rewrite deal_dealing by lia.
  split; [|split; [|split; [|split; [|split]]]].
  - intros Hknown Hrec H1 H2 H3. rewrite <- dealt_nil.
    by rewrite (dealing_dealt full_deck_set stdin [] [] []).
  - apply dealing_recognised.
  - apply dealing_recognised.
  - intros H1 H2 H3 Hbad.
    destruct (dealing_no_fault full_deck_set stdin [] [] [] H1 H2 H3) as [r Hr].
    rewrite dealt_nil in Hr. rewrite Hr. destruct r as [ds|]; [exfalso|done].
    apply dealing_recognised in Hr as [Hknown Hrec].
    destruct Hbad as [Hbad|Hbad].
    + apply Exists_exists in Hbad as (line & Hin & Hline).
      rewrite Forall_forall in Hknown. by apply (Hknown line).
    + apply Exists_exists in Hbad as (c & Hin & Hc).
      rewrite Forall_forall in Hrec. specialize (Hrec c Hin). congruence.
  - intros line. unfold parse_line, Card.read_from_string. split.
    + intros H.
      destruct (Card.read_costs 5 0 Card.empty line) as [c [iss|]] eqn:E1; [|done].
      destruct (extract_word iss) as [[buff iss']|] eqn:E2; [|done].
      destruct (Card.color_str_to_int buff) as [k|] eqn:E3.
      * by destruct (extract_int iss') as [[y s]|].
      * by exists c, iss, buff, iss'.
    + intros (c & iss & buff & iss' & -> & -> & ->). done.
  - apply parse_line_card.
Qed.

Lemma main_deals_cards_by_tier_witness :
  deal [card_a; card_b; card_green; card_red1] 5
    [line_red1; line_blank; line_a; line_green] Deck.new Deck.new Deck.new
  = Ok (Some (dealt [card_a; card_green], dealt [card_red1], dealt [])) ∧
  deal [card_a; card_b; card_green; card_red1] 3
    [line_a; line_purple] Deck.new Deck.new Deck.new = Ok None ∧
  deal [card_a] 3 [line_a; line_green] Deck.new Deck.new Deck.new = Ok None.
Proof.
  split; [|split].
  - apply (proj1 (main_deals_cards_by_tier [card_a; card_b; card_green; card_red1]
                    [line_red1; line_blank; line_a; line_green])).
    + repeat constructor; vm_compute; discriminate.
    + repeat constructor.
    + vm_compute. lia.
    + vm_compute. lia.
    + vm_compute. lia.
  - apply (proj1 (proj2 (proj2 (proj2
             (main_deals_cards_by_tier [card_a; card_b; card_green; card_red1]
                [line_a; line_purple]))))).
    + vm_compute. lia.
    + vm_compute. lia.
    + vm_compute. lia.
    + left. apply Exists_cons_tl, Exists_cons_hd. vm_compute. reflexivity.
  - apply (proj1 (proj2 (proj2 (proj2
             (main_deals_cards_by_tier [card_a] [line_a; line_green]))))).
    + vm_compute. lia.
    + vm_compute. lia.
    + vm_compute. lia.
    + right. apply Exists_cons_tl, Exists_cons_hd. vm_compute. reflexivity.
Defined.

(** ** Completion of a deck from the catalogue *)

Lemma fill_table_loop_table (P : Card.t → Prop) n fuel s s' :
  Z.of_nat (length (f_pool s)) < 2 ^ 31 →
  Forall P (Deck.table (f_deck s)) → Forall P (f_pool s) →
  fill_table_loop n fuel s = Ok s' → Forall P (Deck.table (f_deck s')).
Proof.
  revert s. induction n as [|n IH]; intros s Hlen Ht Hv; [done|].
  cbn [fill_table_loop].
  destruct ((Deck.table_sz (f_deck s) <? 4) && negb (pool_empty (f_pool s))) eqn:Hgo;
    [|by intros [= <-]].
  assert (1 ≤ Z.of_nat (length (f_pool s))) as H1.
  { destruct (f_pool s); [by rewrite andb_false_r in Hgo|cbn [length]; lia]. }
  intros H. apply bind_Ok in H as ([x tw] & Ex & H).
  apply next_int_max_range in Ex; [|lia].
  apply bind_Ok in H as (c & Ec & H). apply arr_get_Ok in Ec as [_ ->].
  apply bind_Ok in H as (tbl & Etbl & H). apply arr_set_Ok in Etbl as [_ ->].
  destruct (swap_remove_perm (f_pool s) x Ex) as (v' & Esw & Hperm & Hlen').
  rewrite Esw in H. cbn [mbind result_mbind result_bind] in H.
  rewrite Hperm in Hv. apply Forall_cons in Hv as [Hc Hv'].
  apply IH in H; [done|cbn [f_pool]; lia| |done].
  cbn [f_deck Deck.table]. by apply Forall_insert.
Qed.

(** What a completed [fill_up_randomly] leaves: a deck of the same kind
    with the drawn cards added. *)
Lemma fill_up_randomly_ready fuel desired_size v tw d d' tw' :
  deck_ready d → Forall catalogue_card v → Z.of_nat (length v) < 2 ^ 31 →
  fill_up_randomly fuel desired_size v tw d = Ok (d', tw') →
  deck_ready d' ∧
  ∃ drawn rest, v ≡ₚ drawn ++ rest ∧ Deck.to_set d' ≡ₚ Deck.to_set d ++ drawn.
Proof.
  intros [Hshape [Htbl Hq]] Hv Hlen H. unfold fill_up_randomly in H.
  apply bind_Ok in H as (s2 & Hrun & H). inversion H; subst; clear H.
  unfold fill_up_run in Hrun. apply bind_Ok in Hrun as (s1 & H1 & H2).
  assert (Hvs : Forall slot_ok v).
  { eapply Forall_impl; [exact Hv|]. intros c Hc. by right. }
  pose proof (fill_table_loop_table slot_ok _ _ (Filling d v tw) s1 Hlen Htbl Hvs H1)
    as Htbl1.
  apply fill_table_loop_spec in H1 as [drawn1 Ht]; [|done|done].
  destruct Ht as [Hp1 Hc1 Hsz1 [Hq1 Hqsz1] Hn1 Hshape1]. cbn [f_deck f_pool] in *.
  assert (length v = length drawn1 + length (f_pool s1))%nat as Hl1.
  { apply Permutation_length in Hp1. by rewrite length_app in Hp1. }
  apply fill_backlog_loop_spec in H2 as [drawn2 Hb]; [|done|lia].
  destruct Hb as [Hp2 Hc2 Hsz2 [Ht2 Htsz2] Hn2 Hshape2].
  assert (Hperm : v ≡ₚ (drawn1 ++ drawn2) ++ f_pool s2).
  { rewrite <- app_assoc. etrans; [apply Hp1|]. by apply Permutation_app_head. }
  assert (Hqc : Deck.q_cards (f_deck s1) = Deck.q_cards d).
  { unfold Deck.q_cards. by rewrite Hq1, Hqsz1. }
  assert (Htc : Deck.table_cards (f_deck s2) = Deck.table_cards (f_deck s1)).
  { unfold Deck.table_cards. by rewrite Ht2, Htsz2. }
  split; [split; [done|split]|].
  - by rewrite Ht2.
  - rewrite Hc2, Hqc. apply Forall_app. split; [done|].
    rewrite Hperm in Hvs. apply Forall_app in Hvs as [Hd _].
    by apply Forall_app in Hd as [_ ?].
  - exists (drawn1 ++ drawn2), (f_pool s2). split; [done|].
    unfold Deck.to_set. rewrite Hc2, Hqc, Htc, Hc1.
    rewrite <- !app_assoc. apply Permutation_app_head.
    rewrite !app_assoc. apply Permutation_app_tail. apply Permutation_app_comm.
Qed.

Lemma catalogue_card_five (c : Card.t) : catalogue_card c → length (Card.cost c) = 5%nat.
Proof. by intros [? _]. Qed.

(** A deck completed from the catalogue cards of a tier that it does not
    hold yet. *)
Lemma completion_from_pool (tier : Card.t → bool) fuel desired_size
    (full_deck_set : list Card.t) d tw d' tw' :
  deck_ready d → Forall catalogue_card (Deck.to_set d) → NoDup (Deck.to_set d) →
  Forall catalogue_card full_deck_set → NoDup full_deck_set →
  Z.of_nat (length full_deck_set) < 2 ^ 31 →
  fill_up_randomly fuel desired_size
    (List.filter (λ c, tier c && negb (card_in c (Deck.to_set d))) full_deck_set) tw d
    = Ok (d', tw') →
  deck_ready d' ∧ Forall catalogue_card (Deck.to_set d') ∧ NoDup (Deck.to_set d') ∧
  ∃ drawn, Deck.to_set d' ≡ₚ Deck.to_set d ++ drawn ∧
           Forall (λ c, c ∈ full_deck_set ∧ tier c = true) drawn.
Proof.
  intros Hd Hcat Hnd Hfull Hndf Hlen H.
  set (pool := List.filter (λ c, tier c && negb (card_in c (Deck.to_set d))) full_deck_set)
    in *.
  assert (Hin : ∀ c, c ∈ pool →
                     c ∈ full_deck_set ∧ tier c = true ∧ card_in c (Deck.to_set d) = false).
  { intros c Hc. apply list_elem_of_In, filter_In in Hc as [Hc Hp].
    apply andb_true_iff in Hp as [? Hp]. apply negb_true_iff in Hp.
    split; [by apply list_elem_of_In|done]. }
  assert (Hpc : Forall catalogue_card pool).
  { apply Forall_forall. intros c Hc. rewrite Forall_forall in Hfull.
    apply Hfull, Hin, Hc. }
  assert (Hpl : Z.of_nat (length pool) < 2 ^ 31).
  { pose proof (count_le (λ c, tier c && negb (card_in c (Deck.to_set d))) full_deck_set).
    unfold pool. lia. }
  assert (Hpn : NoDup pool).
  { unfold pool. by apply NoDup_ListNoDup, List.NoDup_filter, NoDup_ListNoDup. }
  destruct (fill_up_randomly_ready _ _ _ _ _ _ _ Hd Hpc Hpl H)
    as (Hd' & drawn & rest & Hperm & Hset).
  assert (Hsub : ∀ c, c ∈ drawn → c ∈ pool).
  { intros c Hc. rewrite Hperm. apply elem_of_app. by left. }
  split; [done|]. split; [|split].
  - rewrite Hset. apply Forall_app. split; [done|].
    rewrite Hperm in Hpc. by apply Forall_app in Hpc as [? _].
  - rewrite Hset. apply list.NoDup_app. split; [done|]. split.
    + intros c Hc Hc'. apply Hsub, Hin in Hc' as (Hf & _ & Hno).
      rewrite Forall_forall in Hfull.
      assert (card_in c (Deck.to_set d) = true) as Hyes; [|congruence].
      apply card_in_spec; [by apply catalogue_card_five, Hfull| |done].
      eapply Forall_impl; [exact Hcat|]. apply catalogue_card_five.
    + rewrite Hperm in Hpn. by apply list.NoDup_app in Hpn as [? _].
  - exists drawn. split; [done|]. apply Forall_forall. intros c Hc.
    by destruct (Hin c (Hsub c Hc)) as (? & ? & _).
Qed.

(** X8.  The completion of the first and of the second deck in
    [play_randomized_deck] adds only catalogue cards of the deck's tier
    (value 0, respectively a value other than 0 and 10) that the deck did
    not hold: a deck of distinct catalogue cards stays a deck of distinct
    catalogue cards, in arrays of the declared sizes. *)
Theorem completion_adds_fresh_tier_cards (fuel : nat) (full_deck_set : list Card.t)
    (d : Deck.t) (tw : Twister.t) (d' : Deck.t) (tw' : Twister.t) :
  deck_ready d → Forall catalogue_card (Deck.to_set d) → NoDup (Deck.to_set d) →
  Forall catalogue_card full_deck_set → NoDup full_deck_set →
  Z.of_nat (length full_deck_set) < 2 ^ 31 →
  (fill_up_randomly fuel 25 (remaining1 full_deck_set (Deck.to_set d)) tw d = Ok (d', tw') →
   deck_ready d' ∧ Forall catalogue_card (Deck.to_set d') ∧ NoDup (Deck.to_set d') ∧
   ∃ drawn, Deck.to_set d' ≡ₚ Deck.to_set d ++ drawn ∧
            Forall (λ c, c ∈ full_deck_set ∧ Card.value c = 0) drawn) ∧
  (fill_up_randomly fuel 25 (remaining2 full_deck_set (Deck.to_set d)) tw d = Ok (d', tw') →
   deck_ready d' ∧ Forall catalogue_card (Deck.to_set d') ∧ NoDup (Deck.to_set d') ∧
   ∃ drawn, Deck.to_set d' ≡ₚ Deck.to_set d ++ drawn ∧
            Forall (λ c, c ∈ full_deck_set ∧ Card.value c ≠ 0 ∧ Card.value c ≠ 10) drawn).
Proof.
  intros Hd Hcat Hnd Hfull Hndf Hlen. split; intros H.
  - destruct (completion_from_pool (λ c, Card.value c =? 0) _ _ _ _ _ _ _
                Hd Hcat Hnd Hfull Hndf Hlen H) as (? & ? & ? & drawn & ? & Ht).
    split; [done|]. split; [done|]. split; [done|]. exists drawn. split; [done|].
    eapply Forall_impl; [exact Ht|]. intros c [? E]. split; [done|].
    by apply Z.eqb_eq.
  - destruct (completion_from_pool
                (λ c, negb (Card.value c =? 0) && negb (Card.value c =? 10)) _ _ _ _ _ _ _
                Hd Hcat Hnd Hfull Hndf Hlen H) as (? & ? & ? & drawn & ? & Ht).
    split; [done|]. split; [done|]. split; [done|]. exists drawn. split; [done|].
    eapply Forall_impl; [exact Ht|]. intros c [? E]. split; [done|].
    apply andb_true_iff in E as [E1 E2].
    apply negb_true_iff in E1, E2. by rewrite Z.eqb_neq in E1, E2.
Qed.

Ltac solve_distinct :=
  repeat (apply NoDup_cons_2;
          [intros Hx; repeat (apply elem_of_cons in Hx as [Hx|Hx]; [discriminate Hx|]);
           by apply elem_of_nil in Hx|]);
  apply NoDup_nil_2.

Lemma completion_adds_fresh_tier_cards_witness :
  ∃ d' tw',
    fill_up_randomly 1 25 (remaining1 [card_a; card_b; card_green; card_red1]
                             (Deck.to_set (dealt [card_a]))) tw_zero (dealt [card_a])
      = Ok (d', tw') ∧
    NoDup (Deck.to_set d') ∧
    ∃ drawn, Deck.to_set d' ≡ₚ Deck.to_set (dealt [card_a]) ++ drawn ∧
             Forall (λ c, c ∈ [card_a; card_b; card_green; card_red1] ∧ Card.value c = 0)
               drawn.
Proof.
  destruct (fill_up_randomly 1 25 (remaining1 [card_a; card_b; card_green; card_red1]
                                     (Deck.to_set (dealt [card_a]))) tw_zero (dealt [card_a]))
    as [[d' tw']| |] eqn:E; [|exfalso; vm_compute in E; discriminate E..].
  exists d', tw'. split; [reflexivity|].
  assert (Ha : catalogue_card card_a).
  { split; [reflexivity|]. split; [solve_card_range|cbn; lia]. }
  assert (Hfull : Forall catalogue_card [card_a; card_b; card_green; card_red1]).
  { repeat (constructor; [split; [reflexivity|split; [solve_card_range|cbn; lia]]|]).
    constructor. }
  destruct (proj1 (completion_adds_fresh_tier_cards 1
                     [card_a; card_b; card_green; card_red1]
                     (dealt [card_a]) tw_zero d' tw'
                     ltac:(split; [apply dealt_shape; cbn; lia|split; cbn; solve_slots])
                     ltac:(by repeat constructor)
                     ltac:(cbn; apply NoDup_singleton)
                     Hfull
                     ltac:(solve_distinct)
                     ltac:(cbn; lia)) E) as (_ & _ & Hnd & Hdrawn).
  split; [exact Hnd|exact Hdrawn].
Defined.

(** ** The driver *)

Lemma dealt_ready (l : list Card.t) :
  (length l ≤ 34)%nat → Forall catalogue_card l → deck_ready (dealt l).
Proof.
  intros Hlen Hl. split; [by apply dealt_shape|]. split.
  - unfold dealt, deck_of. cbn [Deck.table]. apply Forall_app. split.
    + apply Forall_take. eapply Forall_impl; [exact Hl|]. intros c Hc. by right.
    + apply Forall_replicate. by left.
  - unfold dealt. rewrite deck_of_q_cards. apply Forall_drop.
    eapply Forall_impl; [exact Hl|]. intros c Hc. by right.
Qed.

Lemma filter_sublist_Forall {A : Type} (P : A → Prop) (f : A → bool) (l : list A) :
  Forall P l → Forall P (List.filter f l).
Proof.
  induction 1 as [|a l Ha _ IH]; cbn [List.filter]; [done|].
  destruct (f a); [by constructor|done].
Qed.

Section Driver.

Context {temperature : Type}.
Variable start_temp : temperature.
Variable above_final : temperature → bool.
Variable cool : temperature → temperature.
Variable accept : Z → temperature → spec_float → bool.
Variable indet : Z.
Variable full_deck_set : list Card.t.

Hypothesis full_catalogue : Forall catalogue_card full_deck_set.
Hypothesis full_size : Z.of_nat (length full_deck_set) < 2 ^ 31.

Lemma play_runs_no_fault k fuel d1 d2 d3 best tw :
  deck_ready d1 → deck_ready d2 → deck_ready d3 →
  faults_in (λ _, False)
    (play_runs start_temp above_final cool accept indet k fuel d1 d2 d3 best tw).
Proof.
  intros H1 H2 H3. revert best tw. induction k as [|k IH]; intros best tw;
    cbn [play_runs]; [apply faults_in_Ok|].
  apply faults_in_bind; [|intros [b1 tw1] _; apply IH].
  unfold play_randomly. apply faults_in_bind; [|intros [[? ?] ?] _; apply faults_in_Ok].
  by apply anneal_loop_no_fault; [apply seq_ok_new|..].
Qed.

Lemma fill_up_randomly_no_fault fuel (pool : list Card.t) tw d :
  deck_shape d → Z.of_nat (length pool) < 2 ^ 31 →
  faults_in (λ _, False) (fill_up_randomly fuel 25 pool tw d).
Proof.
  intros Hd Hp. unfold fill_up_randomly.
  apply faults_in_bind; [|intros s _; apply faults_in_Ok].
  by apply fill_up_run_faults; [lia|..].
Qed.

Lemma pool_size (f : Card.t → bool) :
  Z.of_nat (length (List.filter f full_deck_set)) < 2 ^ 31.
Proof. pose proof (count_le f full_deck_set). lia. Qed.

Lemma play_randomized_deck_spec fuel d1 d2 d3 best setup tw :
  deck_ready d1 → deck_ready d2 → deck_ready d3 →
  faults_in (λ _, False)
    (play_randomized_deck start_temp above_final cool accept indet full_deck_set
       fuel d1 d2 d3 best setup tw) ∧
  ∀ best' setup' tw',
    play_randomized_deck start_temp above_final cool accept indet full_deck_set
      fuel d1 d2 d3 best setup tw = Ok (best', setup', tw') →
    0 ≤ State.points best'.
Proof.
  intros H1 H2 H3. unfold play_randomized_deck. split.
  - apply faults_in_bind;
      [apply fill_up_randomly_no_fault; [apply H1|apply pool_size]|].
    intros [d1' s1] E1.
    apply fill_up_randomly_ready in E1 as [H1' _];
      [|done|by apply filter_sublist_Forall|apply pool_size].
    apply faults_in_bind;
      [apply fill_up_randomly_no_fault; [apply H2|apply pool_size]|].
    intros [d2' s2] E2.
    apply fill_up_randomly_ready in E2 as [H2' _];
      [|done|by apply filter_sublist_Forall|apply pool_size].
    apply faults_in_bind; [|intros [? ?] _; apply faults_in_Ok].
    unfold play_single_setting.
    by apply play_runs_no_fault; [apply reverse_backlog_ready..|].
  - intros best' setup' tw' H.
    apply bind_Ok in H as ([d1' s1] & _ & H).
    apply bind_Ok in H as ([d2' s2] & _ & H).
    apply bind_Ok in H as ([b a] & E & H). inversion H; subst; clear H.
    unfold play_single_setting in E.
    by apply (proj2 (play_runs_spec start_temp above_final cool accept indet
                       10 fuel _ _ d3 State.new tw)) in E.
Qed.

(** The counters of the trial loop. *)
Lemma trials_spec k fuel d1 d2 d3 s :
  deck_ready d1 → deck_ready d2 → deck_ready d3 →
  faults_in (λ _, False)
    (trials start_temp above_final cool accept indet full_deck_set k fuel d1 d2 d3 s) ∧
  ∀ s',
    trials start_temp above_final cool accept indet full_deck_set k fuel d1 d2 d3 s = Ok s' →
    at_31 s ≤ at_31 s' ≤ at_31 s + Z.of_nat k ∧ mx s ≤ mx s' ∧
    (31 ≤ mx s' ↔ 31 ≤ mx s ∨ at_31 s < at_31 s') ∧
    (State.points (t_best s) ≤ mx s ∨ (0 < k)%nat → State.points (t_best s') ≤ mx s') ∧
    (0 ≤ State.points (t_best s) ∨ (0 < k)%nat → 0 ≤ State.points (t_best s')).
Proof.
  intros H1 H2 H3. revert s. induction k as [|k IH]; intros s; cbn [trials].
  { split; [apply faults_in_Ok|]. intros s' [= <-]. split; [lia|]. split; [lia|].
    split; [|lia]. split; [by left|]. intros [?|?]; [done|lia]. }
  destruct (play_randomized_deck_spec fuel d1 d2 d3 (t_best s) (t_setup s) (t_annealing s)
              H1 H2 H3) as [Hf Hp].
  split.
  - apply faults_in_bind; [done|]. intros [[b su] an] _. apply IH.
  - intros s' H. apply bind_Ok in H as ([[b su] an] & E & H).
    apply Hp in E. apply IH in H as (Hat & Hmx & Hiff & Hbest & Hpos).
    cbn [at_31 mx t_best] in Hat, Hmx, Hiff, Hbest, Hpos.
    destruct (Z.leb_spec 31 (State.points b)), (Z.ltb_spec (mx s) (State.points b));
      (split; [lia|]); (split; [lia|]);
      (split; [|split; [intros _; apply Hbest; lia|intros _; apply Hpos; lia]]); lia.
Qed.

(** X9.  With a catalogue of well-formed cards, [play_randomized_deck] on
    three decks of catalogue cards never indexes an array out of range, and
    neither does [main], whatever its input, when no tier of the cards in
    the input has more than 34 cards. *)
Theorem driver_never_out_of_range :
  (∀ fuel d1 d2 d3 best setup tw b,
     deck_ready d1 → deck_ready d2 → deck_ready d3 →
     play_randomized_deck start_temp above_final cool accept indet full_deck_set
       fuel d1 d2 d3 best setup tw ≠ OutOfRange b) ∧
  (∀ fuel stdin b,
     (length (tier1 (input_cards stdin)) ≤ 34)%nat →
     (length (tier2 (input_cards stdin)) ≤ 34)%nat →
     (length (tier3 (input_cards stdin)) ≤ 34)%nat →
     main start_temp above_final cool accept indet full_deck_set fuel stdin
       ≠ OutOfRange b).
Proof.
  split.
  - intros fuel d1 d2 d3 best setup tw b H1 H2 H3 H.
    by apply (proj1 (play_randomized_deck_spec fuel d1 d2 d3 best setup tw H1 H2 H3)) in H.
  - intros fuel stdin b Ht1 Ht2 Ht3 H. unfold main in H.
    rewrite deal_dealing in H by lia.
    pose proof (input_cards_five stdin) as Hfive.
    apply bind_OutOfRange in H as [H|(dealt_decks & E & H)].
    { destruct (dealing_no_fault full_deck_set stdin [] [] [] Ht1 Ht2 Ht3) as [r Hr].
      rewrite dealt_nil in Hr. congruence. }
    destruct dealt_decks as [[[d1 d2] d3]|]; [|done].
    destruct (proj1 (dealing_recognised _ _ _ _ _) _ E) as [Hknown Hrec].
    rewrite <- dealt_nil in E.
    rewrite (dealing_dealt full_deck_set stdin [] [] []) in E by done.
    injection E as <- <- <-. cbn [app] in H.
    assert (Hcat : Forall catalogue_card (input_cards stdin)).
    { apply Forall_forall. intros c Hc. rewrite Forall_forall in Hrec, Hfive.
      assert (c ∈ full_deck_set) as Hin.
      { apply card_in_spec; [by apply Hfive| |by apply Hrec].
        eapply Forall_impl; [exact full_catalogue|]. apply catalogue_card_five. }
      rewrite Forall_forall in full_catalogue. by apply full_catalogue. }
    apply bind_OutOfRange in H as [H|(s & _ & H)]; [|done].
    apply (proj1 (trials_spec 50 fuel _ _ _ _
                    (dealt_ready _ Ht1 (filter_sublist_Forall _ _ _ Hcat))
                    (dealt_ready _ Ht2 (filter_sublist_Forall _ _ _ Hcat))
                    (dealt_ready _ Ht3 (filter_sublist_Forall _ _ _ Hcat)))) in H.
    done.
Qed.

(** X10.  When [main] runs to its end, the counter [at_31] is between 0
    and 50, the maximum [mx] is at least the points of the last best state,
    which are not negative, and [at_31] is positive exactly when [mx] is at
    least 31. *)
Theorem main_tally :
  ∀ fuel stdin s,
    (length (tier1 (input_cards stdin)) ≤ 34)%nat →
    (length (tier2 (input_cards stdin)) ≤ 34)%nat →
    (length (tier3 (input_cards stdin)) ≤ 34)%nat →
    main start_temp above_final cool accept indet full_deck_set fuel stdin = Ok (Some s) →
    0 ≤ at_31 s ≤ 50 ∧ 0 ≤ State.points (t_best s) ≤ mx s ∧ (1 ≤ at_31 s ↔ 31 ≤ mx s).
Proof.
  intros fuel stdin s Ht1 Ht2 Ht3 H. unfold main in H.
  rewrite deal_dealing in H by lia.
  pose proof (input_cards_five stdin) as Hfive.
  remember (Tally 0 0 State.new (Twister.init 23590421) (Twister.init 549120939))
    as s0 eqn:Es0.
  assert (Hs0 : at_31 s0 = 0 ∧ mx s0 = 0) by (by rewrite Es0).
  clear Es0. destruct Hs0 as [Hat0 Hmx0].
  apply bind_Ok in H as (dealt_decks & E & H).
  destruct dealt_decks as [[[d1 d2] d3]|]; [|done].
  destruct (proj1 (dealing_recognised _ _ _ _ _) _ E) as [Hknown Hrec].
  rewrite <- dealt_nil in E.
  rewrite (dealing_dealt full_deck_set stdin [] [] []) in E by done.
  injection E as <- <- <-. cbn [app] in H.
  assert (Hcat : Forall catalogue_card (input_cards stdin)).
  { apply Forall_forall. intros c Hc. rewrite Forall_forall in Hrec, Hfive.
    assert (c ∈ full_deck_set) as Hin.
    { apply card_in_spec; [by apply Hfive| |by apply Hrec].
      eapply Forall_impl; [exact full_catalogue|]. apply catalogue_card_five. }
    rewrite Forall_forall in full_catalogue. by apply full_catalogue. }
  apply bind_Ok in H as (s1 & E & H). injection H as ->.
  pose proof (dealt_ready _ Ht1 (filter_sublist_Forall _ _ _ Hcat)) as H1.
  pose proof (dealt_ready _ Ht2 (filter_sublist_Forall _ _ _ Hcat)) as H2.
  pose proof (dealt_ready _ Ht3 (filter_sublist_Forall _ _ _ Hcat)) as H3.
  apply (proj2 (trials_spec 50 fuel _ _ _ _ H1 H2 H3)) in E
    as (Hat & Hmx & Hiff & Hbest & Hpos).
  split; [lia|]. split; [split; [apply Hpos; right; lia|apply Hbest; right; lia]|].
  rewrite Hiff. lia.
Qed.

End Driver.

Lemma toy_catalogue : Forall catalogue_card [card_a; card_b; card_green; card_red1].
Proof.
  repeat (constructor; [split; [reflexivity|split; [solve_card_range|cbn; lia]]|]).
  constructor.
Qed.

Lemma driver_never_out_of_range_witness :
  play_randomized_deck 1%nat toy_above_final toy_cool toy_accept 0
    [card_a; card_b; card_green; card_red1] 8 (dealt [card_a]) (dealt [card_red1]) Deck.new
    State.new tw_zero tw_insert_4 ≠ OutOfRange BufBacklog ∧
  main 1%nat toy_above_final toy_cool toy_accept 0
    [card_a; card_b; card_green; card_red1] 8 [line_red1; line_blank; line_a; line_green]
    ≠ OutOfRange BufTable.
Proof.
  pose proof (driver_never_out_of_range 1%nat toy_above_final toy_cool toy_accept 0
                [card_a; card_b; card_green; card_red1] toy_catalogue ltac:(cbn; lia))
    as [H1 H2].
  split.
  - apply H1.
    + apply dealt_ready; [cbn; lia|]. repeat constructor; cbn; lia.
    + apply dealt_ready; [cbn; lia|].
      constructor; [|constructor].
      split; [reflexivity|split; [solve_card_range|cbn; lia]].
    + rewrite <- dealt_nil. apply dealt_ready; [cbn; lia|constructor].
  - apply H2.
    + vm_compute. lia.
    + vm_compute. lia.
    + vm_compute. lia.
Defined.

Lemma main_tally_witness :
  ∃ s,
    main 3%nat toy_above_final toy_cool toy_accept 0
      [card_a; card_b; card_green; card_red1] 64
      [line_red1; line_blank; line_a; line_green]
      = Ok (Some s) ∧
    0 ≤ at_31 s ≤ 50 ∧ 0 ≤ State.points (t_best s) ≤ mx s ∧ (1 ≤ at_31 s ↔ 31 ≤ mx s).
Proof.
  assert (Hrun : match main 3%nat toy_above_final toy_cool toy_accept 0
                         [card_a; card_b; card_green; card_red1] 64
                         [line_red1; line_blank; line_a; line_green] with
                 | Ok (Some _) => true
                 | _ => false
                 end = true) by (vm_compute; reflexivity).
  destruct (main 3%nat toy_above_final toy_cool toy_accept 0
              [card_a; card_b; card_green; card_red1] 64
              [line_red1; line_blank; line_a; line_green])
    as [[s|]| |] eqn:E; [|discriminate Hrun..].
  exists s. split; [reflexivity|].
  apply (main_tally 3%nat toy_above_final toy_cool toy_accept 0
           [card_a; card_b; card_green; card_red1] toy_catalogue ltac:(cbn; lia)
           64%nat [line_red1; line_blank; line_a; line_green] s).
  - vm_compute. lia.
  - vm_compute. lia.
  - vm_compute. lia.
  - exact E.
Defined.

(** ** What a replay has resolved *)

Lemma play_out_loop_invariant (I : replay → Prop) n ptr cand r r' :
  (∀ r m r' c, I r → commit_step r m r' c → I r') →
  I r → play_out_loop n ptr cand r = Ok r' → I r'.
Proof.
  intros Hstep. revert ptr r. induction n as [|n IH]; intros ptr r Hr H.
  - by inversion H; subst.
  - cbn [play_out_loop] in H. apply bind_Ok in H as (m & _ & H).
    apply bind_Ok in H as ([ok r1] & E & H).
    apply play_move_inv in E as [[_ ->]|[_ [c Hc]]]; [by eapply IH|].
    eapply IH; [|exact H]. by eapply Hstep.
Qed.

Lemma sum_values_app (l k : list Card.t) : sum_values (l ++ k) = sum_values l + sum_values k.
Proof. induction l as [|c l IH]; cbn; [done|]. unfold sum_values in *. lia. Qed.

Lemma colour_count_app (j : Z) (l k : list Card.t) :
  colour_count j (l ++ k) = colour_count j l + colour_count j k.
Proof. unfold colour_count. rewrite List.filter_app, length_app. lia. Qed.

Lemma books_start (d1 d2 d3 : Deck.t) : books (play_start d1 d2 d3 State.new).
Proof.
  split; [done|done|done|done|done|cbn; lia|done|done|constructor|done|].
  intros j Hj.
  assert (Z.to_nat j = 0 ∨ Z.to_nat j = 1 ∨ Z.to_nat j = 2 ∨ Z.to_nat j = 3
          ∨ Z.to_nat j = 4)%nat as Hc by lia.
  by destruct Hc as [->|[->|[->|[->| ->]]]].
Qed.

Lemma books_commit r m r' c : books r → commit_step r m r' c → books r'.
Proof.
  intros [Hml Hcl Hmsz Hcsz Hrounds Htokens Hbudget Hpoints Hshown Hbl Hbonus] Hc.
  pose proof (commit_step_cost _ _ _ _ Hc) as Hcost.
  pose proof (cs_budget _ _ _ _ Hc) as Hb.
  pose proof (cs_cards_room _ _ _ _ Hc) as Hroom.
  pose proof (cs_colour _ _ _ _ Hc) as Hcol.
  rewrite Z.quot_div_nonneg in Hb by lia.
  assert (Hres : resolved_cards (r_st r') = resolved_cards (r_st r) ++ [c]).
  { unfold resolved_cards. rewrite (cs_cards _ _ _ _ Hc), (cs_cards_sz _ _ _ _ Hc).
    replace (Z.to_nat (State.card_sequence_sz (r_st r) + 1))
      with (S (Z.to_nat (State.card_sequence_sz (r_st r)))) by lia.
    apply take_S_insert. lia. }
  split.
  - by rewrite (cs_moves _ _ _ _ Hc), length_insert.
  - by rewrite (cs_cards _ _ _ _ Hc), length_insert.
  - rewrite (cs_moves_sz _ _ _ _ Hc), (cs_rounds _ _ _ _ Hc). lia.
  - rewrite (cs_cards_sz _ _ _ _ Hc), (cs_rounds _ _ _ _ Hc). lia.
  - rewrite (cs_rounds _ _ _ _ Hc). lia.
  - rewrite (cs_tokens _ _ _ _ Hc), (cs_rounds _ _ _ _ Hc). lia.
  - rewrite (cs_tokens _ _ _ _ Hc), (cs_rounds _ _ _ _ Hc).
    replace (State.tokens_cost (r_st r) + Card.get_cost c (r_bonus r) + 3)
      with (State.tokens_cost (r_st r) + 3 + Card.get_cost c (r_bonus r)) by lia.
    lia.
  - rewrite (cs_points _ _ _ _ Hc), Hres, sum_values_app. cbn. lia.
  - rewrite Hres. apply Forall_app. split; [done|].
    constructor; [apply (cs_shown _ _ _ _ Hc)|constructor].
  - by rewrite (cs_bonus _ _ _ _ Hc), length_insert.
  - intros j Hj. rewrite (cs_bonus _ _ _ _ Hc), Hres, colour_count_app.
    unfold colour_count at 2. cbn [List.filter].
    destruct (Z.eqb_spec (Card.type c) j) as [->|Hne]; cbn [length].
    + rewrite nth_insert_eq by lia. rewrite Hbonus by done. lia.
    + rewrite nth_insert_ne by lia. rewrite Hbonus by done. lia.
Qed.

Lemma play_out_loop_books n ptr cand d1 d2 d3 r :
  play_out_loop n ptr cand (play_start d1 d2 d3 State.new) = Ok r → books r.
Proof.
  apply (play_out_loop_invariant books); [apply books_commit|apply books_start].
Qed.

(** X11.  A state replayed from the fresh state respects the budget of 28
    rounds as a whole: [rounds + (tokens_cost + 3) / 4 <= 28].  So it has at
    most 28 rounds and a token cost of at most 112, at most 12 per round,
    and both sequences have exactly [rounds] entries. *)
Theorem replay_within_round_budget (d1 d2 d3 : Deck.t) (cand refined : State.t) :
  play_out State.new d1 d2 d3 cand = Ok refined →
  State.rounds refined + (State.tokens_cost refined + 3) `div` 4 ≤ 28 ∧
  0 ≤ State.rounds refined ≤ 28 ∧
  0 ≤ State.tokens_cost refined ≤ 12 * State.rounds refined ∧
  State.tokens_cost refined ≤ 112 ∧
  State.move_sequence_sz refined = State.rounds refined ∧
  State.card_sequence_sz refined = State.rounds refined.
Proof.
  unfold play_out. intros H. apply bind_Ok in H as (r & E & H).
  inversion H; subst; clear H. apply play_out_loop_books in E as [Hml Hcl Hmsz Hcsz Hrounds Htokens Hbudget Hpoints Hshown Hbl Hbonus].
  repeat split; try done; try lia; Z.div_mod_to_equations; lia.
Qed.

Lemma replay_within_round_budget_witness :
  ∃ refined,
    play_out State.new deck_ab Deck.new Deck.new cand_27 = Ok refined ∧
    State.rounds refined + (State.tokens_cost refined + 3) `div` 4 ≤ 28 ∧
    0 ≤ State.rounds refined ≤ 28.
Proof.
  destruct (play_out State.new deck_ab Deck.new Deck.new cand_27) as [refined| |] eqn:E;
    [|exfalso; vm_compute in E; discriminate E..].
  exists refined. split; [reflexivity|].
  destruct (replay_within_round_budget deck_ab Deck.new Deck.new cand_27 refined E)
    as (H1 & H2 & _).
  split; [exact H1|exact H2].
Defined.

(** X12.  The books of a replay from the fresh state balance: the points
    are the sum of the values of the resolved cards, there are as many
    resolved cards and tokens as rounds, no resolved card is an empty slot,
    and the bonus of every colour is the number of resolved cards of that
    colour (so the bonuses sum to the number of rounds when all colours are
    valid). *)
Theorem replay_books_balance (n : nat) (ptr : Z) (cand : State.t) (d1 d2 d3 : Deck.t)
    (r : replay) :
  play_out_loop n ptr cand (play_start d1 d2 d3 State.new) = Ok r →
  State.points (r_st r) = sum_values (resolved_cards (r_st r)) ∧
  Z.of_nat (length (resolved_cards (r_st r))) = State.rounds (r_st r) ∧
  Z.of_nat (length (resolved_moves (r_st r))) = State.rounds (r_st r) ∧
  Forall (λ c, Card.type c ≠ -1) (resolved_cards (r_st r)) ∧
  length (r_bonus r) = 5%nat ∧
  (∀ j, 0 ≤ j < 5 →
        nth (Z.to_nat j) (r_bonus r) 0 = colour_count j (resolved_cards (r_st r))) ∧
  (Forall (λ c, 0 ≤ Card.type c < 5) (resolved_cards (r_st r)) →
   nth 0 (r_bonus r) 0 + nth 1 (r_bonus r) 0 + nth 2 (r_bonus r) 0
   + nth 3 (r_bonus r) 0 + nth 4 (r_bonus r) 0 = State.rounds (r_st r)).
Proof.
  intros H. apply play_out_loop_books in H as [Hml Hcl Hmsz Hcsz Hrounds Htokens Hbudget Hpoints Hshown Hbl Hbonus].
  assert (0 ≤ (State.tokens_cost (r_st r) + 3) `div` 4) by (apply Z.div_pos; lia).
  assert (Hlc : Z.of_nat (length (resolved_cards (r_st r))) = State.rounds (r_st r)).
  { unfold resolved_cards. rewrite length_take. lia. }
  split; [done|]. split; [done|]. split.
  { unfold resolved_moves. rewrite length_take. lia. }
  split; [done|]. split; [done|]. split; [done|].
  intros Hcol.
  pose proof (Hbonus 0 ltac:(lia)) as B0. pose proof (Hbonus 1 ltac:(lia)) as B1.
  pose proof (Hbonus 2 ltac:(lia)) as B2. pose proof (Hbonus 3 ltac:(lia)) as B3.
  pose proof (Hbonus 4 ltac:(lia)) as B4.
  change (Z.to_nat 0) with 0%nat in B0. change (Z.to_nat 1) with 1%nat in B1.
  change (Z.to_nat 2) with 2%nat in B2. change (Z.to_nat 3) with 3%nat in B3.
  change (Z.to_nat 4) with 4%nat in B4.
  rewrite B0, B1, B2, B3, B4, <- Hlc. clear -Hcol.
  induction Hcol as [|c l Hc _ IH]; [done|].
  unfold colour_count in *. cbn [List.filter length].
  destruct (Z.eqb_spec (Card.type c) 0), (Z.eqb_spec (Card.type c) 1),
    (Z.eqb_spec (Card.type c) 2), (Z.eqb_spec (Card.type c) 3),
    (Z.eqb_spec (Card.type c) 4); cbn [length]; lia.
Qed.

Lemma replay_books_balance_witness :
  ∃ r,
    play_out_loop 3 0 cand_100 (play_start deck_green deck_red Deck.new State.new) = Ok r ∧
    State.points (r_st r) = sum_values (resolved_cards (r_st r)) ∧
    Z.of_nat (length (resolved_cards (r_st r))) = State.rounds (r_st r).
Proof.
  destruct (play_out_loop 3 0 cand_100 (play_start deck_green deck_red Deck.new State.new))
    as [r| |] eqn:E; [|exfalso; vm_compute in E; discriminate E..].
  exists r. split; [reflexivity|].
  destruct (replay_books_balance 3 0 cand_100 deck_green deck_red Deck.new r E)
    as (H1 & H2 & _).
  split; [exact H1|exact H2].
Defined.

(** ** Replaying a resolved sequence *)

Lemma tokens_from_drop (ms : list Z) (i n : nat) :
  (i + n ≤ length ms)%nat → tokens_from ms i n = take n (drop i ms).
Proof.
  revert i. induction n as [|n IH]; intros i H; [done|].
  unfold tokens_from. cbn [seq map].
  rewrite (drop_S ms (nth i ms 0) i) by (apply nth_lookup_Some; lia).
  cbn [take]. f_equal. apply IH. lia.
Qed.

Lemma tokens_from_take (ms : list Z) (n : nat) :
  (n ≤ length ms)%nat → tokens_from ms 0 n = take n ms.
Proof. intros H. by rewrite tokens_from_drop, drop_0 by lia. Qed.

Lemma play_out_loop_list n ptr cand r r' :
  0 ≤ ptr → play_out_loop n ptr cand r = Ok r' →
  play_list (tokens_from (State.move_sequence cand) (Z.to_nat ptr) n) r = Ok r'.
Proof.
  revert ptr r. induction n as [|n IH]; intros ptr r Hptr H; [done|].
  cbn [play_out_loop] in H. apply bind_Ok in H as (m & Em & H).
  apply arr_get_Ok in Em as [_ ->].
  apply bind_Ok in H as ([ok r1] & E & H).
  unfold tokens_from. cbn [seq map play_list]. rewrite E.
  cbn [mbind result_mbind result_bind].
  apply IH in H; [|lia]. by replace (Z.to_nat (ptr + 1)) with (S (Z.to_nat ptr)) in H by lia.
Qed.

Lemma play_list_loop n ptr cand r :
  0 ≤ ptr → ptr + Z.of_nat n ≤ 40 →
  play_out_loop n ptr cand r
  = play_list (tokens_from (State.move_sequence cand) (Z.to_nat ptr) n) r.
Proof.
  revert ptr r. induction n as [|n IH]; intros ptr r Hptr Hn; [done|].
  cbn [play_out_loop]. unfold State.moves_get. rewrite arr_get_in by lia.
  cbn [mbind result_mbind result_bind]. unfold tokens_from. cbn [seq map play_list].
  destruct (play_move r _) as [[ok r1]| |]; [|done|done].
  cbn [mbind result_mbind result_bind]. rewrite IH by lia.
  by replace (Z.to_nat (ptr + 1)) with (S (Z.to_nat ptr)) by lia.
Qed.

Lemma play_move_reduced (r : replay) (m : Z) : play_move r (Z.rem m 16) = play_move r m.
Proof. unfold play_move. by rewrite rem_16_rem_16. Qed.

(** The tokens a replay commits are the tokens it appends, in the order of
    the candidate, and replaying only those leads to the same state. *)
Lemma play_list_resolved (ms : list Z) (r r' : replay) :
  length (State.move_sequence (r_st r)) = 40%nat →
  play_list ms r = Ok r' →
  length (State.move_sequence (r_st r')) = 40%nat ∧
  ∃ xs, resolved_moves (r_st r') = resolved_moves (r_st r) ++ xs ∧
        sublist xs (map (λ m, Z.rem m 16) ms) ∧
        play_list xs r = Ok r'.
Proof.
  revert r. induction ms as [|m ms IH]; intros r Hlen H.
  - inversion H; subst. split; [done|]. exists []. rewrite app_nil_r.
    split; [done|]. split; [constructor|done].
  - cbn [play_list] in H. apply bind_Ok in H as ([ok r1] & E & H).
    pose proof E as E'.
    apply play_move_inv in E as [[-> ->]|[-> [c Hc]]].
    { destruct (IH r Hlen H) as (Hlen' & xs & Hres & Hsub & Hplay).
      split; [done|]. exists xs. split; [done|]. split; [|done].
      cbn [map]. by apply sublist_cons. }
    pose proof (cs_moves_room _ _ _ _ Hc) as Hroom.
    destruct (IH r1) as (Hlen' & xs & Hres & Hsub & Hplay);
      [by rewrite (cs_moves _ _ _ _ Hc), length_insert|done|].
    split; [done|]. exists (Z.rem m 16 :: xs). split; [|split].
    + rewrite Hres. unfold resolved_moves.
      rewrite (cs_moves _ _ _ _ Hc), (cs_moves_sz _ _ _ _ Hc).
      replace (Z.to_nat (State.move_sequence_sz (r_st r) + 1))
        with (S (Z.to_nat (State.move_sequence_sz (r_st r)))) by lia.
      rewrite take_S_insert by lia. by rewrite <- app_assoc.
    + cbn [map]. by apply sublist_skip.
    + cbn [play_list]. rewrite play_move_reduced, E'.
      by cbn [mbind result_mbind result_bind].
Qed.

Lemma play_out_new_stable (d1 d2 d3 : Deck.t) (cand refined : State.t) :
  play_out State.new d1 d2 d3 cand = Ok refined →
  play_out State.new d1 d2 d3 refined = Ok refined.
Proof.
  unfold play_out. intros H. apply bind_Ok in H as (r & E & H).
  inversion H; subst; clear H.
  pose proof (play_out_loop_books _ _ _ _ _ _ _ E)
    as [Hml Hcl Hmsz Hcsz Hrounds Htokens Hbudget Hpoints Hshown Hbl Hbonus].
  assert (0 ≤ (State.tokens_cost (r_st r) + 3) `div` 4) by (apply Z.div_pos; lia).
  apply play_out_loop_list in E; [|lia].
  apply play_list_resolved in E as (_ & xs & Hres & _ & Hplay); [|done].
  change (resolved_moves (r_st (play_start d1 d2 d3 State.new))) with (@nil Z) in Hres.
  cbn [app] in Hres. subst xs.
  rewrite play_list_loop by lia. change (Z.to_nat 0) with 0%nat.
  rewrite tokens_from_take by lia. fold (resolved_moves (r_st r)).
  by rewrite Hplay.
Qed.

(** X13.  The result of a replay is stable: replaying the resolved
    sequence against the same decks gives the same state again, and every
    token of it is committed, the state having as many rounds as the
    sequence has tokens. *)
Theorem replay_of_resolved_sequence_is_stable (d1 d2 d3 : Deck.t) (cand refined : State.t) :
  play_out State.new d1 d2 d3 cand = Ok refined →
  play_out State.new d1 d2 d3 refined = Ok refined ∧
  State.rounds refined = State.move_sequence_sz refined.
Proof.
  intros H. split; [by eapply play_out_new_stable|].
  unfold play_out in H. apply bind_Ok in H as (r & E & H).
  injection H as <-.
  apply play_out_loop_books in E
    as [Hml Hcl Hmsz Hcsz Hrounds Htokens Hbudget Hpoints Hshown Hbl Hbonus].
  by rewrite Hmsz.
Qed.

Lemma replay_of_resolved_sequence_is_stable_witness :
  ∃ refined,
    play_out State.new deck_green deck_red Deck.new cand_100 = Ok refined ∧
    play_out State.new deck_green deck_red Deck.new refined = Ok refined.
Proof.
  destruct (play_out State.new deck_green deck_red Deck.new cand_100) as [refined| |] eqn:E;
    [|exfalso; vm_compute in E; discriminate E..].
  exists refined. split; [reflexivity|].
  exact (proj1 (replay_of_resolved_sequence_is_stable deck_green deck_red Deck.new cand_100
                  refined E)).
Defined.

Lemma map_rem_16_tokens (l : list Z) :
  Forall (λ m, 0 ≤ m < 10) l → map (λ m, Z.rem m 16) l = l.
Proof.
  induction 1 as [|m l Hm _ IH]; cbn [map]; [done|].
  rewrite IH, Z.rem_small by lia. done.
Qed.

(** X14.  The resolved tokens are a subsequence of the candidate's tokens
    reduced modulo 16, in the same order; for a candidate of the search they
    are a subsequence of the candidate's tokens themselves. *)
Theorem resolved_sequence_is_subsequence (d1 d2 d3 : Deck.t) (cand refined : State.t) :
  play_out State.new d1 d2 d3 cand = Ok refined →
  sublist (resolved_moves refined)
    (map (λ m, Z.rem m 16)
       (tokens_from (State.move_sequence cand) 0 (Z.to_nat (State.move_sequence_sz cand)))) ∧
  (seq_ok cand → sublist (resolved_moves refined) (resolved_moves cand)).
Proof.
  unfold play_out. intros H. apply bind_Ok in H as (r & E & H).
  inversion H; subst; clear H.
  apply play_out_loop_list in E; [|lia].
  apply play_list_resolved in E as (_ & xs & Hres & Hsub & _); [|done].
  change (resolved_moves (r_st (play_start d1 d2 d3 State.new))) with (@nil Z) in Hres.
  cbn [app] in Hres. subst xs. change (Z.to_nat 0) with 0%nat in Hsub.
  split; [done|]. intros (Hlen & Hsz & Htok).
  rewrite tokens_from_take in Hsub by lia.
  rewrite map_rem_16_tokens in Hsub; [done|].
  apply Forall_forall. intros m Hm.
  apply list_elem_of_In, (In_nth _ _ 0) in Hm as (k & Hk & <-).
  rewrite length_take in Hk. rewrite nth_firstn.
  destruct (Nat.ltb_spec k (Z.to_nat (State.move_sequence_sz cand))); [|lia].
  specialize (Htok (Z.of_nat k) ltac:(lia)). by rewrite Nat2Z.id in Htok.
Qed.

Lemma resolved_sequence_is_subsequence_witness :
  ∃ refined,
    play_out State.new deck_green deck_red Deck.new cand_100 = Ok refined ∧
    sublist (resolved_moves refined) (resolved_moves cand_100).
Proof.
  destruct (play_out State.new deck_green deck_red Deck.new cand_100) as [refined| |] eqn:E;
    [|exfalso; vm_compute in E; discriminate E..].
  exists refined. split; [reflexivity|].
  apply (proj2 (resolved_sequence_is_subsequence deck_green deck_red Deck.new cand_100
                  refined E)).
  split; [reflexivity|]. split; [cbn; lia|]. intros i Hi. cbn in Hi.
  assert (i = 0 ∨ i = 1 ∨ i = 2) as [->|[->| ->]] by lia;
    [change (0 ≤ 1 < 10)|change (0 ≤ 0 < 10)|change (0 ≤ 0 < 10)]; lia.
Defined.

(** ** Printing a state *)

Lemma color_to_string_defined (c : Z) : is_Some (color_to_string c) ↔ 0 ≤ c ≤ 4.
Proof.
  unfold color_to_string.
  repeat (match goal with
          | |- context [c =? ?x] => destruct (Z.eqb_spec c x) as [->|?]
          end; [split; [lia|by eexists]|]).
  split; [by intros [? ?]|lia].
Qed.

Lemma cost_items_defined (n : nat) (j : Z) (c : Card.t) :
  0 ≤ j → j + Z.of_nat n ≤ 5 → is_Some (Card.cost_items n j c).
Proof.
  revert j. induction n as [|n IH]; intros j H0 Hn; cbn [Card.cost_items]; [by eexists|].
  destruct (IH (j + 1)) as [rest Er]; [lia|lia|].
  destruct (0 <? nth (Z.to_nat j) (Card.cost c) 0); [|by eexists].
  destruct (proj2 (color_to_string_defined j)) as [name En]; [lia|].
  rewrite En, Er. by eexists.
Qed.

(** X15.  [ToString] produces a text exactly for the cards with a colour
    in 0..4 and ends in FATAL for every other card, in particular for an
    empty slot. *)
Theorem card_text_defined_iff_colour_valid (c : Card.t) :
  (is_Some (Card.ToString c) ↔ 0 ≤ Card.type c ≤ 4) ∧
  Card.ToString Card.empty = None.
Proof.
  split; [|reflexivity]. unfold Card.ToString.
  destruct (cost_items_defined 5 0 c) as [items Ei]; [lia|lia|]. rewrite Ei.
  rewrite <- color_to_string_defined.
  destruct (color_to_string (Card.type c)) as [name|]; cbn; split; intros [? ?]; try done;
    by eexists.
Qed.

Lemma ToString_catalogue (c : Card.t) : catalogue_card c → is_Some (Card.ToString c).
Proof.
  intros (_ & _ & Hty & _). unfold Card.ToString.
  destruct (cost_items_defined 5 0 c) as [items Ei]; [lia|lia|]. rewrite Ei.
  destruct (proj2 (color_to_string_defined (Card.type c)) Hty) as [name En].
  rewrite En. by eexists.
Qed.

Lemma print_lines_defined (n : nat) (i : Z) (st : State.t) :
  0 ≤ i → i + Z.of_nat n ≤ 40 →
  (∀ k, i ≤ k < i + Z.of_nat n →
        catalogue_card (nth (Z.to_nat k) (State.card_sequence st) Card.empty)) →
  ∃ ls, State.print_lines n i st = Ok (Some ls) ∧
        map fst ls = tokens_from (State.move_sequence st) (Z.to_nat i) n.
Proof.
  revert i. induction n as [|n IH]; intros i H0 Hn Hcat; cbn [State.print_lines].
  { by exists []. }
  rewrite moves_get_in by lia. cbn [mbind result_mbind result_bind].
  rewrite arr_get_in by lia. cbn [mbind result_mbind result_bind].
  destruct (ToString_catalogue _ (Hcat i ltac:(lia))) as [s Es]. rewrite Es.
  destruct (IH (i + 1)) as (ls & Els & Hfst); [lia|lia|intros k Hk; apply Hcat; lia|].
  rewrite Els. cbn [mbind result_mbind result_bind option_bind].
  eexists. split; [reflexivity|]. unfold tokens_from in *. cbn [map fst seq].
  f_equal. by replace (Z.to_nat (i + 1)) with (S (Z.to_nat i)) in Hfst by lia.
Qed.

(** The books of a replay against decks of catalogue cards. *)
Lemma play_out_loop_resolved_catalogue n ptr cand d1 d2 d3 r :
  deck_from_catalogue d1 → deck_from_catalogue d2 → deck_from_catalogue d3 →
  play_out_loop n ptr cand (play_start d1 d2 d3 State.new) = Ok r →
  Forall catalogue_card (resolved_cards (r_st r)).
Proof.
  intros H1 H2 H3 H.
  apply (play_out_loop_invariant
           (λ r, decks_from_catalogue r ∧
                 length (State.card_sequence (r_st r)) = 40%nat ∧
                 Forall catalogue_card (resolved_cards (r_st r)))) in H; [by destruct H as (_ & _ & ?)| |].
  - intros r0 m r1 c (Hd & Hlen & Hres) Hc.
    destruct (commit_step_from_catalogue _ _ _ _ Hd Hc) as [Hd' Hcat].
    pose proof (cs_cards_room _ _ _ _ Hc) as Hroom.
    split; [done|]. split; [by rewrite (cs_cards _ _ _ _ Hc), length_insert|].
    unfold resolved_cards. rewrite (cs_cards _ _ _ _ Hc), (cs_cards_sz _ _ _ _ Hc).
    replace (Z.to_nat (State.card_sequence_sz (r_st r0) + 1))
      with (S (Z.to_nat (State.card_sequence_sz (r_st r0)))) by lia.
    rewrite take_S_insert by lia. apply Forall_app. split; [done|].
    constructor; [done|constructor].
  - split; [done|]. split; [done|]. constructor.
Qed.

(** X16.  [print] of a state replayed against decks of catalogue cards
    does not reach FATAL and reads no array out of range; the summary shows
    the points as the sum of the resolved cards' values and a value
    [cc <= 28], and there is one line per round, carrying the resolved
    tokens in order. *)
Theorem print_of_refined_state (d1 d2 d3 : Deck.t) (cand refined : State.t) :
  deck_from_catalogue d1 → deck_from_catalogue d2 → deck_from_catalogue d3 →
  play_out State.new d1 d2 d3 cand = Ok refined →
  ∃ po, State.print refined = Ok (Some po) ∧
        State.po_cc po ≤ 28 ∧
        State.po_points po = sum_values (resolved_cards refined) ∧
        map fst (State.po_lines po) = resolved_moves refined ∧
        Z.of_nat (length (State.po_lines po)) = State.rounds refined.
Proof.
  intros H1 H2 H3 H. unfold play_out in H. apply bind_Ok in H as (r & E & H).
  inversion H; subst; clear H.
  pose proof (play_out_loop_resolved_catalogue _ _ _ _ _ _ _ H1 H2 H3 E) as Hcat.
  apply play_out_loop_books in E as [Hml Hcl Hmsz Hcsz Hrounds Htokens Hbudget Hpoints Hshown Hbl Hbonus].
  assert (0 ≤ (State.tokens_cost (r_st r) + 3) `div` 4) by (apply Z.div_pos; lia).
  unfold State.print. rewrite Hcsz, Hmsz, Z.eqb_refl. cbn [negb].
  destruct (print_lines_defined (Z.to_nat (State.rounds (r_st r))) 0 (r_st r))
    as (ls & Els & Hfst); [lia|lia| |].
  { intros k Hk. rewrite Forall_forall in Hcat. apply Hcat, list_elem_of_In.
    unfold resolved_cards.
    rewrite <- (take_drop (Z.to_nat (State.card_sequence_sz (r_st r)))
                  (State.card_sequence (r_st r))) at 1.
    rewrite app_nth1 by (rewrite length_take; lia).
    apply nth_In. rewrite length_take. lia. }
  rewrite Els. cbn [mbind result_mbind result_bind option_bind].
  eexists. split; [reflexivity|].
  cbn [State.po_cc State.po_points State.po_lines].
  rewrite Z.quot_div_nonneg by lia.
  split; [lia|]. split; [done|].
  change (Z.to_nat 0) with 0%nat in Hfst.
  rewrite tokens_from_take in Hfst by lia.
  assert (Hm : map fst ls = resolved_moves (r_st r)).
  { unfold resolved_moves. by rewrite Hmsz. }
  split; [done|].
  rewrite <- (length_map fst ls), Hm. unfold resolved_moves.
  rewrite length_take. lia.
Qed.

Lemma print_of_refined_state_witness :
  ∃ refined po,
    play_out State.new deck_green deck_red Deck.new cand_100 = Ok refined ∧
    State.print refined = Ok (Some po) ∧ State.po_cc po ≤ 28 ∧
    map fst (State.po_lines po) = resolved_moves refined.
Proof.
  destruct (play_out State.new deck_green deck_red Deck.new cand_100) as [refined| |] eqn:E;
    [|exfalso; vm_compute in E; discriminate E..].
  destruct (print_of_refined_state deck_green deck_red Deck.new cand_100 refined
              deck_green_from_catalogue ltac:(split; cbn; solve_slots)
              deck_new_from_catalogue E) as (po & Hp & Hcc & _ & Hl & _).
  exists refined, po. split; [reflexivity|]. split; [exact Hp|]. split; [exact Hcc|exact Hl].
Defined.

(** ** One mutation of a sequence *)

Lemma edit_changes (l l' : list Z) : edit l l' → l' ≠ l.
Proof.
  intros [l0 pos next Hpos _ Hne|l0 pos tok Hpos _ _|l0 px py Hpx Hpy _ Hne] E.
  - apply (f_equal (λ k, nth pos k 0)) in E. rewrite nth_insert_eq in E by done. done.
  - apply (f_equal length) in E. rewrite length_app in E. cbn [length] in E.
    rewrite length_take, length_drop in E. lia.
  - apply (f_equal (λ k, nth py k 0)) in E.
    rewrite nth_insert_eq in E by (by rewrite length_insert). done.
Qed.

Lemma resolved_moves_length (st : State.t) :
  seq_ok st → length (resolved_moves st) = Z.to_nat (State.move_sequence_sz st).
Proof. intros (Hlen & Hsz & _). unfold resolved_moves. rewrite length_take. lia. Qed.

Lemma resolved_moves_nth (st : State.t) (k : nat) :
  (k < Z.to_nat (State.move_sequence_sz st))%nat →
  nth k (resolved_moves st) 0 = nth k (State.move_sequence st) 0.
Proof.
  intros H. unfold resolved_moves. rewrite nth_firstn.
  by destruct (Nat.ltb_spec k (Z.to_nat (State.move_sequence_sz st))); [|lia].
Qed.

(** The sequence after INSERT, given what the shifting loop leaves. *)
Lemma insert_shifted (ms ms1 : list Z) (sz pos tok : Z) :
  length ms = 40%nat → length ms1 = 40%nat → 0 ≤ pos ≤ sz → sz ≤ 30 →
  (∀ j, 0 ≤ j →
        nth (Z.to_nat j) ms1 0 =
        if (sz - Z.of_nat (Z.to_nat (sz - pos)) <? j) && (j <=? sz)
        then nth (Z.to_nat (j - 1)) ms 0 else nth (Z.to_nat j) ms 0) →
  take (Z.to_nat (sz + 1)) (<[Z.to_nat pos := tok]> ms1)
  = take (Z.to_nat pos) (take (Z.to_nat sz) ms) ++ tok :: drop (Z.to_nat pos) (take (Z.to_nat sz) ms).
Proof.
  intros Hms Hms1 Hpos Hsz Hnth.
  apply nth_ext with (d := 0) (d' := 0).
  - rewrite length_app, !length_take, length_insert. cbn [length].
    rewrite length_drop, length_take. lia.
  - intros k Hk. rewrite length_take, length_insert in Hk.
    rewrite nth_firstn. destruct (Nat.ltb_spec k (Z.to_nat (sz + 1))); [|lia].
    destruct (lt_eq_lt_dec k (Z.to_nat pos)) as [[Hlt|Heq]|Hgt].
    + rewrite nth_insert_ne by lia.
      rewrite app_nth1 by (rewrite !length_take; lia).
      rewrite !nth_firstn.
      destruct (Nat.ltb_spec k (Z.to_nat pos)); [|lia].
      destruct (Nat.ltb_spec k (Z.to_nat sz)); [|lia].
      specialize (Hnth (Z.of_nat k) ltac:(lia)). rewrite Nat2Z.id in Hnth.
      rewrite Hnth.
      destruct (Z.ltb_spec (sz - Z.of_nat (Z.to_nat (sz - pos))) (Z.of_nat k)); [lia|done].
    + subst k. rewrite nth_insert_eq by lia.
      rewrite app_nth2 by (rewrite !length_take; lia).
      rewrite !length_take.
      replace (Z.to_nat pos - Z.to_nat pos `min` (Z.to_nat sz `min` length ms))%nat
        with 0%nat by lia.
      done.
    + rewrite nth_insert_ne by lia.
      rewrite app_nth2 by (rewrite !length_take; lia).
      rewrite !length_take.
      replace (k - Z.to_nat pos `min` (Z.to_nat sz `min` length ms))%nat
        with (S (k - Z.to_nat pos - 1)) by lia.
      cbn [nth]. rewrite nth_skipn, nth_firstn.
      destruct (Nat.ltb_spec (Z.to_nat pos + (k - Z.to_nat pos - 1)) (Z.to_nat sz)); [|lia].
      specialize (Hnth (Z.of_nat k) ltac:(lia)). rewrite Nat2Z.id in Hnth.
      rewrite Hnth.
      destruct (Z.ltb_spec (sz - Z.of_nat (Z.to_nat (sz - pos))) (Z.of_nat k)); [|lia].
      destruct (Z.leb_spec (Z.of_nat k) sz); [|lia]. cbn [andb].
      f_equal. lia.
Qed.

(** A successful [mutate] is one edit of the live tokens and touches
    nothing else. *)
Lemma mutate_edit fuel st tw st' tw' :
  seq_ok st → mutate fuel st tw = Ok (true, st', tw') →
  edit (resolved_moves st) (resolved_moves st') ∧
  State.points st' = State.points st ∧ State.tokens_cost st' = State.tokens_cost st ∧
  State.rounds st' = State.rounds st ∧ State.card_sequence st' = State.card_sequence st ∧
  State.card_sequence_sz st' = State.card_sequence_sz st.
Proof.
  intros Hst H. pose proof (resolved_moves_length st Hst) as Hrl.
  pose proof Hst as (Hlen & Hsz & Htok). unfold mutate in H.
  apply bind_Ok in H as ([m tw1] & Em & H).
  apply next_int_max_range in Em; [|lia].
  destruct (Z.eqb_spec m 0) as [E0|E0];
    [|destruct (Z.eqb_spec m 1) as [E1|E1]; [|destruct (Z.eqb_spec m 2) as [E2|E2]; [|lia]]].
  - destruct (Z.eqb_spec (State.move_sequence_sz st) 0); [done|].
    apply bind_Ok in H as ([pos tw2] & Epos & H).
    apply next_int_max_range in Epos; [|lia].
    apply bind_Ok in H as (old & Eold & H).
    unfold State.moves_get in Eold. apply arr_get_Ok in Eold as [_ ->].
    apply bind_Ok in H as ([next tw3] & Enext & H).
    apply change_loop_range in Enext as [Hnext Hne].
    rewrite moves_set_in in H by lia. inversion H; subst; clear H.
    split; [|done]. unfold resolved_moves at 2.
    cbn [with_moves State.move_sequence State.move_sequence_sz].
    rewrite take_insert_lt by lia. fold (resolved_moves st).
    apply Change; [lia|done|]. by rewrite resolved_moves_nth by lia.
  - destruct (Z.ltb_spec 30 (State.move_sequence_sz st)); [done|].
    apply bind_Ok in H as ([pos tw2] & Epos & H).
    apply next_int_max_range in Epos; [|lia].
    destruct (shift_loop_spec (Z.to_nat (State.move_sequence_sz st - pos))
                (State.move_sequence_sz st) st) as (ms & E & Hms & Hnth); [lia|lia|done|].
    rewrite E in H. cbn [mbind result_mbind result_bind] in H.
    apply bind_Ok in H as ([tok tw3] & Etok & H).
    apply next_int_max_range in Etok; [|lia].
    rewrite moves_set_in in H by lia. inversion H; subst; clear H.
    split; [|done]. unfold resolved_moves at 2.
    cbn [set_move_sequence_sz with_moves State.move_sequence State.move_sequence_sz].
    rewrite (insert_shifted (State.move_sequence st) ms (State.move_sequence_sz st) pos tok)
      by (done || lia).
    fold (resolved_moves st). apply Insert; [lia|lia|done].
  - destruct (Z.ltb_spec (State.move_sequence_sz st) 3); [done|].
    apply bind_Ok in H as ([px tw2] & Epx & H).
    apply next_int_max_range in Epx; [|lia].
    apply bind_Ok in H as ([py tw3] & Epy & H).
    apply next_int_max_range in Epy; [|lia].
    destruct (Z.eqb_spec px py); [done|].
    rewrite !moves_get_in in H by lia. cbn [mbind result_mbind result_bind] in H.
    destruct (Z.eqb_spec (nth (Z.to_nat px) (State.move_sequence st) 0)
                (nth (Z.to_nat py) (State.move_sequence st) 0)) as [Eab|Eab]; [done|].
    rewrite moves_set_in in H by lia. cbn [mbind result_mbind result_bind] in H.
    rewrite moves_set_in in H by lia. inversion H; subst; clear H.
    split; [|done]. unfold resolved_moves at 2.
    cbn [with_moves State.move_sequence State.move_sequence_sz].
    rewrite !take_insert_lt by lia. fold (resolved_moves st).
    rewrite <- (resolved_moves_nth st (Z.to_nat px)) by lia.
    rewrite <- (resolved_moves_nth st (Z.to_nat py)) by lia.
    apply Swap; [lia|lia|lia|].
    by rewrite !resolved_moves_nth by lia.
Qed.

(** X17.  A [mutate] that returns false leaves the state as it was.  One
    that returns true has made exactly one edit of the live tokens: it has
    replaced one token by a different token of 0..9, or inserted a token of
    0..9 into a sequence of at most 30, or exchanged two different tokens of
    a sequence of at least 3.  The live tokens are never the same as before,
    and points, token cost, rounds and the card sequence are untouched. *)
Theorem mutate_is_one_edit (fuel : nat) (st : State.t) (tw : Twister.t)
    (ok : bool) (st' : State.t) (tw' : Twister.t) :
  seq_ok st → mutate fuel st tw = Ok (ok, st', tw') →
  (ok = false → st' = st) ∧
  (ok = true →
   edit (resolved_moves st) (resolved_moves st') ∧
   resolved_moves st' ≠ resolved_moves st ∧
   State.points st' = State.points st ∧ State.tokens_cost st' = State.tokens_cost st ∧
   State.rounds st' = State.rounds st ∧ State.card_sequence st' = State.card_sequence st ∧
   State.card_sequence_sz st' = State.card_sequence_sz st).
Proof.
  intros Hst H. split.
  - by destruct (proj2 (mutate_spec fuel st tw Hst) _ _ _ H) as (_ & ? & _).
  - intros ->. destruct (mutate_edit _ _ _ _ _ Hst H) as (He & ?).
    split; [done|]. split; [by apply edit_changes|done].
Qed.

Lemma mutate_is_one_edit_witness :
  ∃ st' tw',
    mutate 8 State.new tw_insert_4 = Ok (true, st', tw') ∧
    edit (resolved_moves State.new) (resolved_moves st') ∧
    resolved_moves st' ≠ resolved_moves State.new.
Proof.
  assert (Hrun : match mutate 8 State.new tw_insert_4 with
                 | Ok (true, _, _) => true
                 | _ => false
                 end = true) by (vm_compute; reflexivity).
  destruct (mutate 8 State.new tw_insert_4) as [[[[|] st'] tw']| |] eqn:E;
    [|discriminate Hrun..].
  exists st', tw'. split; [reflexivity|].
  destruct (proj2 (mutate_is_one_edit 8 State.new tw_insert_4 true st' tw' seq_ok_new E)
              eq_refl) as (H1 & H2 & _).
  split; [exact H1|exact H2].
Defined.

Lemma edit_of_empty (l l' : list Z) :
  edit l l' → l = [] → ∃ tok, 0 ≤ tok < 10 ∧ l' = [tok].
Proof.
  intros [l0 pos next Hpos _ _|l0 pos tok Hpos _ Htok|l0 px py _ _ H3 _] ->;
    cbn [length] in *; try lia.
  exists tok. split; [done|]. by replace pos with 0%nat by lia.
Qed.

Lemma mutate_retry_edit n fuel st tw st' tw' :
  seq_ok st → mutate_retry n fuel st tw = Ok (st', tw') →
  edit (resolved_moves st) (resolved_moves st') ∧
  State.points st' = State.points st ∧ State.tokens_cost st' = State.tokens_cost st ∧
  State.rounds st' = State.rounds st ∧ State.card_sequence st' = State.card_sequence st ∧
  State.card_sequence_sz st' = State.card_sequence_sz st.
Proof.
  revert st tw. induction n as [|n IH]; intros st tw Hst H; [done|].
  cbn [mutate_retry] in H. apply bind_Ok in H as ([[ok st1] tw1] & E & H).
  destruct ok.
  - inversion H; subst; clear H. by eapply mutate_edit.
  - destruct (proj2 (mutate_spec fuel st tw Hst) _ _ _ E) as (_ & Hsame & _).
    rewrite (Hsame eq_refl) in H. by eapply IH.
Qed.

(** X18.  The candidate that the retry loop around [mutate] hands to the
    replay differs from the incumbent by exactly one such edit.  From an
    empty sequence it is a single token of 0..9, and from a sequence of 31
    tokens it has 31 tokens again. *)
Theorem candidate_is_one_edit_away (n fuel : nat) (st : State.t) (tw : Twister.t)
    (st' : State.t) (tw' : Twister.t) :
  seq_ok st → mutate_retry n fuel st tw = Ok (st', tw') →
  edit (resolved_moves st) (resolved_moves st') ∧
  resolved_moves st' ≠ resolved_moves st ∧
  (State.move_sequence_sz st = 0 → ∃ tok, 0 ≤ tok < 10 ∧ resolved_moves st' = [tok]) ∧
  (State.move_sequence_sz st = 31 → State.move_sequence_sz st' = 31) ∧
  State.points st' = State.points st ∧ State.tokens_cost st' = State.tokens_cost st ∧
  State.rounds st' = State.rounds st ∧ State.card_sequence st' = State.card_sequence st ∧
  State.card_sequence_sz st' = State.card_sequence_sz st.
Proof.
  intros Hst H. destruct (mutate_retry_edit _ _ _ _ _ _ Hst H) as (He & Hrest).
  split; [done|]. split; [by apply edit_changes|]. split; [|split; [|done]].
  - intros Hz. apply (edit_of_empty _ _ He).
    apply nil_length_inv. rewrite resolved_moves_length by done. lia.
  - intros Hfull.
    destruct (proj2 (mutate_retry_spec n fuel st tw Hst) _ _ H) as (_ & [?|[_ ?]]); lia.
Qed.

Lemma candidate_is_one_edit_away_witness :
  ∃ st' tw',
    mutate_retry 8 8 State.new tw_insert_4 = Ok (st', tw') ∧
    ∃ tok, 0 ≤ tok < 10 ∧ resolved_moves st' = [tok].
Proof.
  assert (Hrun : match mutate_retry 8 8 State.new tw_insert_4 with
                 | Ok _ => true
                 | _ => false
                 end = true) by (vm_compute; reflexivity).
  destruct (mutate_retry 8 8 State.new tw_insert_4) as [[st' tw']| |] eqn:E;
    [|discriminate Hrun..].
  exists st', tw'. split; [reflexivity|].
  destruct (candidate_is_one_edit_away 8 8 State.new tw_insert_4 st' tw' seq_ok_new E)
    as (_ & _ & H & _).
  exact (H eq_refl).
Defined.

(** ** The state of the generator *)

Lemma fits_lxor k a b :
  0 ≤ k → 0 ≤ a < 2 ^ k → 0 ≤ b < 2 ^ k → 0 ≤ Z.lxor a b < 2 ^ k.
Proof.
  intros Hk Ha Hb.
  assert (0 ≤ Z.lxor a b) by (apply Z.lxor_nonneg; lia).
  split; [done|].
  destruct (Z.eq_dec (Z.lxor a b) 0) as [->|Hn]; [apply Z.pow_pos_nonneg; lia|].
  apply Z.log2_lt_pow2; [lia|].
  pose proof (Z.log2_lxor a b ltac:(lia) ltac:(lia)).
  destruct (Z.eq_dec a 0) as [->|Hna].
  { rewrite Z.lxor_0_l in *. apply Z.log2_lt_pow2; lia. }
  destruct (Z.eq_dec b 0) as [->|Hnb].
  { rewrite Z.lxor_0_r in *. apply Z.log2_lt_pow2; lia. }
  assert (Z.log2 a < k) by (apply Z.log2_lt_pow2; lia).
  assert (Z.log2 b < k) by (apply Z.log2_lt_pow2; lia).
  lia.
Qed.

Lemma tab_at_fits (tab : list Z) (i : Z) :
  Forall (λ w, 0 ≤ w < 2 ^ 32) tab → 0 ≤ Twister.tab_at tab i < 2 ^ 32.
Proof.
  intros H. unfold Twister.tab_at.
  destruct (nth_in_or_default (Z.to_nat i) tab 0) as [Hin| ->]; [|lia].
  rewrite Forall_forall in H. by apply H, list_elem_of_In.
Qed.

Lemma twist_fits (tab : list Z) (i iv is1 : Z) :
  Forall (λ w, 0 ≤ w < 2 ^ 32) tab →
  Forall (λ w, 0 ≤ w < 2 ^ 32) (Twister.twist tab i iv is1) ∧
  length (Twister.twist tab i iv is1) = length tab.
Proof.
  intros H. unfold Twister.twist. split; [|by rewrite length_insert].
  apply Forall_insert; [done|].
  pose proof (tab_at_fits tab i H). pose proof (tab_at_fits tab iv H).
  pose proof (tab_at_fits tab is1 H).
  apply fits_lxor; [lia| |].
  - apply fits_lxor; [lia|done|]. apply fits_shiftr; [lia|].
    apply fits_lor; [lia| |]; apply fits_land; lia.
  - apply fits_land; [apply wrap32_range|lia].
Qed.

Lemma twist_loop_fits (n : nat) (i off : Z) (tab : list Z) :
  Forall (λ w, 0 ≤ w < 2 ^ 32) tab →
  Forall (λ w, 0 ≤ w < 2 ^ 32) (Twister.twist_loop n i off tab) ∧
  length (Twister.twist_loop n i off tab) = length tab.
Proof.
  revert i tab. induction n as [|n IH]; intros i tab H; cbn [Twister.twist_loop]; [done|].
  destruct (twist_fits tab i (i + off) (i + 1) H) as [H1 H2].
  destruct (IH (i + 1) _ H1) as [H3 H4]. split; [done|]. by rewrite H4.
Qed.

Lemma generate_numbers_wf (tw : Twister.t) :
  length (Twister.tab_ tw) = 624%nat → Forall (λ w, 0 ≤ w < 2 ^ 32) (Twister.tab_ tw) →
  twister_wf (Twister.generate_numbers tw) ∧
  Twister.ptr_ (Twister.generate_numbers tw) = 0.
Proof.
  intros Hlen Hfit. unfold Twister.generate_numbers. cbv zeta.
  destruct (twist_loop_fits (Z.to_nat (Twister.N - Twister.M)) 0 Twister.M _ Hfit)
    as [H1 L1].
  destruct (twist_loop_fits (Z.to_nat (Twister.M - 1)) (Twister.N - Twister.M)
              (Twister.M - Twister.N) _ H1) as [H2 L2].
  destruct (twist_fits _ (Twister.N - 1) (Twister.M - 1) 0 H2) as [H3 L3].
  split; [|done]. split; [|split; [done|]]; cbn [Twister.tab_ Twister.ptr_].
  - by rewrite L3, L2, L1.
  - unfold Twister.N. lia.
Qed.

Lemma init_loop_fits (n : nat) (i prev : Z) :
  Forall (λ w, 0 ≤ w < 2 ^ 32) (Twister.init_loop n i prev) ∧
  length (Twister.init_loop n i prev) = n.
Proof.
  revert i prev. induction n as [|n IH]; intros i prev; cbn [Twister.init_loop]; [done|].
  destruct (IH (i + 1) (wrap32 (1812433253 * Z.lxor prev (Z.shiftr prev 30) + i)))
    as [H1 H2].
  split; [constructor; [apply wrap32_range|done]|]. cbn [length]. by rewrite H2.
Qed.

Lemma init_wf (seed : Z) : twister_wf (Twister.init seed) ∧ Twister.ptr_ (Twister.init seed) = 0.
Proof.
  unfold Twister.init. cbv zeta.
  destruct (init_loop_fits (Z.to_nat (Twister.N - 1)) 1 (wrap32 seed)) as [H1 H2].
  apply generate_numbers_wf; cbn [Twister.tab_].
  - cbn [length]. rewrite H2. reflexivity.
  - constructor; [apply wrap32_range|done].
Qed.

Lemma to_int32_range (x : Z) : - 2 ^ 31 ≤ to_int32 x < 2 ^ 31.
Proof.
  unfold to_int32. pose proof (wrap32_range x).
  destruct (Z.ltb_spec (wrap32 x) (2 ^ 31)); lia.
Qed.

Lemma next_int_wf (tw : Twister.t) :
  twister_wf tw →
  twister_wf (Twister.next_int tw).2 ∧
  - 2 ^ 31 ≤ (Twister.next_int tw).1 < 2 ^ 31 ∧
  1 ≤ Twister.ptr_ (Twister.next_int tw).2 ∧
  (Twister.ptr_ tw < Twister.N →
   Twister.ptr_ (Twister.next_int tw).2 = Twister.ptr_ tw + 1 ∧
   Twister.tab_ (Twister.next_int tw).2 = Twister.tab_ tw ∧
   (Twister.next_int tw).1 = Twister.extract_number tw (Twister.ptr_ tw)) ∧
  (Twister.ptr_ tw = Twister.N →
   Twister.ptr_ (Twister.next_int tw).2 = 1 ∧
   Twister.tab_ (Twister.next_int tw).2 = Twister.tab_ (Twister.generate_numbers tw)).
Proof.
  intros (Hlen & Hfit & Hptr). unfold Twister.next_int. cbv zeta. cbn [fst snd].
  split; [|split; [apply to_int32_range|]].
  - destruct (Z.leb_spec Twister.N (Twister.ptr_ tw)).
    + destruct (generate_numbers_wf tw Hlen Hfit) as [(L & F & _) P].
      split; [done|]. split; [done|]. cbn [Twister.ptr_]. rewrite P. unfold Twister.N. lia.
    + split; [done|]. split; [done|]. cbn [Twister.ptr_]. lia.
  - destruct (Z.leb_spec Twister.N (Twister.ptr_ tw)).
    + destruct (generate_numbers_wf tw Hlen Hfit) as [_ P].
      cbn [Twister.ptr_ Twister.tab_]. rewrite P.
      split; [lia|]. split; [lia|]. by intros _.
    + cbn [Twister.ptr_ Twister.tab_]. split; [lia|]. split; [done|]. lia.
Qed.

Lemma next_int_loop_wf fuel used max tw a tw' :
  twister_wf tw → Twister.next_int_loop fuel used max tw = Ok (a, tw') → twister_wf tw'.
Proof.
  revert tw. induction fuel as [|fuel IH]; intros tw Hwf; [done|].
  rewrite next_int_loop_S. cbv zeta.
  pose proof (proj1 (next_int_wf tw Hwf)) as Hwf1.
  destruct (_ <=? _); [by apply IH|]. by intros [= <- <-].
Qed.

(** X19.  The generator keeps its state well formed: after [init] the
    table has 624 words of 32 bits and the index is 0; every draw keeps the
    table in that form and leaves the index in 1..624; a draw below the end
    of the table reads the word at the index and advances it by one, a draw
    at the end regenerates the table first.  [next_float] and the bounded
    draw keep the state well formed as well, and [next_float] advances the
    generator exactly as [next_int] does. *)
Theorem twister_state_invariant :
  (∀ seed, twister_wf (Twister.init seed) ∧ Twister.ptr_ (Twister.init seed) = 0) ∧
  (∀ tw, twister_wf tw →
     twister_wf (Twister.next_int tw).2 ∧
     - 2 ^ 31 ≤ (Twister.next_int tw).1 < 2 ^ 31 ∧
     1 ≤ Twister.ptr_ (Twister.next_int tw).2 ∧
     (Twister.ptr_ tw < Twister.N →
      Twister.ptr_ (Twister.next_int tw).2 = Twister.ptr_ tw + 1 ∧
      Twister.tab_ (Twister.next_int tw).2 = Twister.tab_ tw ∧
      (Twister.next_int tw).1 = Twister.extract_number tw (Twister.ptr_ tw)) ∧
     (Twister.ptr_ tw = Twister.N →
      Twister.ptr_ (Twister.next_int tw).2 = 1 ∧
      Twister.tab_ (Twister.next_int tw).2 = Twister.tab_ (Twister.generate_numbers tw))) ∧
  (∀ tw, twister_wf tw →
     twister_wf (Twister.next_float tw).2 ∧
     (Twister.next_float tw).2 = (Twister.next_int tw).2) ∧
  (∀ fuel max tw a tw',
     twister_wf tw → Twister.next_int_max fuel max tw = Ok (a, tw') → twister_wf tw').
Proof.
  split; [apply init_wf|]. split; [apply next_int_wf|]. split.
  - intros tw Hwf.
    assert ((Twister.next_float tw).2 = (Twister.next_int tw).2) as E by reflexivity.
    rewrite E. split; [apply (next_int_wf tw Hwf)|done].
  - intros fuel max tw a tw' Hwf H. by eapply next_int_loop_wf.
Qed.

Lemma twister_state_invariant_witness :
  twister_wf (Twister.next_int annealing_twister).2 ∧
  Twister.ptr_ (Twister.next_int annealing_twister).2 = 1.
Proof.
  destruct twister_state_invariant as (Hinit & Hnext & _).
  destruct (Hinit 549120939) as [Hwf Hp].
  destruct (Hnext annealing_twister Hwf) as (H1 & _ & _ & H2 & _).
  split; [exact H1|].
  unfold annealing_twister in *. rewrite (proj1 (H2 ltac:(rewrite Hp; reflexivity))), Hp.
  reflexivity.
Defined.

(** ** The mask of a bounded draw *)

(** One [used |= used >> w] doubles the window of bits of [x] that a bit
    of [used] collects. *)
Lemma smear_step (a x w : Z) :
  0 ≤ w →
  (∀ n, 0 ≤ n → Z.testbit a n = true ↔ ∃ j, 0 ≤ j < w ∧ Z.testbit x (n + j) = true) →
  ∀ n, 0 ≤ n →
       Z.testbit (Z.lor a (Z.shiftr a w)) n = true
       ↔ ∃ j, 0 ≤ j < 2 * w ∧ Z.testbit x (n + j) = true.
Proof.
  intros Hw Ha n Hn. rewrite Z.lor_spec, Z.shiftr_spec, orb_true_iff by done.
  rewrite (Ha n Hn), (Ha (n + w)) by lia. split.
  - intros [(j & Hj & Hb)|(j & Hj & Hb)].
    + exists j. split; [lia|done].
    + exists (w + j). split; [lia|]. by rewrite Z.add_assoc.
  - intros (j & Hj & Hb). destruct (Z.lt_ge_cases j w).
    + left. exists j. split; [lia|done].
    + right. exists (j - w). split; [lia|].
      by replace (n + w + (j - w)) with (n + j) by lia.
Qed.

Lemma smear_bits (x n : Z) :
  0 ≤ n →
  Z.testbit (Twister.smear x) n = true ↔ ∃ j, 0 ≤ j < 32 ∧ Z.testbit x (n + j) = true.
Proof.
  revert n. unfold Twister.smear.
  apply (smear_step _ x 16); [lia|]. apply (smear_step _ x 8); [lia|].
  apply (smear_step _ x 4); [lia|]. apply (smear_step _ x 2); [lia|].
  apply (smear_step _ x 1); [lia|].
  intros n Hn. split.
  - intros H. exists 0. split; [lia|]. by rewrite Z.add_0_r.
  - intros (j & Hj & H). by replace (n + j) with n in H by lia.
Qed.

Lemma smear_log2 (x : Z) : 0 < x < 2 ^ 32 → Twister.smear x = 2 ^ (Z.log2 x + 1) - 1.
Proof.
  intros Hx. pose proof (Z.log2_nonneg x) as Hl.
  assert (Z.log2 x < 32) as Hl32 by (apply Z.log2_lt_pow2; lia).
  replace (2 ^ (Z.log2 x + 1) - 1) with (Z.ones (Z.log2 x + 1))
    by (rewrite Z.ones_equiv; lia).
  apply Z.bits_inj'. intros n Hn. rewrite Z.testbit_ones_nonneg by lia.
  apply eq_true_iff_eq. rewrite smear_bits, Z.ltb_lt by done. split.
  - intros (j & Hj & Hb).
    destruct (Z.lt_ge_cases (Z.log2 x) (n + j)) as [Hgt|Hle]; [|lia].
    rewrite Z.bits_above_log2 in Hb by lia. done.
  - intros Hlt. exists (Z.log2 x - n). split; [lia|].
    replace (n + (Z.log2 x - n)) with (Z.log2 x) by lia. apply Z.bit_log2. lia.
Qed.

Lemma used_mask_pow2_minus_1 (max : Z) :
  1 ≤ max < 2 ^ 31 →
  ∃ k, 0 ≤ k ≤ 31 ∧ Twister.used_mask max = 2 ^ k - 1 ∧ max ≤ 2 ^ k < 2 * max.
Proof.
  intros Hmax. unfold Twister.used_mask. rewrite wrap32_small by lia.
  destruct (Z.eq_dec max 1) as [->|Hne].
  { exists 0. split; [lia|]. split; [reflexivity|]. cbn. lia. }
  rewrite smear_log2 by lia.
  pose proof (Z.log2_spec (max - 1) ltac:(lia)) as [Hlo Hhi].
  pose proof (Z.log2_nonneg (max - 1)) as Hl.
  assert (Z.log2 (max - 1) < 31) as Hl31 by (apply Z.log2_lt_pow2; lia).
  exists (Z.log2 (max - 1) + 1). split; [lia|]. split; [done|].
  replace (Z.succ (Z.log2 (max - 1))) with (Z.log2 (max - 1) + 1) in Hhi by lia.
  rewrite Z.pow_add_r in * by lia. lia.
Qed.

(** X20.  The mask that [next_int(max)] computes from [max - 1] is
    [2^k - 1] for the smallest [k] with [max <= 2^k]; then [2^k < 2 * max],
    so more than half of the masked values are below [max]. *)
Theorem used_mask_smallest_covering (max : Z) :
  1 ≤ max < 2 ^ 31 →
  ∃ k, 0 ≤ k ≤ 31 ∧ Twister.used_mask max = 2 ^ k - 1 ∧ max ≤ 2 ^ k < 2 * max ∧
       ∀ k', 0 ≤ k' → max ≤ 2 ^ k' → k ≤ k'.
Proof.
  intros Hmax. destruct (used_mask_pow2_minus_1 max Hmax) as (k & Hk & Hu & Hlo & Hhi).
  exists k. split; [done|]. split; [done|]. split; [done|].
  intros k' Hk' Hle. destruct (Z.le_gt_cases k k') as [?|Hgt]; [done|].
  assert (2 ^ (k' + 1) ≤ 2 ^ k) by (apply Z.pow_le_mono_r; lia).
  rewrite Z.pow_add_r in * by lia. lia.
Qed.

Lemma used_mask_smallest_covering_witness :
  ∃ k, 0 ≤ k ≤ 31 ∧ Twister.used_mask 10 = 2 ^ k - 1 ∧ 10 ≤ 2 ^ k < 2 * 10 ∧
       ∀ k', 0 ≤ k' → 10 ≤ 2 ^ k' → k ≤ k'.
Proof. apply (used_mask_smallest_covering 10). lia. Defined.

(** X22.  A bounded draw is rejection sampling on the low [k] bits of the
    raw word, [2^k] being the smallest power of two not below the bound: the
    draw is accepted when these bits are below the bound and is repeated
    otherwise, and each value has exactly [2^(32 - k)] raw words as
    preimages. *)
Theorem bounded_draw_is_rejection_sampling (fuel : nat) (max : Z) (tw : Twister.t) :
  1 ≤ max < 2 ^ 31 →
  ∃ k, 0 ≤ k ≤ 31 ∧ max ≤ 2 ^ k < 2 * max ∧
       Twister.next_int_max (S fuel) max tw
       = (if max <=? wrap32 (Twister.next_int tw).1 `mod` 2 ^ k
          then Twister.next_int_max fuel max (Twister.next_int tw).2
          else Ok (wrap32 (Twister.next_int tw).1 `mod` 2 ^ k, (Twister.next_int tw).2)) ∧
       ∀ v w, 0 ≤ v < max → 0 ≤ w < 2 ^ 32 →
              (w `mod` 2 ^ k = v ↔ ∃ j, 0 ≤ j < 2 ^ (32 - k) ∧ w = v + 2 ^ k * j).
Proof.
  intros Hmax. destruct (used_mask_pow2_minus_1 max Hmax) as (k & Hk & Hu & Hlo & Hhi).
  exists k. split; [done|]. split; [done|]. split.
  - unfold Twister.next_int_max. rewrite next_int_loop_S. cbv zeta. rewrite Hu.
    assert (2 ^ k ≤ 2 ^ 31) by (apply Z.pow_le_mono_r; lia).
    assert (0 < 2 ^ k) by (apply Z.pow_pos_nonneg; lia).
    destruct (masked_draw_range (Twister.next_int tw).1 (2 ^ k - 1)) as [_ ->]; [lia|].
    replace (2 ^ k - 1) with (Z.ones k) by (rewrite Z.ones_equiv; lia).
    rewrite Z.land_ones by lia. reflexivity.
  - intros v w Hv Hw. apply low_bits_fibres; lia.
Qed.

Lemma bounded_draw_is_rejection_sampling_witness :
  ∃ k, 0 ≤ k ≤ 31 ∧ 10 ≤ 2 ^ k < 2 * 10 ∧
       Twister.next_int_max 2 10 tw_top
       = (if 10 <=? wrap32 (Twister.next_int tw_top).1 `mod` 2 ^ k
          then Twister.next_int_max 1 10 (Twister.next_int tw_top).2
          else Ok (wrap32 (Twister.next_int tw_top).1 `mod` 2 ^ k,
                   (Twister.next_int tw_top).2)).
Proof.
  destruct (bounded_draw_is_rejection_sampling 1 10 tw_top ltac:(lia))
    as (k & H1 & H2 & H3 & _).
  exists k. split; [exact H1|]. split; [exact H2|exact H3].
Defined.

(** ** Tempering *)

Lemma lxor_swap (a b c d : Z) :
  Z.lxor (Z.lxor a b) (Z.lxor c d) = Z.lxor (Z.lxor a c) (Z.lxor b d).
Proof.
  apply Z.bits_inj'. intros n _. rewrite !Z.lxor_spec. btauto.
Qed.

Lemma wrap32_land (x : Z) : wrap32 x = Z.land x (Z.ones 32).
Proof. unfold wrap32. by rewrite Z.land_ones by lia. Qed.

Lemma xor_linear_id : xor_linear (λ y, y).
Proof. by intros a b. Qed.

Lemma xor_linear_shiftr (s : Z) : xor_linear (λ y, Z.shiftr y s).
Proof. intros a b. apply Z.shiftr_lxor. Qed.

Lemma xor_linear_mask (s c : Z) : xor_linear (λ y, Z.land (wrap32 (Z.shiftl y s)) c).
Proof.
  intros a b. cbv beta. rewrite Z.shiftl_lxor, !wrap32_land.
  apply Z.bits_inj'. intros n _. rewrite !Z.lxor_spec, !Z.land_spec, !Z.lxor_spec. btauto.
Qed.

Lemma xor_linear_lxor (f g : Z → Z) :
  xor_linear f → xor_linear g → xor_linear (λ y, Z.lxor (f y) (g y)).
Proof. intros Hf Hg a b. cbv beta. rewrite Hf, Hg. apply lxor_swap. Qed.

Lemma xor_linear_comp (f g : Z → Z) :
  xor_linear f → xor_linear g → xor_linear (λ y, g (f y)).
Proof. intros Hf Hg a b. cbv beta. by rewrite Hf, Hg. Qed.

Lemma xor_linear_step_shiftr (s : Z) : xor_linear (λ y, Z.lxor y (Z.shiftr y s)).
Proof. apply xor_linear_lxor; [apply xor_linear_id|apply xor_linear_shiftr]. Qed.

Lemma xor_linear_step_mask (s c : Z) :
  xor_linear (λ y, Z.lxor y (Z.land (wrap32 (Z.shiftl y s)) c)).
Proof. apply xor_linear_lxor; [apply xor_linear_id|apply xor_linear_mask]. Qed.

Lemma temper_linear : xor_linear temper.
Proof.
  unfold temper.
  apply (xor_linear_comp (λ y, Z.lxor y (Z.shiftr y 11))
           (λ y, let y := Z.lxor y (Z.land (wrap32 (Z.shiftl y 7)) 0x9D2C5680) in
                 let y := Z.lxor y (Z.land (wrap32 (Z.shiftl y 15)) 0xEFC60000) in
                 Z.lxor y (Z.shiftr y 18))); [apply xor_linear_step_shiftr|].
  apply (xor_linear_comp (λ y, Z.lxor y (Z.land (wrap32 (Z.shiftl y 7)) 0x9D2C5680))
           (λ y, let y := Z.lxor y (Z.land (wrap32 (Z.shiftl y 15)) 0xEFC60000) in
                 Z.lxor y (Z.shiftr y 18))); [apply xor_linear_step_mask|].
  apply (xor_linear_comp (λ y, Z.lxor y (Z.land (wrap32 (Z.shiftl y 15)) 0xEFC60000))
           (λ y, Z.lxor y (Z.shiftr y 18))); [apply xor_linear_step_mask|].
  apply xor_linear_step_shiftr.
Qed.

Lemma untemper_linear : xor_linear untemper.
Proof.
  unfold untemper.
  apply (xor_linear_comp (λ z, Z.lxor z (Z.shiftr z 18))
           (λ z, let z := Z.lxor z (Z.land (wrap32 (Z.shiftl z 15)) 0xEFC60000) in
                 let t := Z.lxor z (Z.land (wrap32 (Z.shiftl z 7)) 0x9D2C5680) in
                 let t := Z.lxor z (Z.land (wrap32 (Z.shiftl t 7)) 0x9D2C5680) in
                 let t := Z.lxor z (Z.land (wrap32 (Z.shiftl t 7)) 0x9D2C5680) in
                 let t := Z.lxor z (Z.land (wrap32 (Z.shiftl t 7)) 0x9D2C5680) in
                 Z.lxor (Z.lxor t (Z.shiftr t 11)) (Z.shiftr t 22)));
    [apply xor_linear_step_shiftr|].
  apply (xor_linear_comp (λ z, Z.lxor z (Z.land (wrap32 (Z.shiftl z 15)) 0xEFC60000))
           (λ z, let t := Z.lxor z (Z.land (wrap32 (Z.shiftl z 7)) 0x9D2C5680) in
                 let t := Z.lxor z (Z.land (wrap32 (Z.shiftl t 7)) 0x9D2C5680) in
                 let t := Z.lxor z (Z.land (wrap32 (Z.shiftl t 7)) 0x9D2C5680) in
                 let t := Z.lxor z (Z.land (wrap32 (Z.shiftl t 7)) 0x9D2C5680) in
                 Z.lxor (Z.lxor t (Z.shiftr t 11)) (Z.shiftr t 22)));
    [apply xor_linear_step_mask|].
  assert (Hnext : ∀ f, xor_linear f →
                       xor_linear (λ z, Z.lxor z (Z.land (wrap32 (Z.shiftl (f z) 7)) 0x9D2C5680))).
  { intros f Hf. apply xor_linear_lxor; [apply xor_linear_id|].
    apply (xor_linear_comp f (λ y, Z.land (wrap32 (Z.shiftl y 7)) 0x9D2C5680));
      [done|apply xor_linear_mask]. }
  pose proof (Hnext _ (Hnext _ (Hnext _ (Hnext _ xor_linear_id)))) as Ht.
  apply (xor_linear_comp _ (λ t, Z.lxor (Z.lxor t (Z.shiftr t 11)) (Z.shiftr t 22)) Ht).
  apply xor_linear_lxor; [apply xor_linear_step_shiftr|apply xor_linear_shiftr].
Qed.

(** A 32-bit word is the exclusive or of its bits. *)
Lemma split_top_bit (k y : Z) :
  0 ≤ k → 0 ≤ y < 2 ^ (k + 1) →
  y = Z.lxor (y mod 2 ^ k) (if Z.testbit y k then 2 ^ k else 0).
Proof.
  intros Hk Hy. apply Z.bits_inj'. intros n Hn.
  rewrite Z.lxor_spec, Z.testbit_mod_pow2 by lia.
  destruct (Z.ltb_spec n k) as [Hlt|Hge]; cbn [andb].
  - destruct (Z.testbit y k).
    + rewrite Z.pow2_bits_false by lia. by rewrite xorb_false_r.
    + by rewrite Z.bits_0, xorb_false_r.
  - destruct (Z.eq_dec n k) as [->|Hne].
    + destruct (Z.testbit y k); [by rewrite Z.pow2_bits_true|by rewrite Z.bits_0].
    + assert (Z.testbit y n = false) as ->.
      { destruct (Z.eq_dec y 0) as [->|Hy0]; [apply Z.bits_0|].
        apply Z.bits_above_log2; [lia|].
        assert (Z.log2 y < k + 1) by (apply Z.log2_lt_pow2; lia). lia. }
      destruct (Z.testbit y k); [|by rewrite Z.bits_0].
      by rewrite Z.pow2_bits_false by lia.
Qed.

(** A function compatible with exclusive or that fixes zero and the 32
    powers of two fixes every 32-bit word. *)
Lemma xor_linear_fixes (h : Z → Z) :
  xor_linear h → h 0 = 0 →
  forallb (λ i, h (2 ^ Z.of_nat i) =? 2 ^ Z.of_nat i) (seq 0 32) = true →
  ∀ y, 0 ≤ y < 2 ^ 32 → h y = y.
Proof.
  intros Hlin H0 Hbasis.
  assert (Hb : ∀ i, (i < 32)%nat → h (2 ^ Z.of_nat i) = 2 ^ Z.of_nat i).
  { intros i Hi. rewrite forallb_forall in Hbasis. apply Z.eqb_eq, Hbasis, in_seq. lia. }
  assert (Hk : ∀ k, (k ≤ 32)%nat → ∀ y, 0 ≤ y < 2 ^ Z.of_nat k → h y = y).
  { induction k as [|k IH]; intros Hle y Hy.
    - assert (y = 0) as -> by (cbn in Hy; lia). done.
    - rewrite Nat2Z.inj_succ, <- Z.add_1_r in Hy.
      rewrite (split_top_bit (Z.of_nat k) y) at 1 by lia.
      rewrite Hlin, IH by (lia || (apply Z.mod_pos_bound; lia)).
      rewrite (split_top_bit (Z.of_nat k) y) at 3 by lia. f_equal.
      destruct (Z.testbit y (Z.of_nat k)); [apply Hb; lia|done]. }
  apply (Hk 32%nat). lia.
Qed.

Lemma untemper_temper (y : Z) : 0 ≤ y < 2 ^ 32 → untemper (temper y) = y.
Proof.
  apply (xor_linear_fixes (λ y, untemper (temper y))).
  - apply xor_linear_comp; [apply temper_linear|apply untemper_linear].
  - reflexivity.
  - vm_compute. reflexivity.
Qed.

Lemma temper_untemper (z : Z) : 0 ≤ z < 2 ^ 32 → temper (untemper z) = z.
Proof.
  apply (xor_linear_fixes (λ z, temper (untemper z))).
  - apply xor_linear_comp; [apply untemper_linear|apply temper_linear].
  - reflexivity.
  - vm_compute. reflexivity.
Qed.

Lemma temper_fits (y : Z) : 0 ≤ y < 2 ^ 32 → 0 ≤ temper y < 2 ^ 32.
Proof.
  intros Hy. unfold temper. cbv zeta.
  repeat first
    [ apply fits_lxor; [lia| |]
    | apply fits_shiftr; [lia|]
    | apply fits_land; [apply wrap32_range|lia]
    | exact Hy ].
Qed.

Lemma untemper_fits (z : Z) : 0 ≤ z < 2 ^ 32 → 0 ≤ untemper z < 2 ^ 32.
Proof.
  intros Hz. unfold untemper. cbv zeta.
  repeat first
    [ apply fits_lxor; [lia| |]
    | apply fits_shiftr; [lia|]
    | apply fits_land; [apply wrap32_range|lia]
    | exact Hz ].
Qed.

Lemma to_int32_inj (x x' : Z) :
  0 ≤ x < 2 ^ 32 → 0 ≤ x' < 2 ^ 32 → to_int32 x = to_int32 x' → x = x'.
Proof.
  intros Hx Hx'. unfold to_int32. rewrite !wrap32_small by done.
  destruct (Z.ltb_spec x (2 ^ 31)), (Z.ltb_spec x' (2 ^ 31)); lia.
Qed.

(** X21.  The tempering of [extract_number] is a bijection of the 32-bit
    words with an explicit inverse, so different table words give different
    outputs. *)
Theorem tempering_is_a_bijection :
  (∀ tw i, Twister.extract_number tw i = to_int32 (temper (Twister.tab_at (Twister.tab_ tw) i))) ∧
  (∀ y, 0 ≤ y < 2 ^ 32 → 0 ≤ temper y < 2 ^ 32 ∧ untemper (temper y) = y) ∧
  (∀ z, 0 ≤ z < 2 ^ 32 → 0 ≤ untemper z < 2 ^ 32 ∧ temper (untemper z) = z) ∧
  (∀ tw tw' i i',
     0 ≤ Twister.tab_at (Twister.tab_ tw) i < 2 ^ 32 →
     0 ≤ Twister.tab_at (Twister.tab_ tw') i' < 2 ^ 32 →
     Twister.extract_number tw i = Twister.extract_number tw' i' →
     Twister.tab_at (Twister.tab_ tw) i = Twister.tab_at (Twister.tab_ tw') i').
Proof.
  split; [reflexivity|]. split; [|split].
  - intros y Hy. split; [by apply temper_fits|by apply untemper_temper].
  - intros z Hz. split; [by apply untemper_fits|by apply temper_untemper].
  - intros tw tw' i i' Hy Hy' H.
    change (to_int32 (temper (Twister.tab_at (Twister.tab_ tw) i))
            = to_int32 (temper (Twister.tab_at (Twister.tab_ tw') i'))) in H.
    apply to_int32_inj in H; [|by apply temper_fits..].
    rewrite <- (untemper_temper _ Hy), <- (untemper_temper _ Hy'). by rewrite H.
Qed.

Lemma tempering_is_a_bijection_witness :
  untemper (temper 2462955959) = 2462955959 ∧ temper (untemper 2147483647) = 2147483647 ∧
  temper 2462955959 = 2147483647.
Proof.
  destruct tempering_is_a_bijection as (_ & H1 & H2 & _).
  split; [apply (H1 2462955959); lia|]. split; [apply (H2 2147483647); lia|].
  vm_compute. reflexivity.
Defined.

(** ** Costs under growing bonuses *)

Lemma deficit_mono c bonus bonus' i :
  0 ≤ i < 5 → bonus_le bonus bonus' → deficit c bonus' i ≤ deficit c bonus i.
Proof. intros Hi H. specialize (H i Hi). unfold deficit. lia. Qed.

Lemma total_deficit_mono c bonus bonus' :
  bonus_le bonus bonus' → total_deficit c bonus' ≤ total_deficit c bonus.
Proof.
  intros H. unfold total_deficit.
  pose proof (deficit_mono c bonus bonus' 0 ltac:(lia) H).
  pose proof (deficit_mono c bonus bonus' 1 ltac:(lia) H).
  pose proof (deficit_mono c bonus bonus' 2 ltac:(lia) H).
  pose proof (deficit_mono c bonus bonus' 3 ltac:(lia) H).
  pose proof (deficit_mono c bonus bonus' 4 ltac:(lia) H). lia.
Qed.

Lemma get_cost_mono c bonus bonus' :
  bonus_le bonus bonus' → Card.get_cost c bonus ≠ -1 →
  Card.get_cost c bonus' ≠ -1 ∧ 0 ≤ Card.get_cost c bonus' ≤ Card.get_cost c bonus.
Proof.
  intros Hle Hf.
  destruct (get_cost_cases c bonus) as [[E _]|(E & Hd & Ht)]; [done|].
  pose proof (total_deficit_mono c bonus bonus' Hle) as Hm.
  destruct (get_cost_cases c bonus') as [[_ [(i & Hi & Hbig)|Hbig]]|(E' & _ & _)].
  - pose proof (deficit_mono c bonus bonus' i Hi Hle). specialize (Hd i Hi). lia.
  - lia.
  - rewrite E, E'. rewrite total_deficit_sum in *.
    pose proof (deficit_sum_nonneg 5 0 c bonus'). lia.
Qed.

(** X23.  More bonuses never make a card dearer: with bonuses at least as
    high in every colour a feasible card stays feasible and does not cost
    more, and a card whose costs are all covered by the bonuses costs
    nothing. *)
Theorem get_cost_monotone_in_bonus (c : Card.t) (bonus bonus' : list Z) :
  bonus_le bonus bonus' →
  (Card.get_cost c bonus ≠ -1 →
   Card.get_cost c bonus' ≠ -1 ∧ 0 ≤ Card.get_cost c bonus' ≤ Card.get_cost c bonus) ∧
  ((∀ i, 0 ≤ i < 5 → nth (Z.to_nat i) (Card.cost c) 0 ≤ nth (Z.to_nat i) bonus 0) →
   Card.get_cost c bonus = 0).
Proof.
  intros Hle. split; [by apply get_cost_mono|].
  intros Hfree.
  assert (Hz : ∀ i, 0 ≤ i < 5 → deficit c bonus i = 0).
  { intros i Hi. specialize (Hfree i Hi). unfold deficit. lia. }
  destruct (get_cost_cases c bonus) as [[_ [(i & Hi & Hbig)|Hbig]]|(E & _ & _)].
  - rewrite Hz in Hbig by done. lia.
  - unfold total_deficit in Hbig. rewrite !Hz in Hbig by lia. lia.
  - rewrite E. unfold total_deficit. rewrite !Hz by lia. lia.
Qed.

Lemma get_cost_monotone_in_bonus_witness :
  Card.get_cost card_red1 [0; 1; 0; 0; 0] ≠ -1 ∧
  0 ≤ Card.get_cost card_red1 [0; 1; 0; 0; 0] ≤ Card.get_cost card_red1 [0; 0; 0; 0; 0].
Proof.
  apply (proj1 (get_cost_monotone_in_bonus card_red1 [0; 0; 0; 0; 0] [0; 1; 0; 0; 0]
                  ltac:(intros i Hi;
                        assert (i = 0 ∨ i = 1 ∨ i = 2 ∨ i = 3 ∨ i = 4)
                          as [->|[->|[->|[->| ->]]]] by lia; cbv; discriminate))).
  vm_compute. discriminate.
Defined.

Lemma bonus_le_refl (bonus : list Z) : bonus_le bonus bonus.
Proof. intros i _. lia. Qed.

Lemma bonus_le_trans (b1 b2 b3 : list Z) : bonus_le b1 b2 → bonus_le b2 b3 → bonus_le b1 b3.
Proof. intros H1 H2 i Hi. specialize (H1 i Hi). specialize (H2 i Hi). lia. Qed.

Lemma commit_step_bonus_le r m r' c : commit_step r m r' c → bonus_le (r_bonus r) (r_bonus r').
Proof.
  intros Hc i Hi. rewrite (cs_bonus _ _ _ _ Hc).
  pose proof (cs_colour _ _ _ _ Hc) as Hcol.
  destruct (Z.eq_dec (Card.type c) i) as [E|Hne].
  - rewrite E in *. rewrite nth_insert_eq by lia. lia.
  - rewrite nth_insert_ne by lia. lia.
Qed.

(** X24.  During a replay the bonus of no colour ever decreases; so a card
    that is feasible at some point of a replay stays feasible until its end
    and its cost does not rise. *)
Theorem replay_never_raises_a_cost (n : nat) (ptr : Z) (cand : State.t) (r r' : replay) :
  play_out_loop n ptr cand r = Ok r' →
  bonus_le (r_bonus r) (r_bonus r') ∧
  ∀ c, Card.get_cost c (r_bonus r) ≠ -1 →
       Card.get_cost c (r_bonus r') ≠ -1 ∧
       0 ≤ Card.get_cost c (r_bonus r') ≤ Card.get_cost c (r_bonus r).
Proof.
  intros H.
  assert (Hle : bonus_le (r_bonus r) (r_bonus r')).
  { apply (play_out_loop_invariant (λ x, bonus_le (r_bonus r) (r_bonus x))) in H;
      [done| |apply bonus_le_refl].
    intros r0 m r1 c Hr0 Hc. eapply bonus_le_trans; [exact Hr0|].
    by eapply commit_step_bonus_le. }
  split; [done|]. intros c. by apply get_cost_mono.
Qed.

Lemma replay_never_raises_a_cost_witness :
  ∃ r',
    play_out_loop 3 0 cand_100 (play_start deck_green deck_red Deck.new State.new) = Ok r' ∧
    bonus_le (replicate 5 0) (r_bonus r') ∧
    Card.get_cost card_red1 (r_bonus r') ≤ Card.get_cost card_red1 (replicate 5 0).
Proof.
  destruct (play_out_loop 3 0 cand_100 (play_start deck_green deck_red Deck.new State.new))
    as [r'| |] eqn:E; [|exfalso; vm_compute in E; discriminate E..].
  exists r'. split; [reflexivity|].
  destruct (replay_never_raises_a_cost 3 0 cand_100 _ r' E) as [H1 H2].
  split; [exact H1|].
  apply (H2 card_red1). vm_compute. discriminate.
Defined.

(** ** What the search reports *)

Section Reported.

Context {temperature : Type}.
Variable start_temp : temperature.
Variable above_final : temperature → bool.
Variable cool : temperature → temperature.
Variable accept : Z → temperature → spec_float → bool.
Variable indet : Z.
Variable full_deck_set : list Card.t.

Lemma anneal_step_results fuel d1 d2 d3 st best tw temp o :
  seq_ok st → replay_result d1 d2 d3 st → replay_result d1 d2 d3 best →
  anneal_step accept indet fuel d1 d2 d3 st best tw temp = Ok o →
  seq_ok (so_st o) ∧ replay_result d1 d2 d3 (so_st o) ∧ replay_result d1 d2 d3 (so_best o).
Proof.
  intros Hst Hrst Hrbest H.
  pose proof (anneal_step_sequences accept indet _ _ _ _ _ _ _ _ _ Hst H)
    as (Hc & _ & Hst' & _).
  apply anneal_step_inv in H as (tw1 & _ & Er & Ebest & Est & _).
  assert (replay_result d1 d2 d3 (so_refined o)) as Hr.
  { right. by exists (so_cand o). }
  split; [done|]. rewrite Ebest, Est.
  split; [by destruct (accept _ _ _)|by destruct (_ <? _)].
Qed.

Lemma anneal_loop_results n fuel d1 d2 d3 st best tw temp st' best' tw' :
  seq_ok st → replay_result d1 d2 d3 st → replay_result d1 d2 d3 best →
  anneal_loop above_final cool accept indet n fuel d1 d2 d3 st best tw temp
    = Ok (st', best', tw') →
  replay_result d1 d2 d3 best'.
Proof.
  revert st best tw temp. induction n as [|n IH]; intros st best tw temp Hst Hrst Hrb H;
    [done|].
  cbn [anneal_loop] in H. destruct (above_final temp).
  - apply bind_Ok in H as (o & E & H).
    destruct (anneal_step_results _ _ _ _ _ _ _ _ _ Hst Hrst Hrb E) as (? & ? & ?).
    by eapply IH.
  - by inversion H; subst.
Qed.

Lemma play_runs_results k fuel d1 d2 d3 best tw best' tw' :
  replay_result d1 d2 d3 best →
  play_runs start_temp above_final cool accept indet k fuel d1 d2 d3 best tw = Ok (best', tw') →
  replay_result d1 d2 d3 best'.
Proof.
  revert best tw. induction k as [|k IH]; intros best tw Hb H; cbn [play_runs] in H.
  { by inversion H; subst. }
  apply bind_Ok in H as ([b1 tw1] & E & H). unfold play_randomly in E.
  apply bind_Ok in E as ([[st1 b2] tw2] & E & E'). inversion E'; subst; clear E'.
  apply anneal_loop_results in E; [|apply seq_ok_new|by left|done].
  by eapply IH.
Qed.

(** What holds of every replay result. *)
Lemma replay_result_facts d1 d2 d3 st :
  replay_result d1 d2 d3 st →
  play_out State.new d1 d2 d3 st = Ok st ∧
  State.card_sequence_sz st = State.move_sequence_sz st ∧
  State.move_sequence_sz st = State.rounds st ∧
  State.rounds st + (State.tokens_cost st + 3) `div` 4 ≤ 28 ∧
  State.points st = sum_values (resolved_cards st).
Proof.
  intros [->|(cand & Hc & H)].
  - split; [reflexivity|]. split; [done|]. split; [done|]. split; [done|reflexivity].
  - pose proof H as H'. unfold play_out in H'. apply bind_Ok in H' as (r & E & H').
    injection H' as <-.
    apply play_out_loop_books in E
      as [Hml Hcl Hmsz Hcsz Hrounds Htokens Hbudget Hpoints Hshown Hbl Hbonus].
    split; [by eapply play_out_new_stable|].
    split; [lia|]. split; [done|]. split; [done|done].
Qed.

(** X25.  The best state [play_randomized_deck] reports is the fresh state
    or the result of replaying a candidate of the search against the
    completed decks (the first two with reversed backlog).  So replaying it
    against these decks gives it again, its two sequences have as many
    entries as it has rounds, it respects the budget of 28 rounds, and its
    points are the sum of the values of its resolved cards. *)
Theorem reported_best_state_is_a_replay_result :
  ∀ fuel d1 d2 d3 best setup tw best' setup' tw',
    play_randomized_deck start_temp above_final cool accept indet full_deck_set
      fuel d1 d2 d3 best setup tw = Ok (best', setup', tw') →
    ∃ d1' d2' setup1,
      fill_up_randomly fuel 25 (remaining1 full_deck_set (Deck.to_set d1)) setup d1
        = Ok (d1', setup1) ∧
      fill_up_randomly fuel 25 (remaining2 full_deck_set (Deck.to_set d2)) setup1 d2
        = Ok (d2', setup') ∧
      replay_result (reverse_backlog d1') (reverse_backlog d2') d3 best' ∧
      play_out State.new (reverse_backlog d1') (reverse_backlog d2') d3 best' = Ok best' ∧
      State.card_sequence_sz best' = State.move_sequence_sz best' ∧
      State.move_sequence_sz best' = State.rounds best' ∧
      State.rounds best' + (State.tokens_cost best' + 3) `div` 4 ≤ 28 ∧
      State.points best' = sum_values (resolved_cards best').
Proof.
  intros fuel d1 d2 d3 best setup tw best' setup' tw' H.
  unfold play_randomized_deck in H.
  apply bind_Ok in H as ([d1' setup1] & E1 & H).
  apply bind_Ok in H as ([d2' setup2] & E2 & H).
  apply bind_Ok in H as ([b a] & E3 & H). inversion H; subst; clear H.
  exists d1', d2', setup1. split; [done|]. split; [done|].
  unfold play_single_setting in E3.
  apply play_runs_results in E3; [|by left].
  split; [done|]. by apply replay_result_facts.
Qed.

End Reported.

Lemma reported_best_state_is_a_replay_result_witness :
  ∃ best' setup' tw',
    play_randomized_deck 1%nat toy_above_final toy_cool toy_accept 0
      [card_a; card_b; card_green; card_red1] 64 (dealt [card_a]) (dealt [card_red1]) Deck.new
      State.new tw_zero annealing_twister = Ok (best', setup', tw') ∧
    State.rounds best' + (State.tokens_cost best' + 3) `div` 4 ≤ 28 ∧
    State.points best' = sum_values (resolved_cards best').
Proof.
  assert (Hrun : match play_randomized_deck 1%nat toy_above_final toy_cool toy_accept 0
                         [card_a; card_b; card_green; card_red1] 64 (dealt [card_a])
                         (dealt [card_red1]) Deck.new State.new tw_zero annealing_twister with
                 | Ok _ => true
                 | _ => false
                 end = true) by (vm_compute; reflexivity).
  destruct (play_randomized_deck 1%nat toy_above_final toy_cool toy_accept 0
              [card_a; card_b; card_green; card_red1] 64 (dealt [card_a])
              (dealt [card_red1]) Deck.new State.new tw_zero annealing_twister)
    as [[[best' setup'] tw']| |] eqn:E; [|discriminate Hrun..].
  exists best', setup', tw'. split; [reflexivity|].
  destruct (reported_best_state_is_a_replay_result 1%nat toy_above_final toy_cool toy_accept 0
              [card_a; card_b; card_green; card_red1] 64 (dealt [card_a])
              (dealt [card_red1]) Deck.new State.new tw_zero annealing_twister best' setup' tw' E)
    as (_ & _ & _ & _ & _ & _ & _ & _ & _ & H1 & H2).
  split; [exact H1|exact H2].
Defined.
